(** * coven: control-flow analyzer and coverage reconciler

    A shallow embedding of [coven.py] (bytecode-level branch coverage for
    CPython 3.7) and the properties of its analyzer, reconciler, snapshot
    merge and worklist traversal.

    Conventions of the embedding:
    - Python [dict] and [set] objects are [gmap] and [gset]; iteration over
      a set follows [elements], and [set.pop()] is a parameter of the
      traversal where its choice matters.
    - An [Instruction] object is identified by its logical offset [off], the
      key under which [crawl_code_insts] stores it in [insts]; the flags that
      the analyzer mutates on instruction objects live in that store.
    - Exceptions are values of [error]; a computation is a [result]. *)

From stdpp Require Import gmap strings list fin_maps sorting.
From Stdlib Require Import ZArith Lia.

Local Open Scope Z_scope.

(** ** Exceptions and results *)

(** Which [assert] statement failed. *)
Inductive assertion :=
  | A_not_visited        (* visit_nodes: assert node not in visited *)
  | A_block_nesting      (* crawl_code_insts: assert all(dst <= d for _, d in blocks) *)
  | A_pop_jump_if_false  (* crawl_code_insts: assert op == POP_JUMP_IF_FALSE *)
  | A_arc_fresh          (* find_arcs: assert a[0] not in starts_to_arcs *)
  | A_emit_line          (* emit_edges: assert line > 0 *)
  | A_cov_line.          (* add_edges: assert line > 0 *)

Inductive error :=
  | AssertionError (a : assertion)
  | KeyError
  | UnboundLocalError
  | TypeError
  | StructuralError (path : string) (line off : Z).
      (* Exception(f'{path}:{line}: off:{off}; BREAK_LOOP stack has no SETUP_LOOP block') *)

Inductive result (A : Type) :=
  | OK (a : A)
  | Raise (e : error)
  | OutOfFuel.
Arguments OK {A} a.
Arguments Raise {A} e.
Arguments OutOfFuel {A}.

Definition rbind {A B} (r : result A) (k : A → result B) : result B :=
  match r with
  | OK a => k a
  | Raise e => Raise e
  | OutOfFuel => OutOfFuel
  end.

Notation "'let*' p ':=' r 'in' k" := (rbind r (λ p, k))
  (at level 10, p pattern, r at level 100, k at level 200, only parsing).

Definition assert (b : bool) (a : assertion) : result unit :=
  if b then OK tt else Raise (AssertionError a).

Definition from_option {A} (o : option A) (e : error) : result A :=
  match o with Some a => OK a | None => Raise e end.

(** Observations of a result, for checking a concrete run. *)
Definition holds {A} (r : result A) (P : A → bool) : bool :=
  match r with OK a => P a | _ => false end.

Definition out_of_fuel {A} (r : result A) : bool :=
  match r with OutOfFuel => true | _ => false end.

(** Left-to-right loop over a list with a fallible body. *)
Fixpoint foldM {A S} (body : S → A → result S) (s : S) (l : list A) : result S :=
  match l with
  | [] => OK s
  | a :: l' => let* s' := body s a in foldM body s' l'
  end.

(** ** visit_nodes *)

Section visit_nodes.
Context {A : Type} `{Countable A} {S : Type}.

(** [set.pop()]: some element of a non-empty set. *)
Variable pop : gset A → option A.

(** The [while remaining:] loop.  The visitor may update analyzer state
    [S] and may raise. *)
Fixpoint visit_loop (fuel : nat) (visitor : A → S → result (list A * S))
    (remaining visited : gset A) (st : S) : result (gset A * S) :=
  match fuel with
  | O => OutOfFuel
  | Datatypes.S fuel' =>
    match pop remaining with
    | None => OK (visited, st)
    | Some node =>
      let remaining := remaining ∖ {[node]} in
      let* _ := assert (bool_decide (node ∉ visited)) A_not_visited in
      let visited := visited ∪ {[node]} in
      let* (discovered, st') := visitor node st in
      visit_loop fuel' visitor
        (remaining ∪ list_to_set (filter (λ n, n ∉ visited) discovered))
        visited st'
    end
  end.

Definition visit_nodes (fuel : nat) (start_nodes : list A)
    (visitor : A → S → result (list A * S)) (st : S) : result (gset A * S) :=
  visit_loop fuel visitor (list_to_set start_nodes) ∅ st.
End visit_nodes.

(** The choice made by the model where the source calls [set.pop()]. *)
Definition set_pop {A} `{Countable A} (s : gset A) : option A := head (elements s).

(** A visitor without side effects, instrumented with the log of its calls. *)
Definition logged {A} (f : A → list A) (n : A) (calls : list A) : result (list A * list A) :=
  OK (f n, calls ++ [n]).

(** [m] is discovered from a start node through a chain of visitor calls. *)
Definition reachable {A} (f : A → list A) (start : list A) (m : A) : Prop :=
  ∃ s, s ∈ start ∧ rtc (λ a b, b ∈ f a) s m.

(** [pop] behaves like [set.pop()] on a non-empty set and the loop stops on
    the empty set. *)
Definition pop_spec {A} `{Countable A} (pop : gset A → option A) : Prop :=
  (∀ s x, pop s = Some x → x ∈ s) ∧ (∀ s, pop s = None → s = ∅).


(** ** Bytecode *)

(** Fake instruction/line offsets. *)
Definition LINE_BEGIN : Z := -1.
Definition OFF_BEGIN : Z := -1.
Definition OP_BEGIN : Z := -1.
Definition LINE_RAISED : Z := -2.
Definition OFF_RAISED : Z := -2.
Definition OP_RAISED : Z := -2.

(** Opcode numbers.  The source reads them from [dis.opmap]; the table is
    part of CPython 3.7, not of this repository, and is written out here. *)
Definition CONTINUE_LOOP : Z := 119.
Definition JUMP_ABSOLUTE : Z := 113.
Definition JUMP_IF_FALSE_OR_POP : Z := 111.
Definition JUMP_IF_TRUE_OR_POP : Z := 112.
Definition POP_JUMP_IF_FALSE : Z := 114.
Definition POP_JUMP_IF_TRUE : Z := 115.
Definition FOR_ITER : Z := 93.
Definition JUMP_FORWARD : Z := 110.
Definition SETUP_ASYNC_WITH : Z := 154.
Definition SETUP_EXCEPT : Z := 121.
Definition SETUP_FINALLY : Z := 122.
Definition SETUP_LOOP : Z := 120.
Definition SETUP_WITH : Z := 143.
Definition BREAK_LOOP : Z := 80.
Definition CALL_FUNCTION : Z := 131.
Definition COMPARE_OP : Z := 107.
Definition DELETE_FAST : Z := 126.
Definition DUP_TOP : Z := 4.
Definition END_FINALLY : Z := 88.
Definition EXTENDED_ARG : Z := 144.
Definition LOAD_CONST : Z := 100.
Definition LOAD_GLOBAL : Z := 116.
Definition POP_BLOCK : Z := 87.
Definition POP_EXCEPT : Z := 89.
Definition POP_TOP : Z := 1.
Definition RAISE_VARARGS : Z := 130.
Definition RETURN_VALUE : Z := 83.
Definition STORE_FAST : Z := 125.
Definition WITH_CLEANUP_FINISH : Z := 82.
Definition WITH_CLEANUP_START : Z := 81.
Definition YIELD_FROM : Z := 72.
Definition YIELD_VALUE : Z := 86.

Definition jump_opcodes : gset Z :=
  {[ CONTINUE_LOOP; FOR_ITER; JUMP_ABSOLUTE; JUMP_IF_FALSE_OR_POP;
     JUMP_IF_TRUE_OR_POP; POP_JUMP_IF_FALSE; POP_JUMP_IF_TRUE; JUMP_FORWARD ]}.

(** The following opcodes never advance to the next instruction. *)
Definition stop_opcodes : gset Z :=
  {[ BREAK_LOOP; CONTINUE_LOOP; JUMP_ABSOLUTE; JUMP_FORWARD; RAISE_VARARGS;
     RETURN_VALUE; YIELD_VALUE; YIELD_FROM ]}.

(** These codes push a block that specifies a block destination. *)
Definition setup_opcodes : gset Z :=
  {[ SETUP_ASYNC_WITH; SETUP_EXCEPT; SETUP_FINALLY; SETUP_LOOP; SETUP_WITH ]}.

(** These codes expect an exception edge that lands at the block destination. *)
Definition setup_exc_opcodes : gset Z :=
  {[ SETUP_ASYNC_WITH; SETUP_EXCEPT; SETUP_FINALLY; SETUP_WITH ]}.

(** The Python values an instruction argument can hold, as far as the
    analyzer distinguishes them. *)
Inductive pyval :=
  | VNone
  | VInt (z : Z)
  | VStr (s : string)
  | VOther.

Global Instance pyval_eq_dec : EqDecision pyval.
Proof. solve_decision. Defined.

Global Instance pyval_countable : Countable pyval.
Proof.
  refine (inj_countable'
    (λ v, match v with
          | VNone => inl (inl ()) | VInt z => inl (inr z)
          | VStr s => inr (inl s) | VOther => inr (inr ()) end)
    (λ x, match x with
          | inl (inl ()) => VNone | inl (inr z) => VInt z
          | inr (inl s) => VStr s | inr (inr ()) => VOther end) _).
  by intros [].
Defined.

(** Truth value of an argument ([if dst_off:], [not dst]). *)
Definition truthy (v : pyval) : bool :=
  match v with
  | VNone => false
  | VInt z => negb (z =? 0)
  | VStr s => negb (String.eqb s "")
  | VOther => true
  end.

(** [a <= b] on arguments; only integers are ordered. *)
Definition py_le (a b : pyval) : result bool :=
  match a, b with
  | VInt x, VInt y => OK (x <=? y)
  | _, _ => Raise TypeError
  end.

(** [dis.Instruction], restricted to the fields the analyzer reads. *)
Record Instruction := {
  opcode : Z;
  argval : pyval;
  argrepr : string;
  offset : Z;
  starts_line : option Z;
}.

Global Instance Instruction_eq_dec : EqDecision Instruction.
Proof. solve_decision. Defined.

Global Instance Instruction_countable : Countable Instruction.
Proof.
  refine (inj_countable'
    (λ i, (opcode i, argval i, argrepr i, offset i, starts_line i))
    (λ '(o, a, r, f, s),
       {| opcode := o; argval := a; argrepr := r; offset := f; starts_line := s |}) _).
  by intros [].
Defined.

(** A block frame [(setup_op, handler_off)]. *)
Notation block := (Z * pyval)%type (only parsing).

(** An instruction after [enhance_inst].  [stack] lists the open blocks
    innermost first: its head is the source's [blocks[-1]]. *)
Record inst := {
  raw : Instruction;
  off : Z;
  line : Z;
  is_line_start : bool;
  stack : list block;
  is_SF_exc_opt : bool;
  is_call_exit : bool;
  is_exc_match : bool;
  is_exc_match_jmp_src : bool;
  is_exc_match_jmp_dst : bool;
}.

Definition enhance_inst (i : Instruction) (off line : Z) (is_line_start : bool)
    (stack : list block) : inst :=
  {| raw := i; off := off; line := line; is_line_start := is_line_start;
     stack := stack; is_SF_exc_opt := false; is_call_exit := false;
     is_exc_match := false; is_exc_match_jmp_src := false;
     is_exc_match_jmp_dst := false |}.

Definition set_is_SF_exc_opt (i : inst) : inst :=
  {| raw := raw i; off := off i; line := line i; is_line_start := is_line_start i;
     stack := stack i; is_SF_exc_opt := true; is_call_exit := is_call_exit i;
     is_exc_match := is_exc_match i; is_exc_match_jmp_src := is_exc_match_jmp_src i;
     is_exc_match_jmp_dst := is_exc_match_jmp_dst i |}.

Definition set_flags (i : inst) (call_exit exc_match jmp_src jmp_dst : bool) : inst :=
  {| raw := raw i; off := off i; line := line i; is_line_start := is_line_start i;
     stack := stack i; is_SF_exc_opt := is_SF_exc_opt i; is_call_exit := call_exit;
     is_exc_match := exc_match; is_exc_match_jmp_src := jmp_src;
     is_exc_match_jmp_dst := jmp_dst |}.

Definition _begin_inst : inst :=
  enhance_inst
    {| opcode := OP_BEGIN; argval := VNone; argrepr := ""; offset := OFF_BEGIN;
       starts_line := Some LINE_BEGIN |}
    OFF_BEGIN LINE_BEGIN false [].

Definition _raised_inst : inst :=
  enhance_inst
    {| opcode := OP_RAISED; argval := VNone; argrepr := ""; offset := OFF_RAISED;
       starts_line := Some LINE_RAISED |}
    OFF_RAISED LINE_RAISED false [].

(** A code object: its name, the stream that [dis.get_instructions] yields
    for it, and the code objects among its constants. *)
Inductive code := Code (co_name : string) (co_insts : list Instruction) (co_codes : list code).

Definition co_name (c : code) : string := let 'Code n _ _ := c in n.
Definition get_instructions (c : code) : list Instruction := let 'Code _ l _ := c in l.

(** [[c for c in code.co_consts if isinstance(c, CodeType)]] *)
Definition sub_codes (c : code) : list code := let 'Code _ _ l := c in l.

Fixpoint code_encode (c : code) : gen_tree (string * list Instruction) :=
  let 'Code n l subs := c in GenNode 0 (GenLeaf (n, l) :: map code_encode subs).

Fixpoint code_decode (t : gen_tree (string * list Instruction)) : code :=
  match t with
  | GenNode _ (GenLeaf (n, l) :: ts) => Code n l (map code_decode ts)
  | _ => Code "" [] []
  end.

Global Instance code_eq_dec : EqDecision code.
Proof.
  assert (∀ c, code_decode (code_encode c) = c) as Hinv.
  { fix IH 1. intros [n l subs]. simpl. f_equal.
    induction subs as [|c subs IHsubs]; simpl; [done|]. f_equal; [apply IH|apply IHsubs]. }
  intros a b. destruct (decide (code_encode a = code_encode b)) as [Heq|Hne].
  - left. rewrite <- (Hinv a), <- (Hinv b). by f_equal.
  - right. intros ->. by apply Hne.
Defined.

Global Instance code_countable : Countable code.
Proof.
  refine (inj_countable' code_encode code_decode _).
  fix IH 1. intros [n l subs]. simpl. f_equal.
  induction subs as [|c subs IHsubs]; simpl; [done|]. f_equal; [apply IH|apply IHsubs].
Defined.

(** ** crawl_code_insts, step 1: scan raw instructions and assemble structure *)

(** [starts_line or prev.line]: [None] and [0] are both false. *)
Definition line_or (starts_line : option Z) (prev_line : Z) : Z :=
  match starts_line with
  | Some l => if l =? 0 then prev_line else l
  | None => prev_line
  end.

(** [bool(starts_line)] *)
Definition bool_of_line (starts_line : option Z) : bool :=
  match starts_line with
  | Some l => negb (l =? 0)
  | None => false
  end.

(** [while blocks and blocks[-1][1] == off: blocks.pop()] *)
Fixpoint pop_blocks (off : Z) (blocks : list block) : list block :=
  match blocks with
  | b :: rest => if bool_decide (b.2 = VInt off) then pop_blocks off rest else blocks
  | [] => []
  end.

(** [all(dst <= d for _, d in blocks)], evaluated from [blocks[0]] on. *)
Definition all_le (dst : pyval) (blocks : list block) : result bool :=
  foldM (λ acc (b : block), if acc : bool then py_le dst b.2 else OK false)
        true (reverse blocks).

(** The local variables of [crawl_code_insts] that step 1 updates.
    [insts] holds the instruction objects by [off]; [order] is the insertion
    order of its keys.  [nexts] and [prevs], keyed by instruction in the
    source, are keyed by [off].  [v_dst], [v_line] and [v_off] are the loop's
    variables [dst], [line] and [off], unbound until first assigned. *)
Record scan := {
  insts : gmap Z inst;
  order : list Z;
  nexts : gmap Z Z;
  prevs : gmap Z Z;
  blocks : list block;
  prev : inst;
  exc_match_jmp_dsts : gset pyval;
  ext : option Instruction;
  v_dst : option pyval;
  v_line : option Z;
  v_off : option Z;
}.

Definition scan_init : scan :=
  {| insts := <[OFF_RAISED := _raised_inst]> (<[OFF_BEGIN := _begin_inst]> ∅);
     order := [OFF_BEGIN; OFF_RAISED];
     nexts := ∅; prevs := ∅; blocks := []; prev := _begin_inst;
     exc_match_jmp_dsts := ∅; ext := None;
     v_dst := None; v_line := None; v_off := None |}.

(** [p = prev; if p.opcode == LOAD_CONST: p = prevs[p]] *)
Definition call_exit_pred (insts : gmap Z inst) (prevs : gmap Z Z) (prev : inst) : result inst :=
  if bool_decide (opcode (raw prev) = LOAD_CONST) then
    let* po := from_option (prevs !! off prev) KeyError in
    from_option (insts !! po) KeyError
  else OK prev.

(** One iteration of [for inst in get_instructions(code)]. *)
Definition scan_step (s : scan) (i : Instruction) : result scan :=
  let op := opcode i in
  let prev_off := off (prev s) in
  let prev_line := line (prev s) in
  let ext1 := if bool_decide (op = EXTENDED_ARG) && bool_decide (ext s = None)
              then Some i else ext s in
  let off := match ext1 with Some e => offset e | None => offset i end in
  let starts_line := match ext1 with Some e => starts_line e | None => starts_line i end in
  let line := line_or starts_line prev_line in
  let blocks1 := pop_blocks off (blocks s) in
  let* (blocks2, dst) :=
    if bool_decide (op ∈ setup_opcodes) then
      let dst := argval i in
      let* ok := all_le dst blocks1 in
      let* _ := assert ok A_block_nesting in
      OK ((op, dst) :: blocks1, Some dst)
    else OK (blocks1, v_dst s) in
  let e := enhance_inst i off line (bool_of_line starts_line) blocks2 in
  if bool_decide (op = EXTENDED_ARG) then
    (* continue *)
    OK {| insts := insts s; order := order s; nexts := nexts s; prevs := prevs s;
          blocks := blocks2; prev := prev s;
          exc_match_jmp_dsts := exc_match_jmp_dsts s; ext := ext1;
          v_dst := dst; v_line := Some line; v_off := Some off |}
  else
    let insts1 := <[off := e]> (insts s) in
    let order1 := if bool_decide (off ∈ order s) then order s else order s ++ [off] in
    let nexts1 := <[prev_off := off]> (nexts s) in
    let prevs1 := <[off := prev_off]> (prevs s) in
    let* call_exit :=
      if bool_decide (op = CALL_FUNCTION) then
        let* p := call_exit_pred insts1 prevs1 (prev s) in
        OK (bool_decide (opcode (raw p) = LOAD_GLOBAL) && bool_decide (argval (raw p) = VStr "exit"))
      else OK false in
    let exc_match :=
      bool_decide (op = COMPARE_OP) && bool_decide (argrepr i = "exception match") in
    let* (jmp_src, jmp_dsts) :=
      if is_exc_match (prev s) then
        let* _ := assert (bool_decide (op = POP_JUMP_IF_FALSE)) A_pop_jump_if_false in
        OK (true, {[argval i]} ∪ exc_match_jmp_dsts s)
      else OK (false, exc_match_jmp_dsts s) in
    let jmp_dst := bool_decide (VInt off ∈ jmp_dsts) in
    let e1 := set_flags e call_exit exc_match jmp_src jmp_dst in
    OK {| insts := <[off := e1]> insts1; order := order1; nexts := nexts1; prevs := prevs1;
          blocks := blocks2; prev := e1;
          exc_match_jmp_dsts := jmp_dsts; ext := None;
          v_dst := dst; v_line := Some line; v_off := Some off |}.

Definition scan_code (c : code) : result scan :=
  foldM scan_step scan_init (get_instructions c).

(** ** crawl_code_insts, step 2: assemble dsts *)

(** Lines written to stderr by [errSL] and [err_edge]. *)
Inductive diagnostic :=
  | W_SF_heuristic (path code_name : string) (exc_dst_inst : inst)
      (* coven WARNING: is_SETUP_FINALLY_exc_opt: ... heuristic failed on exc_dst_inst opcode *)
  | W_unexpected (edge : Z * Z) (c : code) (raise_reqs : list Z).
      (* err_edge('UNEXPECTED:', edge, code); errSL( *raise_reqs) *)

(** A [defaultdict(set)]: reading a missing key gives the empty set. *)
Definition set_at {K V} `{Countable K} `{Countable V} (d : gmap K (gset V)) (k : K) : gset V :=
  default ∅ (d !! k).

(** [d[k].add(v)] *)
Definition set_add {K V} `{Countable K} `{Countable V} (d : gmap K (gset V)) (k : K) (v : V)
    : gmap K (gset V) :=
  <[k := set_at d k ∪ {[v]}]> d.

(** [insts[v]] for an argument value [v]. *)
Definition lookup_py (insts : gmap Z inst) (v : pyval) : result inst :=
  match v with
  | VInt z => from_option (insts !! z) KeyError
  | _ => Raise KeyError
  end.

(** The handler of the innermost block whose setup opcode is in
    [match_ops], or [None]. *)
Fixpoint find_block (stack : list block) (match_ops : list Z) : pyval :=
  match stack with
  | (block_op, dst_off) :: rest =>
    if bool_decide (block_op ∈ match_ops) then dst_off else find_block rest match_ops
  | [] => VNone
  end.

Definition find_block_dst_off (i : inst) (match_ops : list Z) : pyval :=
  find_block (stack i) match_ops.

(** The TEF heuristic.  Returns the verdict and the warnings printed. *)
Definition is_SF_exc_opt_fn (nxt : inst) (insts : gmap Z inst) (path code_name : string)
    : result (bool * list diagnostic) :=
  if bool_decide (opcode (raw nxt) = SETUP_EXCEPT) then
    let* exc_dst_inst := lookup_py insts (argval (raw nxt)) in
    let op := opcode (raw exc_dst_inst) in
    if bool_decide (op = DUP_TOP) then OK (true, [])
    else if bool_decide (op = POP_TOP) then OK (false, [])
    else OK (false, [W_SF_heuristic path code_name exc_dst_inst])
  else OK (false, []).

(** State of the second scan: [dsts], the instruction store and stderr. *)
Record links := {
  dsts : gmap Z (gset Z);
  store : gmap Z inst;
  stderr : list diagnostic;
}.

(** [dsts[src].add(insts[v])] when [v] is an offset found by
    [find_block_dst_off] and is true. *)
Definition add_block_dst (l : links) (src : Z) (dst_off : pyval) : result links :=
  if truthy dst_off then
    let* t := lookup_py (store l) dst_off in
    OK {| dsts := set_add (dsts l) src (off t); store := store l; stderr := stderr l |}
  else OK l.

(** One iteration of [for inst in insts.values()]. *)
Definition link_step (path name : string) (sc : scan) (l : links) (i : inst)
    : result links :=
  let op := opcode (raw i) in
  if bool_decide (op = OP_BEGIN) || bool_decide (op = OP_RAISED) then OK l else
  let d := dsts l in
  let d := if bool_decide (off i = 0) then set_add d OFF_BEGIN (off i) else d in
  let* d :=
    if bool_decide (op ∉ stop_opcodes) && negb (is_call_exit i) then
      let* n := from_option (nexts sc !! off i) KeyError in
      OK (set_add d (off i) n)
    else OK d in
  let* d :=
    if bool_decide (op ∈ jump_opcodes) then
      let* t := lookup_py (store l) (argval (raw i)) in
      OK (set_add d (off i) (off t))
    else if bool_decide (op ∈ setup_exc_opcodes) then
      let* t := lookup_py (store l) (argval (raw i)) in
      OK (set_add d OFF_RAISED (off t))
    else OK d in
  let l := {| dsts := d; store := store l; stderr := stderr l |} in
  if bool_decide (op = BREAK_LOOP) then
    let dst_off := find_block_dst_off i [SETUP_LOOP] in
    (* the test reads [dst], the variable of step 1, not [dst_off] *)
    let* dst := from_option (v_dst sc) UnboundLocalError in
    if negb (truthy dst) then
      let* line := from_option (v_line sc) UnboundLocalError in
      let* off := from_option (v_off sc) UnboundLocalError in
      Raise (StructuralError path line off)
    else
      let* t := lookup_py (store l) dst_off in
      OK {| dsts := set_add d (off i) (off t); store := store l; stderr := stderr l |}
  else if bool_decide (op = END_FINALLY) then
    add_block_dst l (off i)
      (find_block_dst_off i [SETUP_ASYNC_WITH; SETUP_FINALLY; SETUP_WITH])
  else if bool_decide (op = RAISE_VARARGS) then
    add_block_dst l OFF_RAISED (find_block_dst_off i [SETUP_EXCEPT; SETUP_FINALLY])
  else if bool_decide (op = RETURN_VALUE) then
    add_block_dst l (off i)
      (find_block_dst_off i [SETUP_ASYNC_WITH; SETUP_FINALLY; SETUP_WITH])
  else if bool_decide (op = SETUP_FINALLY) then
    let* n := from_option (nexts sc !! off i) KeyError in
    let* nxt := from_option (store l !! n) KeyError in
    let* (is_opt, warnings) := is_SF_exc_opt_fn nxt (store l) path name in
    if is_opt then
      let* h := lookup_py (store l) (argval (raw i)) in
      OK {| dsts := d; store := <[off h := set_is_SF_exc_opt h]> (store l);
            stderr := stderr l ++ warnings |}
    else OK {| dsts := d; store := store l; stderr := stderr l ++ warnings |}
  else if bool_decide (op = YIELD_VALUE) then
    let* n := from_option (nexts sc !! off i) KeyError in
    OK {| dsts := set_add d OFF_BEGIN n; store := store l; stderr := stderr l |}
  else if bool_decide (op = YIELD_FROM) then
    let* n := from_option (nexts sc !! off i) KeyError in
    OK {| dsts := set_add (set_add d OFF_BEGIN (off i)) OFF_RAISED n;
          store := store l; stderr := stderr l |}
  else OK l.

(** The loop reads each instruction object at the time it is visited. *)
Definition link_loop (path name : string) (sc : scan) (l : links) (o : Z) : result links :=
  let* i := from_option (store l !! o) KeyError in
  link_step path name sc l i.

Definition link_code (path name : string) (sc : scan) : result links :=
  foldM (link_loop path name sc)
        {| dsts := ∅; store := insts sc; stderr := [] |} (order sc).

(** [srcs[dst].add(src)] for every [dst] in every [dsts[src]]. *)
Definition srcs_of (dsts : gmap Z (gset Z)) : gmap Z (gset Z) :=
  foldl (λ acc '(src, dst_set),
           foldl (λ acc dst, set_add acc dst src) acc (elements dst_set))
        ∅ (map_to_list dsts).

(** ** crawl_code_insts, step 3: find all arcs *)

(** An arc is a non-empty tuple of instructions: its first instruction and
    the instructions appended by the walk. *)
Notation arc := (Z * list Z)%type (only parsing).

(** The [while len(dst_set) == 1] loop of [find_arcs]. *)
Fixpoint arc_walk (fuel : nat) (dsts srcs : gmap Z (gset Z)) (rest : list Z)
    (dst_set : gset Z) : result (list Z * gset Z) :=
  match fuel with
  | O => OutOfFuel
  | S fuel' =>
    match elements dst_set with
    | [i] =>
      if bool_decide (size (set_at srcs i) ≠ 1%nat) then OK (rest, dst_set)
      else arc_walk fuel' dsts srcs (rest ++ [i]) (set_at dsts i)
    | _ => OK (rest, dst_set)
    end
  end.

Definition find_arcs (fuel : nat) (dsts srcs : gmap Z (gset Z)) (i : Z)
    (starts_to_arcs : gmap Z arc) : result (list Z * gmap Z arc) :=
  let* (rest, dst_set) := arc_walk fuel dsts srcs [] (set_at dsts i) in
  let* _ := assert (bool_decide (starts_to_arcs !! i = None)) A_arc_fresh in
  OK (elements dst_set, <[i := (i, rest)]> starts_to_arcs).

(** ** crawl_code_insts, step 4: emit edges for each arc *)

(** Our interpretation of the line number tricks described in
    lnotabs_notes.txt. *)
Definition next_line (i nxt : inst) (prev_line : Z) : Z :=
  if is_line_start nxt || (off nxt <? off i) || (prev_line <? 0) then line nxt else prev_line.

(** An expected instruction: an opcode, or an (opcode, argument) pair. *)
Notation expected := (Z * option pyval)%type (only parsing).

Definition match_inst (i : inst) (exp : expected) : bool :=
  match exp with
  | (op, Some arg) => bool_decide (opcode (raw i) = op) && bool_decide (argval (raw i) = arg)
  | (op, None) => bool_decide (opcode (raw i) = op)
  end.

Fixpoint all_match (insts : list inst) (exps : list expected) : bool :=
  match insts, exps with
  | i :: insts', e :: exps' => match_inst i e && all_match insts' exps'
  | _, _ => true
  end.

Definition match_insts (insts : list inst) (exps : list expected) : bool :=
  if (length insts <? length exps)%nat then false else all_match insts exps.

Definition is_arc_opt_SF_raise (src a0 : inst) : bool :=
  bool_decide (off src = off _raised_inst) && is_SF_exc_opt a0.

Definition is_arc_unhandled_exc_reraise (src a0 : inst) : bool :=
  (is_exc_match_jmp_src src && is_exc_match_jmp_dst a0) || is_exc_match_jmp_dst src.

Definition is_arc_exc_as_cleanup (src : inst) (arc : list inst) : bool :=
  bool_decide (off src = off _raised_inst) &&
  match_insts arc [(LOAD_CONST, Some VNone); (STORE_FAST, None); (DELETE_FAST, None);
                   (END_FINALLY, None)].

Definition is_arc_with_cleanup (arc : list inst) : bool :=
  match_insts arc [(WITH_CLEANUP_START, None); (WITH_CLEANUP_FINISH, None);
                   (END_FINALLY, None)].

Definition is_arc_join_return_none (a0 : inst) (arc : list inst) (srcs : gmap Z (gset Z))
    : bool :=
  bool_decide (length arc = 2%nat) && bool_decide (1 < size (set_at srcs (off a0)))%nat &&
  match_insts arc [(LOAD_CONST, Some VNone); (RETURN_VALUE, None)].

(** [arc] is the whole arc and [a0] its first instruction [arc[0]]. *)
Definition is_arc_opt (src a0 : inst) (arc : list inst) (srcs : gmap Z (gset Z)) : bool :=
  is_arc_opt_SF_raise src a0 ||
  is_arc_unhandled_exc_reraise src a0 ||
  is_arc_exc_as_cleanup src arc ||
  is_arc_with_cleanup arc ||
  is_arc_join_return_none a0 arc srcs.

(** An edge [(src_off, dst_off)] and a call [add_edge(edge, line, is_opt)]. *)
Notation edge := (Z * Z)%type (only parsing).
Notation call := (edge * Z * bool)%type (only parsing).

(** Edges to sets of lines. *)
Notation edge_lines := (gmap edge (gset Z))%type (only parsing).

Definition add_edge (st : edge_lines * edge_lines) (c : call) : edge_lines * edge_lines :=
  let '(e, line, is_opt) := c in
  let '(req, opt) := st in
  if is_opt then (req, set_add opt e line) else (set_add req e line, opt).

(** The variables of the loop over one arc, and the [add_edge] calls it
    has made. *)
Record emit_vars := {
  ev_prev : inst;
  ev_line : Z;
  ev_is_opt : bool;
  ev_calls : list call;
}.

(** One iteration of [for prev, inst in zip((src,) + arc, arc)]. *)
Definition emit_step (nexts : gmap Z Z) (src : inst) (is_src_opt : bool)
    (v : emit_vars) (i : inst) : result emit_vars :=
  let prev := ev_prev v in
  let line := next_line prev i (ev_line v) in
  let* _ := assert (0 <? line) A_emit_line in
  let src_is_prev := bool_decide (off src = off prev) in
  let prev_off :=
    if src_is_prev && bool_decide (opcode (raw src) = FOR_ITER)
       && bool_decide (argval (raw src) = VInt (off i))
    then OFF_RAISED else off prev in
  let* is_opt :=
    if ev_is_opt v then OK true
    else if bool_decide (opcode (raw prev) = END_FINALLY) then
      let* n := from_option (nexts !! off prev) KeyError in
      OK (bool_decide (n = off i))
    else OK false in
  OK {| ev_prev := i; ev_line := line; ev_is_opt := is_opt;
        ev_calls := ev_calls v ++ [((prev_off, off i), line, is_opt || (is_src_opt && src_is_prev))] |}.

(** What the later steps read of the earlier ones. *)
Record graph := {
  g_insts : gmap Z inst;
  g_nexts : gmap Z Z;
  g_dsts : gmap Z (gset Z);
  g_srcs : gmap Z (gset Z);
  g_arcs : gmap Z arc;
}.

(** A node of the last traversal: [(inst, line, is_opt)]. *)
Notation triple := (Z * Z * bool)%type (only parsing).

(** The instructions of the arc that starts at [start]: [arc[0]] and the
    rest. *)
Definition arc_insts (g : graph) (start : Z) : result (inst * list inst) :=
  let* (a0_off, rest) := from_option (g_arcs g !! start) KeyError in
  let* a0 := from_option (g_insts g !! a0_off) KeyError in
  let* rest_insts := foldM (λ acc o, let* i := from_option (g_insts g !! o) KeyError in
                                     OK (acc ++ [i])) [] rest in
  OK (a0, rest_insts).

(** [for prev, inst in zip((src,) + arc, arc)], from the classification
    [is_opt] of the arc at its entry. *)
Definition emit_loop (nexts : gmap Z Z) (src : inst) (src_line : Z) (is_src_opt is_opt : bool)
    (arc : list inst) : result emit_vars :=
  foldM (emit_step nexts src is_src_opt)
        {| ev_prev := src; ev_line := src_line; ev_is_opt := is_opt; ev_calls := [] |} arc.

(** The loop over one arc of [emit_edges]: the calls of [add_edge], and
    the triple yielded after it. *)
Definition emit_arc (g : graph) (src : inst) (src_line : Z) (is_src_opt : bool)
    (start : Z) : result (list call * triple) :=
  let* (a0, rest) := arc_insts g start in
  let arc := a0 :: rest in
  let is_opt := is_arc_opt src a0 arc (g_srcs g) in
  let* v := emit_loop (g_nexts g) src src_line is_src_opt is_opt arc in
  OK (ev_calls v, (off (ev_prev v), ev_line v, ev_is_opt v)).

(** [emit_edges] as a function of its node: every call of [add_edge] it
    makes, in order, and the triples it yields.  [add_edge] only writes
    [req] and [opt], which [emit_edges] never reads. *)
Definition emit_calls (g : graph) (t : triple) : result (list call * list triple) :=
  let '(src_off, src_line, is_src_opt) := t in
  let* src := from_option (g_insts g !! src_off) KeyError in
  foldM (λ '(calls, yields) start,
           let* (cs, y) := emit_arc g src src_line is_src_opt start in
           OK (calls ++ cs, yields ++ [y]))
        ([], []) (elements (set_at (g_dsts g) src_off)).

Definition emit_edges (g : graph) (t : triple) (st : edge_lines * edge_lines)
    : result (list triple * (edge_lines * edge_lines)) :=
  let* (calls, yields) := emit_calls g t in
  OK (yields, foldl add_edge st calls).

(** ** crawl_code_insts *)

(** Steps 1 to 3: the instructions, their successors and the arcs, with
    the warnings printed on the way. *)
Definition build_graph (fuel : nat) (path : string) (c : code)
    : result (graph * list diagnostic) :=
  let name := co_name c in
  let* sc := scan_code c in
  let* l := link_code path name sc in
  let srcs := srcs_of (dsts l) in
  let* (_, starts_to_arcs) :=
    visit_nodes set_pop fuel
      (elements (set_at (dsts l) OFF_BEGIN ∪ set_at (dsts l) OFF_RAISED))
      (find_arcs fuel (dsts l) srcs) ∅ in
  OK ({| g_insts := store l; g_nexts := nexts sc; g_dsts := dsts l;
         g_srcs := srcs; g_arcs := starts_to_arcs |}, stderr l).

(** The start nodes of the last traversal. *)
Definition emit_start : list (Z * Z * bool) :=
  [(OFF_BEGIN, LINE_BEGIN, false); (OFF_RAISED, LINE_RAISED, false)].

Definition crawl_code_insts (fuel : nat) (path : string) (c : code)
    : result (edge_lines * edge_lines * list diagnostic) :=
  let* (g, warnings) := build_graph fuel path c in
  let* (_, (req, opt)) := visit_nodes set_pop fuel emit_start (emit_edges g) (∅, ∅) in
  OK (req, opt, warnings).

(** ** calculate_coverage *)

(** A traced edge [(prev_off, off, line)] and the traced edges of each code
    object of one file. *)
Notation traced_edge := (Z * Z * Z)%type (only parsing).
Notation traces := (gmap code (gset traced_edge))%type (only parsing).

(** An element of a coverage set: [(src, dst, code)]. *)
Notation cov_edge := (Z * Z * code)%type (only parsing).

(** Line numbers to [(required, matched)]; a [defaultdict] whose missing
    entries read as [(set(), set())]. *)
Notation coverage_map := (gmap Z (gset cov_edge * gset cov_edge))%type (only parsing).

Inductive cov_idx := COV_REQ | COV_MATCHED.

Definition cov_at (coverage : coverage_map) (line : Z) : gset cov_edge * gset cov_edge :=
  default (∅, ∅) (coverage !! line).

(** [coverage[line][cov_idx].add(e)] *)
Definition cov_add (coverage : coverage_map) (line : Z) (idx : cov_idx) (e : cov_edge)
    : coverage_map :=
  let '(required, matched) := cov_at coverage line in
  match idx with
  | COV_REQ => <[line := (required ∪ {[e]}, matched)]> coverage
  | COV_MATCHED => <[line := (required, matched ∪ {[e]})]> coverage
  end.

Definition add_edges (el : edge_lines) (c : code) (idx : cov_idx) (coverage : coverage_map)
    : result coverage_map :=
  foldM (λ cov '(e, lines),
           foldM (λ cov line,
                    let* _ := assert (0 <? line) A_cov_line in
                    OK (cov_add cov line idx (e.1, e.2, c)))
                 cov (elements lines))
        coverage (map_to_list el).

(** [{ edge[1] : (edge, lines) for edge, lines in req.items() if edge[0] == OFF_RAISED }] *)
Definition raise_reqs_of (req : edge_lines) : gmap Z (edge * gset Z) :=
  foldl (λ acc '(e, lines),
           if bool_decide (e.1 = OFF_RAISED) then <[e.2 := (e, lines)]> acc else acc)
        ∅ (map_to_list req).

(** [{ edge[1] for edge in opt if edge[0] == OFF_RAISED }] *)
Definition raise_opts_of (opt : edge_lines) : gset Z :=
  foldl (λ acc '(e, _),
           if bool_decide (e.1 = OFF_RAISED) then acc ∪ {[e.2]} else acc)
        ∅ (map_to_list opt).

(** [matched[e].update(l)] *)
Definition set_update {K V} `{Countable K} `{Countable V} (d : gmap K (gset V)) (k : K)
    (vs : gset V) : gmap K (gset V) :=
  <[k := set_at d k ∪ vs]> d.

(** One iteration of [for src, dst, line in traced]: the matched edges and
    the diagnostics so far. *)
Definition match_step (c : code) (req opt : edge_lines)
    (raise_reqs : gmap Z (edge * gset Z)) (raise_opts : gset Z)
    (st : edge_lines * list diagnostic) (t : traced_edge) : edge_lines * list diagnostic :=
  let '(src, dst, line) := t in
  let '(matched, err) := st in
  let e : edge := (src, dst) in
  if bool_decide (is_Some (req !! e)) then (set_add matched e line, err)
  else match raise_reqs !! dst with
  | Some (e', l) => (set_update matched e' l, err)
  | None =>
    if negb (bool_decide (is_Some (opt !! e)) || bool_decide (dst ∈ raise_opts))
    then (matched, err ++ [W_unexpected e c (map fst (map_to_list raise_reqs))])
    else (matched, err)
  end.

Definition match_traced (c : code) (req opt : edge_lines) (traced : gset traced_edge)
    : edge_lines * list diagnostic :=
  foldl (match_step c req opt (raise_reqs_of req) (raise_opts_of opt)) (∅, [])
        (elements traced).

(** The body of [for code in all_codes]. *)
Definition cover_code (fuel : nat) (path : string) (code_edges : traces)
    (st : coverage_map * list diagnostic) (c : code)
    : result (coverage_map * list diagnostic) :=
  let '(coverage, err) := st in
  let traced := default ∅ (code_edges !! c) in
  let* (req, opt, warnings) := crawl_code_insts fuel path c in
  let '(matched, unexpected) := match_traced c req opt traced in
  let* coverage := add_edges req c COV_REQ coverage in
  let* coverage := add_edges matched c COV_MATCHED coverage in
  OK (coverage, err ++ warnings ++ unexpected).

Definition calculate_coverage (fuel : nat) (path : string) (code_edges : traces)
    : result (coverage_map * list diagnostic) :=
  let* (all_codes, _) :=
    visit_nodes set_pop fuel (map fst (map_to_list code_edges))
      (λ c (_ : unit), OK (sub_codes c, tt)) tt in
  foldM (cover_code fuel path code_edges) (∅, []) (elements all_codes).

(** ** report_path: the verdict for each line *)

Record verdicts := {
  covered_lines : gset Z;
  ign_cov_lines : gset Z;
  not_cov_lines : gset Z;
}.

(** One iteration of [for line, (required, matched) in coverage.items()]. *)
Definition verdict_step (ignored_lines explicitly_ignored_lines : gset Z) (v : verdicts)
    (item : Z * (gset cov_edge * gset cov_edge)) : verdicts :=
  let '(line, (required, matched)) := item in
  if bool_decide (required ⊆ matched) then
    if bool_decide (line ∈ explicitly_ignored_lines)
    then {| covered_lines := covered_lines v; ign_cov_lines := ign_cov_lines v ∪ {[line]};
            not_cov_lines := not_cov_lines v |}
    else {| covered_lines := covered_lines v ∪ {[line]}; ign_cov_lines := ign_cov_lines v;
            not_cov_lines := not_cov_lines v |}
  else if bool_decide (line ∉ ignored_lines)
    then {| covered_lines := covered_lines v; ign_cov_lines := ign_cov_lines v;
            not_cov_lines := not_cov_lines v ∪ {[line]} |}
    else v.

(** The three line sets of [report_path]; the ignored lines come from the
    text of the file ([calc_ignored_lines]). *)
Definition line_verdicts (coverage : coverage_map) (ignored_lines explicitly_ignored_lines : gset Z)
    : verdicts :=
  foldl (verdict_step ignored_lines explicitly_ignored_lines)
        {| covered_lines := ∅; ign_cov_lines := ∅; not_cov_lines := ∅ |}
        (map_to_list coverage).

(** ** coalesce *)

(** A loaded trace file. *)
Record snapshot := {
  target_paths : gmap string (option string);
  path_code_edges : gmap string traces;
}.

Global Instance snapshot_eq_dec : EqDecision snapshot.
Proof. solve_decision. Defined.

(** The accumulators [target_path_sets] and [path_code_edges]. *)
Notation merged := (gmap string (gset string) * gmap string traces)%type (only parsing).

(** One iteration of [for target, path in data['target_paths'].items()]. *)
Definition merge_target (arg_targets : gset string) (tps : gmap string (gset string))
    (item : string * option string) : gmap string (gset string) :=
  let '(target, path) := item in
  if negb (bool_decide (arg_targets = ∅)) && bool_decide (target ∉ arg_targets) then tps
  else
    let s := set_at tps target in
    match path with
    | Some p => <[target := s ∪ {[p]}]> tps
    | None => <[target := s]> tps
    end.

(** [path_code_edges[path][code].update(edges)] *)
Definition merge_edges (path : string) (pce : gmap string traces)
    (item : code * gset traced_edge) : gmap string traces :=
  let '(c, edges) := item in
  let code_edges := default ∅ (pce !! path) in
  <[path := <[c := default ∅ (code_edges !! c) ∪ edges]> code_edges]> pce.

(** The body of [for trace_path in trace_paths], after the file is loaded. *)
Definition coalesce_step (arg_targets : gset string) (st : merged) (data : snapshot) : merged :=
  let '(tps, pce) := st in
  (foldl (merge_target arg_targets) tps (map_to_list (target_paths data)),
   foldl (λ pce '(path, code_edges),
            foldl (merge_edges path) pce (map_to_list code_edges))
         pce (map_to_list (path_code_edges data))).

(** The accumulators when [coalesce] calls [report]: [target_path_sets]
    (of which [target_path_lists] is the sorted form) and
    [path_code_edges]. *)
Definition coalesce (snapshots : list snapshot) (arg_targets : gset string) : merged :=
  foldl (coalesce_step arg_targets)
        (set_to_map (λ t, (t, ∅)) arg_targets, ∅) snapshots.

(** The merge of two accumulated results that "grouping" refers to in the
    specification of coalesce (it is not a function of the source): the
    union of the path sets of each target and the union of the edge sets of
    each path and code object. *)
Definition merged_join (a b : merged) : merged :=
  (union_with (λ x y, Some (x ∪ y)) a.1 b.1,
   union_with (λ m1 m2, Some (union_with (λ x y, Some (x ∪ y)) m1 m2)) a.2 b.2).

(** Does [coalesce] keep the entry of this target? *)
Definition target_kept (arg_targets : gset string) (t : string) : bool :=
  negb (negb (bool_decide (arg_targets = ∅)) && bool_decide (t ∉ arg_targets)).

Definition path_set (p : option string) : gset string :=
  match p with Some x => {[x]} | None => ∅ end.

(** The edge sets of one path after the edges of one snapshot are added. *)
Definition merge_codes (m : gmap code (gset (Z * Z * Z))) (code_edges : gmap code (gset (Z * Z * Z)))
    : gmap code (gset (Z * Z * Z)) :=
  foldl (λ m '(c, edges), <[c := default ∅ (m !! c) ∪ edges]> m) m (map_to_list code_edges).

(** The set of a coverage entry that [cov_idx] selects. *)
Definition cov_proj (idx : cov_idx) (p : gset (Z * Z * code) * gset (Z * Z * code))
    : gset (Z * Z * code) :=
  match idx with COV_REQ => p.1 | COV_MATCHED => p.2 end.

Definition cov_other (idx : cov_idx) : cov_idx :=
  match idx with COV_REQ => COV_MATCHED | COV_MATCHED => COV_REQ end.

(** The tracer reported every required edge on one of the lines that
    [crawl_code_insts] infers for it. *)
Definition traced_on_inferred_lines (fuel : nat) (path : string)
    (code_edges : gmap code (gset (Z * Z * Z))) : Prop :=
  ∀ c req opt warnings s d line lines,
    crawl_code_insts fuel path c = OK (req, opt, warnings) →
    (s, d, line) ∈ default ∅ (code_edges !! c) →
    req !! (s, d) = Some lines →
    line ∈ lines.

(** A step from [p] to [n] is an END_FINALLY falling through to the
    textual next instruction. *)
Definition ef_step (nexts : gmap Z Z) (p n : inst) : Prop :=
  opcode (raw p) = END_FINALLY ∧ nexts !! off p = Some (off n).

(** The shape of the streams that [dis.get_instructions] yields: offsets,
    jump targets and block handlers are byte positions, and line numbers
    are positive. *)
Definition wf_instruction (i : Instruction) : bool :=
  (0 <=? offset i)
  && (if bool_decide (opcode i ∈ jump_opcodes ∪ setup_opcodes)
      then match argval i with VInt z => 0 <=? z | _ => true end
      else true)
  && match starts_line i with Some l => 0 <? l | None => true end.

Definition wf_code (c : code) : bool := forallb wf_instruction (get_instructions c).

(** The first instruction of the stream carries a starts-line. *)
Definition first_has_line (c : code) : bool :=
  match get_instructions c with
  | i :: _ => bool_decide (is_Some (starts_line i))
  | [] => true
  end.

(** Every key of a map filled by [add_edge] has a line. *)
Definition keys_have_lines (m : gmap (Z * Z) (gset Z)) : Prop :=
  ∀ e, is_Some (m !! e) → ∃ line, line ∈ set_at m e.

(** ** Which errors a computation can raise *)



(** ** Well-formed instruction stores *)






(** The values that one iteration of step 1 computes from the raw
    instruction and the state: the first pending EXTENDED_ARG, the logical
    offset, the starts-line and the line. *)
Definition step_ext (s : scan) (i : Instruction) : option Instruction :=
  if bool_decide (opcode i = EXTENDED_ARG) && bool_decide (ext s = None) then Some i else ext s.

Definition step_off (s : scan) (i : Instruction) : Z :=
  match step_ext s i with Some e => offset e | None => offset i end.

Definition step_starts_line (s : scan) (i : Instruction) : option Z :=
  match step_ext s i with Some e => starts_line e | None => starts_line i end.

Definition step_line (s : scan) (i : Instruction) : Z :=
  line_or (step_starts_line s i) (line (prev s)).




(** ** Shapes used to state properties of the graph *)

(** The last instruction of the arc [(a0, rest)]. *)
Definition arc_last (a0 : Z) (rest : list Z) : Z := List.last rest a0.

(** [y] is the only successor of [x] and [x] the only predecessor of [y]:
    the walk of [find_arcs] goes on from [x] to [y]. *)
Definition single_step (dsts srcs : gmap Z (gset Z)) (x y : Z) : Prop :=
  elements (set_at dsts x) = [y] ∧ size (set_at srcs y) = 1%nat.

(** Each instruction of the list is joined to the next by a single step. *)
Fixpoint arc_chain (dsts srcs : gmap Z (gset Z)) (x : Z) (l : list Z) : Prop :=
  match l with
  | [] => True
  | y :: l' => single_step dsts srcs x y ∧ arc_chain dsts srcs y l'
  end.

(** ** Shapes used to state properties of step 1 *)

(** The handler of [b1] is an integer no greater than the handler of
    [b2]. *)
Definition handler_le (b1 b2 : block) : Prop :=
  ∃ z1 z2, b1.2 = VInt z1 ∧ b2.2 = VInt z2 ∧ z1 ≤ z2.

(** A block stack, innermost first, in which each block ends no later
    than every block around it. *)
Fixpoint nested (l : list block) : Prop :=
  match l with
  | [] => True
  | b :: rest => Forall (handler_le b) rest ∧ nested rest
  end.

(** The arguments of the SETUP instructions are integers, as
    [dis.get_instructions] resolves them. *)
Definition setup_args_int (c : code) : bool :=
  forallb (λ i, if bool_decide (opcode i ∈ setup_opcodes)
                then match argval i with VInt _ => true | _ => false end
                else true)
          (get_instructions c).

(** A run of EXTENDED_ARG prefixes followed by the instruction they
    extend. *)
Definition prefixed (p : Instruction) (ps : list Instruction) (i : Instruction)
  : list Instruction := p :: ps ++ [i].

(** ** Shapes used to state properties of calculate_coverage *)

(** What the traced edge [t] adds to [matched]: its own line when the edge
    is required, the lines of the required exception edge into its
    destination otherwise. *)
Definition traced_update (req : edge_lines) (raise_reqs : gmap Z (edge * gset Z))
    (t : traced_edge) (matched : edge_lines) : edge_lines :=
  let '(src, dst, line) := t in
  if bool_decide (is_Some (req !! (src, dst))) then set_add matched (src, dst) line
  else match raise_reqs !! dst with
       | Some (e', l) => set_update matched e' l
       | None => matched
       end.

(** What the traced edge [t] writes to stderr. *)
Definition traced_report (c : code) (req opt : edge_lines)
    (raise_reqs : gmap Z (edge * gset Z)) (raise_opts : gset Z) (t : traced_edge)
    : list diagnostic :=
  let '(src, dst, line) := t in
  if bool_decide (is_Some (req !! (src, dst))) then []
  else match raise_reqs !! dst with
       | Some _ => []
       | None =>
         if negb (bool_decide (is_Some (opt !! (src, dst))) || bool_decide (dst ∈ raise_opts))
         then [W_unexpected (src, dst) c (map fst (map_to_list raise_reqs))]
         else []
       end.

(** The traced edge [t] matches the required edge [e] on [line]. *)
Definition traced_match (req : edge_lines) (t : traced_edge) (e : edge) (line : Z) : Prop :=
  (is_Some (req !! (t.1.1, t.1.2)) ∧ e = (t.1.1, t.1.2) ∧ line = t.2)
  ∨ (req !! (t.1.1, t.1.2) = None ∧ e = (OFF_RAISED, t.1.2)
     ∧ ∃ L, req !! (OFF_RAISED, t.1.2) = Some L ∧ line ∈ L).

(** The code objects that [calculate_coverage] analyzes: those with traced
    edges and, transitively, the code objects among their constants. *)
Definition analyzed (code_edges : traces) (c : code) : Prop :=
  reachable sub_codes (map fst (map_to_list code_edges)) c.

(** ** line_ranges *)

(** What stops the report of one file. *)
Inductive report_error :=
  | E_assert_terminal   (* assert terminal > 0 *)
  | E_assert_line       (* assert i > 0 *)
  | E_index             (* line_texts[line - 1] *)
  | E_assert_covered.   (* assert line in covered_lines *)

(** [range(start, stop)], and the lines it holds. *)
Notation range := (Z * Z)%type (only parsing).

Definition range_lines (r : range) : list Z := seqZ r.1 (r.2 - r.1).

(** The [for i in it] loop of [line_ranges]; [out] holds what was yielded
    so far, [None] standing for the interstitial. *)
Fixpoint line_ranges_loop (before after terminal : Z) (start end_ : Z) (rest : list Z)
    (out : list (option range)) : list (option range) * option report_error :=
  match rest with
  | [] => (out ++ [Some (Z.max 1 start, Z.min end_ terminal)], None)
  | i :: rest' =>
    if negb (0 <? i) then (out, Some E_assert_line)
    else if end_ + 1 <? i - before then
      line_ranges_loop before after terminal (i - before) (i + after + 1) rest'
        (out ++ [Some (Z.max 1 start, Z.min end_ terminal); None])
    else line_ranges_loop before after terminal start (i + after + 1) rest' out
  end.

(** The generator [line_ranges]: what it yields, and the assertion that
    stops it, if any. *)
Definition line_ranges (iterable : list Z) (before after terminal : Z)
    : list (option range) * option report_error :=
  if negb (0 <? terminal) then ([], Some E_assert_terminal)
  else match iterable with
       | [] => ([], None)
       | i :: rest =>
         if negb (0 <? i) then ([], Some E_assert_line)
         else line_ranges_loop before after terminal (i - before) (i + after + 1) rest []
       end.

(** Ranges with an interstitial between each two. *)
Fixpoint chunks (rs : list range) : list (option range) :=
  match rs with
  | [] => []
  | [r] => [Some r]
  | r :: rs' => Some r :: None :: chunks rs'
  end.

(** Each range of the list ends at least two lines before the next one
    starts. *)
Fixpoint apart (rs : list range) : Prop :=
  match rs with
  | r1 :: (r2 :: _) as rs' => r1.2 + 1 < r2.1 ∧ apart rs'
  | _ => True
  end.

(** ** Stats *)

Module Stats.

Record t := mk {
  lines : Z;
  trivial : Z;
  traceable : Z;
  covered : Z;
  ignored : Z;
  ignored_but_covered : Z;
  not_covered : Z;
}.

(** [Stats()] *)
Definition init : t := mk 0 0 0 0 0 0 0.


End Stats.

(** ** report_path: the statistics of one file *)

(** [len(s)] *)
Definition len {A} `{Countable A} (s : gset A) : Z := Z.of_nat (size s).

Definition path_stats (line_texts : list string) (coverage : coverage_map)
    (ignored_lines explicitly_ignored_lines : gset Z) : Stats.t :=
  let v := line_verdicts coverage ignored_lines explicitly_ignored_lines in
  let length := Z.of_nat (List.length line_texts) in
  {| Stats.lines := length;
     Stats.trivial := Z.max 0 (length - Z.of_nat (size coverage));
     Stats.traceable := Z.of_nat (size coverage);
     Stats.covered := len (covered_lines v);
     Stats.ignored_but_covered := len (ign_cov_lines v);
     Stats.not_covered := len (not_cov_lines v);
     Stats.ignored :=
       len (ignored_lines ∖ covered_lines v ∖ ign_cov_lines v ∖ not_cov_lines v) |}.


(** ** report_path: the listing of one file *)

(** The colour variables of the listing. *)
Inductive color := RST1 | TXT_L1 | TXT_Y1 | TXT_C1 | TXT_R1.

(** What is printed: [' ...'] for an interstitial, or a line with its
    number, colour, symbol and text; [needs_dbg] is the local of that
    name. *)
Inductive listing_item :=
  | Elided
  | Listed (line : Z) (c : color) (sym : string) (text : string) (needs_dbg : bool).

(** [l[i]]: a negative index counts from the end. *)
Definition py_index {A} (l : list A) (i : Z) : option A :=
  let n := Z.of_nat (List.length l) in
  if 0 <=? i then l !! Z.to_nat i
  else if 0 <=? i + n then l !! Z.to_nat (i + n)
  else None.

(** The colour and symbol chosen for [line]; [None] when
    [assert line in covered_lines] fails. *)
Definition line_mark (coverage : coverage_map) (v : verdicts) (ignored_lines : gset Z)
    (line : Z) : option (color * string * bool) :=
  match coverage !! line with
  | None => Some (TXT_L1, " ", false)
  | Some (required, matched) =>
    if bool_decide (line ∈ ign_cov_lines v) then Some (TXT_Y1, "?", false)
    else if bool_decide (line ∈ ignored_lines) then Some (TXT_C1, "|", false)
    else if bool_decide (line ∈ not_cov_lines v) then
      if bool_decide (matched ≠ ∅) then Some (TXT_R1, "%", true)
      else Some (TXT_R1, "!", false)
    else if bool_decide (line ∈ covered_lines v) then Some (RST1, " ", false)
    else None
  end.

(** [for line in r]; [out] holds what was printed so far. *)
Fixpoint list_lines (line_texts : list string) (coverage : coverage_map) (v : verdicts)
    (ignored_lines : gset Z) (ls : list Z) (out : list listing_item)
    : list listing_item * option report_error :=
  match ls with
  | [] => (out, None)
  | line :: ls' =>
    match py_index line_texts (line - 1) with
    | None => (out, Some E_index)
    | Some text =>
      match line_mark coverage v ignored_lines line with
      | None => (out, Some E_assert_covered)
      | Some (c, sym, needs_dbg) =>
        list_lines line_texts coverage v ignored_lines ls'
          (out ++ [Listed line c sym text needs_dbg])
      end
    end
  end.

(** [for r in ranges] *)
Fixpoint list_ranges (line_texts : list string) (coverage : coverage_map) (v : verdicts)
    (ignored_lines : gset Z) (rs : list (option range)) (out : list listing_item)
    : list listing_item * option report_error :=
  match rs with
  | [] => (out, None)
  | None :: rs' => list_ranges line_texts coverage v ignored_lines rs' (out ++ [Elided])
  | Some r :: rs' =>
    match list_lines line_texts coverage v ignored_lines (range_lines r) out with
    | (out', None) => list_ranges line_texts coverage v ignored_lines rs' out'
    | stopped => stopped
    end
  end.

(** The listing that [report_path] prints for one file, and what stops
    it, if anything.  The generator [line_ranges] runs as the loop asks
    for its next item: an assertion of it fails after the ranges before
    it were printed. *)
Definition report_listing (line_texts : list string) (coverage : coverage_map)
    (ignored_lines explicitly_ignored_lines : gset Z) (show_all : bool)
    : list listing_item * option report_error :=
  let v := line_verdicts coverage ignored_lines explicitly_ignored_lines in
  let problem_lines := ign_cov_lines v ∪ not_cov_lines v in
  if bool_decide (problem_lines = ∅) then ([], None)
  else
    let length := Z.of_nat (List.length line_texts) in
    let reported_lines :=
      if show_all then seqZ 1 length else merge_sort Z.le (elements problem_lines) in
    let '(ranges, stopped) := line_ranges reported_lines 4 1 (length + 1) in
    match list_ranges line_texts coverage v ignored_lines ranges [] with
    | (out, None) => (out, stopped)
    | stopped => stopped
    end.



(** ** Shapes used to state what coalesce collects *)

(** The traced edges held for [path] and code object [c]. *)
Definition edges_at (pce : gmap string traces) (path : string) (c : code) : gset traced_edge :=
  default ∅ (default ∅ (pce !! path) !! c).

(** ** calc_ignored_lines *)

(** What [calc_ignored_lines] reads off the match of
    [indent_and_ignored_re] against one line: the length of the leading
    space, [m.end(1) - m.start(1)]; whether one of the ignore triggers
    matched, [m.lastindex == 2]; and whether it is the directive,
    [bool(m.group('directive'))].  The match itself is computed by the
    regular expression engine of Python. *)
Record re_match := {
  m_indent : nat;
  m_trigger : bool;
  m_directive : bool;
}.

(** [enumerate(l, start)] *)
Fixpoint enumerate {A} (start : Z) (l : list A) : list (Z * A) :=
  match l with
  | [] => []
  | x :: l' => (start, x) :: enumerate (start + 1) l'
  end.

Module Ignore.

(** The locals of [calc_ignored_lines]. *)
Record t := mk {
  explicit : gset Z;
  implicit : gset Z;
  indent : Z;
  is_directive : bool;
}.

Definition init : t := mk ∅ ∅ (-1) false.

(** [(explicit if is_directive else implicit).add(line)] *)
Definition add_line (st : t) (d : bool) (line : Z) (indent' : Z) : t :=
  if d then mk (explicit st ∪ {[line]}) (implicit st) indent' d
  else mk (explicit st) (implicit st ∪ {[line]}) indent' d.

(** One iteration of [for line, text in enumerate(line_texts, 1)]. *)
Definition step (re : string → re_match) (st : t) (item : Z * string) : t :=
  let '(line, text) := item in
  let m := re text in
  let ind := Z.of_nat (m_indent m) in
  if m_trigger m then add_line st (m_directive m) line ind
  else if (-1 <? indent st) && (indent st <? ind) then
    add_line st (is_directive st) line (indent st)
  else mk (explicit st) (implicit st) (-1) (is_directive st).

End Ignore.

Definition calc_ignored_lines (re : string → re_match) (line_texts : list string)
    : gset Z * gset Z :=
  let st := foldl (Ignore.step re) Ignore.init (enumerate 1 line_texts) in
  (Ignore.explicit st ∪ Ignore.implicit st, Ignore.explicit st).

(** Line [k + 1] lies in the block that the trigger on line [t + 1] opens:
    the lines after the trigger, up to line [k + 1], match no trigger and
    are indented more than the trigger line. *)
Definition in_block (ms : list re_match) (t k : nat) : Prop :=
  (t ≤ k)%nat
  ∧ (∃ mt, ms !! t = Some mt ∧ m_trigger mt = true
           ∧ ∀ j mj, (t < j ≤ k)%nat → ms !! j = Some mj →
                     m_trigger mj = false ∧ (m_indent mt < m_indent mj)%nat)
  ∧ (k < length ms)%nat.

(** ** expand_targets *)

(** A Python [str] as the list of its characters. *)
Notation str := (list Ascii.ascii) (only parsing).

(** The characters ['/'] and ['.']. *)
Definition slash : Ascii.ascii := Ascii.ascii_of_nat 47.
Definition dot : Ascii.ascii := Ascii.ascii_of_nat 46.

(** The index of the first [c] in [s]. *)
Fixpoint find_char (c : Ascii.ascii) (s : str) : option nat :=
  match s with
  | [] => None
  | x :: s' => if Ascii.eqb x c then Some 0%nat else S <$> find_char c s'
  end.

(** [s.find(c, start)] for a character [c] and [start >= 0]. *)
Definition py_find (s : str) (c : Ascii.ascii) (start : Z) : Z :=
  match find_char c (drop (Z.to_nat start) s) with
  | Some i => start + Z.of_nat i
  | None => -1
  end.

(** [s.replace(a, b)] for characters [a] and [b]. *)
Definition py_replace (s : str) (a b : Ascii.ascii) : str :=
  map (λ c, if Ascii.eqb c a then b else c) s.

(** [s.endswith(suffix)] *)
Definition endswith (s suffix : str) : bool :=
  bool_decide (drop (length s - length suffix) s = suffix).

Definition expand_module_path (path : str) : str :=
  let slash_pos := py_find path slash 0 in
  let slash_pos := if slash_pos =? -1 then 0 else slash_pos in
  let dot_pos := py_find path dot slash_pos in
  let dot_pos := if dot_pos =? -1 then Z.of_nat (length path) else dot_pos in
  let stem := take (Z.to_nat dot_pos) path in
  py_replace stem slash dot.

Definition expand_module_name_or_path (word : str) : str :=
  if endswith word (String.list_ascii_of_string ".py") || bool_decide (slash ∈ word)
  then expand_module_path word
  else word.

Definition expand_targets (arg_targets : list str) : gset str :=
  foldl (λ targets arg, targets ∪ {[expand_module_name_or_path arg]}) ∅ arg_targets.

(** [sep.join(comps)] for a character [sep]. *)
Fixpoint join (sep : Ascii.ascii) (comps : list str) : str :=
  match comps with
  | [] => []
  | [c] => c
  | c :: cs => c ++ sep :: join sep cs
  end.

(** ** install_trace: the local tracer *)

(** What the local tracer reads at one event: [event], [frame.f_lasti]
    and [frame.f_lineno]. *)
Notation frame_event := (string * Z * Z)%type (only parsing).

(** One call of [coven_local_tracer]: the set [edges] and the nonlocal
    [prev_off] afterwards. *)
Definition coven_local_tracer (st : gset traced_edge * Z) (ev : frame_event)
    : gset traced_edge * Z :=
  let '(edges, prev_off) := st in
  let '(event, off, line) := ev in
  if String.eqb event "opcode" then (edges ∪ {[(prev_off, off, line)]}, off)
  else st.

(** One call event of a targeted code object: the global tracer makes a
    local tracer with [prev_off = OFF_BEGIN], which adds to the set that
    [code_edges] holds for the code object; the events are those of the
    frame until the tracer is dropped. *)
Definition trace_call (edges : gset traced_edge) (events : list frame_event)
    : gset traced_edge :=
  (foldl coven_local_tracer (edges, OFF_BEGIN) events).1.

(** The traced edges of a code object after the given calls of it. *)
Definition trace_calls (calls : list (list frame_event)) : gset traced_edge :=
  foldl trace_call ∅ calls.

(** ** Shapes used to state that emitted edges are edges of the graph *)

(** A walk along successor edges from [x] through the offsets of [l]. *)
Fixpoint walk (dsts : gmap Z (gset Z)) (x : Z) (l : list Z) : Prop :=
  match l with
  | [] => True
  | y :: l' => y ∈ set_at dsts x ∧ walk dsts y l'
  end.

(** The edge [e] that [emit_edges] passes to [add_edge] is an edge of the
    graph, or the edge of a FOR_ITER to its jump target emitted from
    RAISED. *)
Definition graph_edge (g : graph) (e : edge) : Prop :=
  ∃ p, e.2 ∈ set_at (g_dsts g) p
       ∧ (e.1 = p
          ∨ (e.1 = OFF_RAISED
             ∧ ∃ src, g_insts g !! p = Some src ∧ opcode (raw src) = FOR_ITER
                      ∧ argval (raw src) = VInt e.2)).

(** ** Shapes used to state why the graph has each of its edges *)

(** The reason for which the second scan, at instruction [i], adds [d] to
    the successors of [s]. *)
Definition edge_reason (nexts : gmap Z Z) (i : inst) (s d : Z) : Prop :=
  let op := opcode (raw i) in
  (* the first instruction follows BEGIN, and so does a YIELD_FROM *)
  (s = OFF_BEGIN ∧ d = off i ∧ (off i = 0 ∨ op = YIELD_FROM))
  (* the instruction advances to the next one *)
  ∨ (s = off i ∧ op ∉ stop_opcodes ∧ is_call_exit i = false ∧ nexts !! off i = Some d)
  (* the instruction jumps *)
  ∨ (s = off i ∧ op ∈ jump_opcodes ∧ argval (raw i) = VInt d)
  (* the handler of a block is entered from RAISED *)
  ∨ (s = OFF_RAISED ∧ op ∈ setup_exc_opcodes ∧ argval (raw i) = VInt d)
  (* the instruction leaves for the handler of an enclosing block *)
  ∨ (s = off i ∧ op = BREAK_LOOP ∧ find_block_dst_off i [SETUP_LOOP] = VInt d)
  ∨ (s = off i ∧ (op = END_FINALLY ∨ op = RETURN_VALUE)
     ∧ find_block_dst_off i [SETUP_ASYNC_WITH; SETUP_FINALLY; SETUP_WITH] = VInt d)
  ∨ (s = OFF_RAISED ∧ op = RAISE_VARARGS
     ∧ find_block_dst_off i [SETUP_EXCEPT; SETUP_FINALLY] = VInt d)
  (* a generator is resumed after a yield *)
  ∨ ((s = OFF_BEGIN ∧ op = YIELD_VALUE ∨ s = OFF_RAISED ∧ op = YIELD_FROM)
     ∧ nexts !! off i = Some d).

(** Every edge of [dsts] was added for an instruction of the store. *)
Definition edges_justified (nexts : gmap Z Z) (store : gmap Z inst)
    (dsts : gmap Z (gset Z)) : Prop :=
  ∀ s d, d ∈ set_at dsts s →
    ∃ i, store !! off i = Some i
         ∧ opcode (raw i) ≠ OP_BEGIN ∧ opcode (raw i) ≠ OP_RAISED
         ∧ edge_reason nexts i s d.

(** ** Example code units *)

Definition ins (offset op : Z) (argval : pyval) (starts_line : option Z) : Instruction :=
  {| opcode := op; argval := argval; argrepr := ""; offset := offset;
     starts_line := starts_line |}.

Definition LOAD_NAME : Z := 101.

(** [
def f():
  try:
    a()
  finally:
    b()
] *)
Definition try_finally_code : code :=
  Code "f"
    [ ins 0 SETUP_FINALLY (VInt 12) (Some 2);
      ins 2 LOAD_GLOBAL (VStr "a") (Some 3);
      ins 4 CALL_FUNCTION (VInt 0) None;
      ins 6 POP_TOP VNone None;
      ins 8 POP_BLOCK VNone None;
      ins 10 LOAD_CONST VNone None;
      ins 12 LOAD_GLOBAL (VStr "b") (Some 5);
      ins 14 CALL_FUNCTION (VInt 0) None;
      ins 16 POP_TOP VNone None;
      ins 18 END_FINALLY VNone None;
      ins 20 LOAD_CONST VNone None;
      ins 22 RETURN_VALUE VNone None ]
    [].

(** [
def f():
  try:
    a()
  except E:
    b()
  finally:
    c()
] *)
Definition try_except_finally_code : code :=
  Code "f"
    [ ins 0 SETUP_FINALLY (VInt 44) (Some 2);
      ins 2 SETUP_EXCEPT (VInt 14) None;
      ins 4 LOAD_GLOBAL (VStr "a") (Some 3);
      ins 6 CALL_FUNCTION (VInt 0) None;
      ins 8 POP_TOP VNone None;
      ins 10 POP_BLOCK VNone None;
      ins 12 JUMP_FORWARD (VInt 40) None;
      ins 14 DUP_TOP VNone (Some 4);
      ins 16 LOAD_GLOBAL (VStr "E") None;
      {| opcode := COMPARE_OP; argval := VStr "exception match";
         argrepr := "exception match"; offset := 18; starts_line := None |};
      ins 20 POP_JUMP_IF_FALSE (VInt 38) None;
      ins 22 POP_TOP VNone None;
      ins 24 POP_TOP VNone None;
      ins 26 POP_TOP VNone None;
      ins 28 LOAD_GLOBAL (VStr "b") (Some 5);
      ins 30 CALL_FUNCTION (VInt 0) None;
      ins 32 POP_TOP VNone None;
      ins 34 POP_EXCEPT VNone None;
      ins 36 JUMP_FORWARD (VInt 40) None;
      ins 38 END_FINALLY VNone None;
      ins 40 POP_BLOCK VNone None;
      ins 42 LOAD_CONST VNone None;
      ins 44 LOAD_GLOBAL (VStr "c") (Some 7);
      ins 46 CALL_FUNCTION (VInt 0) None;
      ins 48 POP_TOP VNone None;
      ins 50 END_FINALLY VNone None;
      ins 52 LOAD_CONST VNone None;
      ins 54 RETURN_VALUE VNone None ]
    [].

(** A BREAK_LOOP inside a try block and outside any loop. *)
Definition break_in_try_code : code :=
  Code "g"
    [ ins 0 SETUP_EXCEPT (VInt 8) (Some 1);
      ins 2 BREAK_LOOP VNone (Some 2);
      ins 4 POP_BLOCK VNone None;
      ins 6 JUMP_FORWARD (VInt 16) None;
      ins 8 POP_TOP VNone (Some 3);
      ins 10 POP_TOP VNone None;
      ins 12 POP_TOP VNone None;
      ins 14 POP_EXCEPT VNone (Some 4);
      ins 16 LOAD_CONST VNone (Some 5);
      ins 18 RETURN_VALUE VNone None ]
    [].

(** A BREAK_LOOP in a code object without any block. *)
Definition break_no_block_code : code :=
  Code "h"
    [ ins 0 LOAD_CONST VNone (Some 1);
      ins 2 POP_TOP VNone None;
      ins 4 BREAK_LOOP VNone (Some 2);
      ins 6 LOAD_CONST VNone (Some 3);
      ins 8 RETURN_VALUE VNone None ]
    [].

(** [
def f():
  return 1
] *)
Definition return_code : code :=
  Code "f"
    [ ins 0 LOAD_CONST (VInt 1) (Some 2);
      ins 2 RETURN_VALUE VNone None ]
    [].

(** The traced edges of one call of [return_code]. *)
Definition return_traced : gset (Z * Z * Z) := {[ (-1, 0, 2); (0, 2, 2) ]}.

(** One file with a sound code object and one that breaks outside a loop. *)
Definition two_units : gmap code (gset (Z * Z * Z)) :=
  <[break_in_try_code := ∅]> {[ return_code := return_traced ]}.

(** One call of [return_code] whose first edge is reported on line 7. *)
Definition return_traced_off_line : gmap code (gset (Z * Z * Z)) :=
  {[ return_code := {[ (-1, 0, 7) ]} ]}.

(** One call of [return_code] whose first edge is reported on line 0. *)
Definition return_traced_line_zero : gmap code (gset (Z * Z * Z)) :=
  {[ return_code := {[ (-1, 0, 0) ]} ]}.

(** [return_code] with 0 as the starts-line of its first instruction. *)
Definition zero_line_code : code :=
  Code "f"
    [ ins 0 LOAD_CONST (VInt 1) (Some 0);
      ins 2 RETURN_VALUE VNone None ]
    [].

(** The end of a finally block and the code after it, as one arc. *)
Definition after_finally_src : inst :=
  enhance_inst (ins 16 POP_TOP VNone None) 16 5 false [].
Definition after_finally_arc : list inst :=
  [ enhance_inst (ins 18 END_FINALLY VNone None) 18 5 false [];
    enhance_inst (ins 20 LOAD_CONST VNone None) 20 5 false [];
    enhance_inst (ins 22 RETURN_VALUE VNone None) 22 5 false [] ].
Definition after_finally_nexts : gmap Z Z := {[ 16 := 18; 18 := 20; 20 := 22 ]}.

(** A LOAD_CONST with two EXTENDED_ARG prefixes. *)
Definition extended_example : list Instruction :=
  prefixed (ins 0 EXTENDED_ARG (VInt 1) (Some 7)) [ins 2 EXTENDED_ARG (VInt 256) None]
           (ins 4 LOAD_CONST (VInt 65536) None).
(** * Proofs *)

(** ** Results *)

Lemma holds_OK {A} (r : result A) (P : A → bool) :
  holds r P = true → ∃ a, r = OK a ∧ P a = true.
Proof. destruct r; cbn; [eauto|done..]. Qed.

Lemma not_out_of_fuel {A} (r : result A) : out_of_fuel r = false → r ≠ OutOfFuel.
Proof. by destruct r. Qed.

(** ** Properties of visit_nodes *)

Lemma set_pop_spec {A} `{Countable A} : pop_spec (set_pop (A:=A)).
Proof.
  split; unfold set_pop.
  - intros s x Hx. apply elem_of_elements.
    destruct (elements s) eqn:E; simplify_eq/=. left.
  - intros s Hs. destruct (elements s) eqn:E; simplify_eq/=.
    by apply elements_empty_inv in E; apply leibniz_equiv.
Qed.

Section visit_pure.
Context {A : Type} `{Countable A}.
Variable pop : gset A → option A.
Hypothesis Hpop : pop_spec pop.
Variable f : A → list A.

(** One run of the loop from a state satisfying the worklist invariant,
    with as much fuel as there are nodes of [U] left to visit. *)
Lemma visit_loop_logged_total (U : gset A) :
  (∀ n m, n ∈ U → m ∈ f n → m ∈ U) →
  ∀ k remaining visited calls,
    remaining ## visited →
    remaining ∪ visited ⊆ U →
    (∀ n m, n ∈ visited → m ∈ f n → m ∈ remaining ∪ visited) →
    (size (U ∖ visited) ≤ k)%nat →
    NoDup calls →
    (∀ n, n ∈ calls ↔ n ∈ visited) →
    ∃ visited' calls',
      visit_loop pop (S k) (logged f) remaining visited calls = OK (visited', calls')
      ∧ NoDup calls' ∧ (∀ n, n ∈ calls' ↔ n ∈ visited')
      ∧ remaining ∪ visited ⊆ visited' ∧ visited' ⊆ U
      ∧ (∀ n m, n ∈ visited' → m ∈ f n → m ∈ visited').
Proof.
  intros HU. destruct Hpop as [HpS HpN].
  induction k as [|k IH]; intros rem vis calls Hdisj Hsub Hcl Hsz Hnd Hcalls.
  - (* every node of U is visited, so nothing remains *)
    assert (U ∖ vis = ∅) as HE by (apply size_empty_inv in Hsz || (apply leibniz_equiv, size_empty_inv; lia); set_solver).
    assert (rem = ∅) as ->.
    { apply leibniz_equiv. intros x. split; [|set_solver]. intros Hx.
      assert (x ∈ U ∖ vis) by set_solver. set_solver. }
    simpl. destruct (pop ∅) as [x|] eqn:Ep.
    + apply HpS in Ep. set_solver.
    + exists vis, calls. split_and!; try done; set_solver.
  - cbn [visit_loop]. destruct (pop rem) as [node|] eqn:Ep.
    + pose proof (HpS _ _ Ep) as Hin.
      assert (node ∉ vis) as Hnv by set_solver.
      rewrite bool_decide_eq_true_2 by done. cbn [assert rbind logged].
      destruct (IH (rem ∖ {[node]} ∪ list_to_set (filter (λ n, n ∉ vis ∪ {[node]}) (f node)))
                   (vis ∪ {[node]}) (calls ++ [node]))
        as (vis' & calls' & Hrun & Hnd' & Hc' & Hsub' & HU' & Hcl').
      * intros x. rewrite elem_of_union, elem_of_list_to_set, list_elem_of_filter. set_solver.
      * intros x. rewrite !elem_of_union, elem_of_list_to_set, list_elem_of_filter.
        intros [[Hx|[_ Hx]]|Hx]; [set_solver| |set_solver].
        apply (HU node); [set_solver|done].
      * intros n m Hn Hm.
        rewrite !elem_of_union, elem_of_list_to_set, list_elem_of_filter.
        destruct (decide (m ∈ vis ∪ {[node]})) as [|Hm']; [set_solver|].
        apply elem_of_union in Hn as [Hn|Hn].
        -- specialize (Hcl n m Hn Hm). set_solver.
        -- apply elem_of_singleton in Hn as ->. left; right. done.
      * assert (node ∈ U) by set_solver.
        assert (size (U ∖ vis) = S (size (U ∖ (vis ∪ {[node]})))) as Hs.
        { assert (U ∖ vis = {[node]} ∪ U ∖ (vis ∪ {[node]})) as ->.
          { apply leibniz_equiv. intros x.
            rewrite elem_of_union, !elem_of_difference, elem_of_union, elem_of_singleton.
            destruct (decide (x = node)); naive_solver. }
          rewrite size_union, size_singleton by set_solver. done. }
        lia.
      * apply NoDup_app. split; [done|]. split; [|apply NoDup_singleton].
        intros x Hx ->%list_elem_of_singleton. apply Hcalls in Hx. done.
      * intros n. rewrite elem_of_app, list_elem_of_singleton, elem_of_union, elem_of_singleton.
        by rewrite Hcalls.
      * exists vis', calls'. split_and!; try done.
        intros x Hx. apply Hsub'. apply elem_of_union in Hx as [Hx|Hx]; [|set_solver].
        destruct (decide (x = node)) as [->|]; set_solver.
    + apply HpN in Ep as ->. exists vis, calls.
      split_and!; try done; try set_solver.
Qed.
End visit_pure.

(** A set that contains the start nodes and is closed under the visitor
    contains every reachable node. *)
Lemma reachable_closed {A} `{Countable A} (f : A → list A) (start : list A) (V : gset A) :
  (∀ s, s ∈ start → s ∈ V) →
  (∀ n m, n ∈ V → m ∈ f n → m ∈ V) →
  ∀ m, reachable f start m → m ∈ V.
Proof.
  intros Hs Hcl m (s & Hin & Hrtc).
  apply Hs in Hin. induction Hrtc as [|x y z Hxy _ IH]; [done|].
  apply IH. by apply (Hcl x).
Qed.

(** C10 (amended): for every start list and every visitor whose set of
    reachable nodes is finite (a set [U]), [visit_nodes] terminates whatever
    element [set.pop()] chooses, its assertion never fails, the visitor is
    called exactly once for each returned node, and the returned set is
    exactly the set of nodes reachable from the start nodes. *)
Theorem visit_nodes_reachable {A} `{Countable A}
    (pop : gset A → option A) (f : A → list A) (start : list A) (U : gset A) :
  pop_spec pop →
  (∀ n, n ∈ U ↔ reachable f start n) →
  ∃ fuel calls,
    visit_nodes pop fuel start (logged f) [] = OK (U, calls)
    ∧ NoDup calls ∧ (∀ n, n ∈ calls ↔ n ∈ U).
Proof.
  intros Hpop HU.
  assert (∀ n m, n ∈ U → m ∈ f n → m ∈ U) as Hcl.
  { intros n m Hn Hm. apply HU. apply HU in Hn as (s & Hs & Hr).
    exists s. split; [done|]. eapply rtc_r; eauto. }
  assert (∀ s, s ∈ start → s ∈ U) as Hst.
  { intros s Hs. apply HU. exists s. split; [done|]. apply rtc_refl. }
  destruct (visit_loop_logged_total pop Hpop f U Hcl (size U) (list_to_set start) ∅ [])
    as (vis & calls & Hrun & Hnd & Hc & Hsub & HsubU & Hclv).
  - set_solver.
  - intros x. rewrite elem_of_union, elem_of_list_to_set. set_solver.
  - set_solver.
  - apply subseteq_size. set_solver.
  - apply NoDup_nil_2.
  - intros n. rewrite elem_of_nil. set_solver.
  - assert (vis = U) as ->.
    { apply leibniz_equiv. intros x. split; [apply HsubU|].
      intros Hx. apply HU in Hx. revert x Hx. apply reachable_closed; [|done].
      intros s Hs. apply Hsub. rewrite elem_of_union, elem_of_list_to_set. by left. }
    exists (S (size U)), calls. done.
Qed.

Lemma visit_nodes_reachable_witness :
  ∃ fuel calls,
    visit_nodes set_pop fuel [1; 2]
      (logged (λ n : Z, if decide (n < 5) then [n + 1; n + 2] else [])) []
    = OK ({[1; 2; 3; 4; 5; 6]}, calls)
    ∧ NoDup calls ∧ (∀ n, n ∈ calls ↔ n ∈ ({[1; 2; 3; 4; 5; 6]} : gset Z)).
Proof.
  apply (visit_nodes_reachable set_pop _ [1; 2] {[1; 2; 3; 4; 5; 6]}).
  - apply set_pop_spec.
  - intros n. split.
    + intros Hn.
      assert (n = 1 ∨ n = 2 ∨ n = 3 ∨ n = 4 ∨ n = 5 ∨ n = 6) as Hc by set_solver.
      assert (∀ a b : Z, a < 5 → b = a + 1 ∨ b = a + 2 →
                b ∈ (if decide (a < 5) then [a + 1; a + 2] else [])) as Hstep.
      { intros a b Ha Hb. rewrite decide_True by done. set_solver. }
      destruct_or! Hc; subst n.
      * exists 1. split; [set_solver|]. apply rtc_refl.
      * exists 2. split; [set_solver|]. apply rtc_refl.
      * exists 1. split; [set_solver|]. eapply rtc_l; [|apply rtc_refl]. apply Hstep; lia.
      * exists 2. split; [set_solver|]. eapply rtc_l; [|apply rtc_refl]. apply Hstep; lia.
      * exists 1. split; [set_solver|].
        eapply rtc_l; [apply (Hstep 1 3); lia|].
        eapply rtc_l; [apply (Hstep 3 5); lia|]. apply rtc_refl.
      * exists 2. split; [set_solver|].
        eapply rtc_l; [apply (Hstep 2 4); lia|].
        eapply rtc_l; [apply (Hstep 4 6); lia|]. apply rtc_refl.
    + revert n. apply reachable_closed; [set_solver|].
      intros a b Ha Hb.
      assert (a = 1 ∨ a = 2 ∨ a = 3 ∨ a = 4 ∨ a = 5 ∨ a = 6) as Hc by set_solver.
      destruct_or! Hc; subst a; simpl in Hb; set_solver.
Defined.

(** With the visitor [n ↦ [n + 1]] the worklist never empties. *)
Lemma visit_loop_succ_diverges (fuel : nat) :
  ∀ (k : nat) (visited : gset nat) (calls : list nat),
    (∀ n, n ∈ visited → (n < k)%nat) →
    visit_loop set_pop fuel (logged (λ n, [S n])) {[k]} visited calls = OutOfFuel.
Proof.
  induction fuel as [|fuel IH]; intros k vis calls Hlt; [done|].
  cbn [visit_loop]. unfold set_pop at 1. rewrite elements_singleton. cbn [head].
  rewrite bool_decide_eq_true_2; cycle 1.
  { intros Hk. apply Hlt in Hk. lia. }
  cbn [assert rbind logged].
  assert (({[k]} : gset nat) ∖ {[k]} ∪ list_to_set (filter (λ n, n ∉ vis ∪ {[k]}) [S k])
          = {[S k]}) as ->.
  { rewrite filter_cons_True.
    - rewrite filter_nil. set_solver.
    - intros [Hk|Hk]%elem_of_union; [apply Hlt in Hk; lia|set_solver by lia]. }
  apply IH. intros n [Hn|Hn]%elem_of_union; [apply Hlt in Hn; lia|].
  apply elem_of_singleton in Hn. lia.
Qed.

(** C10 (as stated) fails: a visitor that keeps discovering new nodes makes
    [visit_nodes] run forever on the start set {0}. *)
Lemma visit_nodes_not_total :
  ¬ ∃ fuel r, visit_nodes set_pop fuel [0%nat] (logged (λ n, [S n])) [] = OK r.
Proof.
  intros (fuel & r & Hr). unfold visit_nodes in Hr.
  assert ((list_to_set [0%nat] : gset nat) = {[0%nat]}) as HE by set_solver.
  rewrite HE in Hr. rewrite visit_loop_succ_diverges in Hr; [done|set_solver].
Qed.

(** ** The reconciler *)

Lemma set_at_lookup {K V} `{Countable K} `{Countable V} (d : gmap K (gset V)) k s :
  d !! k = Some s → set_at d k = s.
Proof. unfold set_at. by intros ->. Qed.

Lemma set_at_None {K V} `{Countable K} `{Countable V} (d : gmap K (gset V)) k :
  d !! k = None → set_at d k = ∅.
Proof. unfold set_at. by intros ->. Qed.

Lemma set_at_add {K V} `{Countable K} `{Countable V} (d : gmap K (gset V)) k v k' :
  set_at (set_add d k v) k' = if decide (k = k') then set_at d k ∪ {[v]} else set_at d k'.
Proof.
  unfold set_add, set_at at 1. rewrite lookup_insert.
  destruct (decide (k = k')); done.
Qed.

Lemma set_at_update {K V} `{Countable K} `{Countable V} (d : gmap K (gset V)) k vs k' :
  set_at (set_update d k vs) k' = if decide (k = k') then set_at d k ∪ vs else set_at d k'.
Proof.
  unfold set_update, set_at at 1. rewrite lookup_insert.
  destruct (decide (k = k')); done.
Qed.

Lemma raise_reqs_fold (l : list ((Z * Z) * gset Z)) (acc : gmap Z ((Z * Z) * gset Z)) d :
  NoDup l.*1 →
  foldl (λ acc '(e, lines),
           if bool_decide (e.1 = OFF_RAISED) then <[e.2 := (e, lines)]> acc else acc)
        acc l !! d
  = match list_find (λ x, x.1 = (OFF_RAISED, d)) l with
    | Some (_, x) => Some x
    | None => acc !! d
    end.
Proof.
  revert acc. induction l as [|[[s t] lines] l IH]; intros acc Hnd; [done|].
  apply NoDup_cons in Hnd as [Hnin Hnd]. cbn [foldl list_find fst]. rewrite IH by done.
  destruct (decide ((s, t) = (OFF_RAISED, d))) as [Heq|Hne].
  - simplify_eq. cbn.
    destruct (list_find _ l) as [[j [e' l']]|] eqn:Hf.
    + apply list_find_Some in Hf as (Hj & He & _). cbn in He. subst e'.
      exfalso. apply Hnin. apply list_elem_of_fmap. exists ((OFF_RAISED, d), l').
      split; [done|]. by eapply list_elem_of_lookup_2.
    + cbn. rewrite bool_decide_eq_true_2 by done. by rewrite lookup_insert_eq.
  - destruct (list_find _ l) as [[j x]|] eqn:Hf; cbn; [done|].
    case_bool_decide as Hs; [|done]. cbn in Hs. subst s.
    rewrite lookup_insert_ne; [done|]. cbn. congruence.
Qed.

(** [raise_reqs] holds, for each destination, the required edge
    [(RAISED, dst)] with its inferred lines. *)
Lemma raise_reqs_of_lookup (req : gmap (Z * Z) (gset Z)) d :
  raise_reqs_of req !! d = (λ l, ((OFF_RAISED, d), l)) <$> req !! (OFF_RAISED, d).
Proof.
  unfold raise_reqs_of. rewrite raise_reqs_fold by apply NoDup_fst_map_to_list.
  rewrite lookup_empty.
  destruct (list_find _ (map_to_list req)) as [[j [e l]]|] eqn:Hf.
  - apply list_find_Some in Hf as (Hj & He & _). cbn in He. subst e.
    apply list_elem_of_lookup_2, elem_of_map_to_list in Hj. by rewrite Hj.
  - destruct (req !! (OFF_RAISED, d)) as [l|] eqn:Hl; [|done].
    apply elem_of_map_to_list in Hl.
    eapply list_find_None, Forall_forall in Hf; [|exact Hl]. by destruct Hf.
Qed.




(** ** The TEF heuristic *)

(** C5: [is_SF_exc_opt], called on the instruction that follows a
    SETUP_FINALLY, returns True exactly when that instruction is a
    SETUP_EXCEPT whose handler starts with DUP_TOP; it returns False without
    a warning when the handler starts with POP_TOP, False with one warning
    for any other handler opcode, and False without a warning when the
    following instruction is not a SETUP_EXCEPT. *)
Theorem is_SF_exc_opt_cases (nxt : inst) (insts : gmap Z inst) (path code_name : string) :
  (∀ warnings,
     is_SF_exc_opt_fn nxt insts path code_name = OK (true, warnings)
     ↔ warnings = []
       ∧ opcode (raw nxt) = SETUP_EXCEPT
       ∧ ∃ h, lookup_py insts (argval (raw nxt)) = OK h ∧ opcode (raw h) = DUP_TOP)
  ∧ (∀ h, opcode (raw nxt) = SETUP_EXCEPT →
       lookup_py insts (argval (raw nxt)) = OK h → opcode (raw h) = POP_TOP →
       is_SF_exc_opt_fn nxt insts path code_name = OK (false, []))
  ∧ (∀ h, opcode (raw nxt) = SETUP_EXCEPT →
       lookup_py insts (argval (raw nxt)) = OK h →
       opcode (raw h) ≠ DUP_TOP → opcode (raw h) ≠ POP_TOP →
       is_SF_exc_opt_fn nxt insts path code_name
       = OK (false, [W_SF_heuristic path code_name h]))
  ∧ (opcode (raw nxt) ≠ SETUP_EXCEPT →
       is_SF_exc_opt_fn nxt insts path code_name = OK (false, [])).
Proof.
  unfold is_SF_exc_opt_fn. split_and!.
  - intros warnings. case_bool_decide as Hop.
    + destruct (lookup_py insts (argval (raw nxt))) as [h| |] eqn:Hh; cbn.
      * repeat case_bool_decide; split; try naive_solver.
      * split; [done|]. by intros (_ & _ & h & ? & _).
      * split; [done|]. by intros (_ & _ & h & ? & _).
    + split; [done|]. naive_solver.
  - intros h Hop Hh Hp. rewrite bool_decide_eq_true_2, Hh by done. cbn.
    rewrite bool_decide_eq_false_2 by (rewrite Hp; done).
    by rewrite bool_decide_eq_true_2.
  - intros h Hop Hh Hd Hp. rewrite bool_decide_eq_true_2, Hh by done. cbn.
    by rewrite !bool_decide_eq_false_2.
  - intros Hop. by rewrite bool_decide_eq_false_2.
Qed.

(** ** BREAK_LOOP without a loop block *)

(** What the second scan does on a BREAK_LOOP: the test of the structural
    error reads [dst], which step 1 left at the argument of the last setup
    instruction of the whole code object, and the message reads the [line]
    and [off] of the last instruction of step 1. *)
Lemma link_step_BREAK_LOOP (path name : string) (sc : scan) (l : links) (i : inst) :
  opcode (raw i) = BREAK_LOOP →
  link_step path name sc l i =
    let d := if bool_decide (off i = 0) then set_add (dsts l) OFF_BEGIN (off i) else dsts l in
    match v_dst sc with
    | None => Raise UnboundLocalError
    | Some dst =>
      if truthy dst then
        let* t := lookup_py (store l) (find_block_dst_off i [SETUP_LOOP]) in
        OK {| dsts := set_add d (off i) (off t); store := store l; stderr := stderr l |}
      else
        let* line := from_option (v_line sc) UnboundLocalError in
        let* off := from_option (v_off sc) UnboundLocalError in
        Raise (StructuralError path line off)
    end.
Proof.
  intros Hop. unfold link_step. rewrite Hop. cbn.
  destruct (v_dst sc) as [dst|]; cbn; [|done].
  destruct (truthy dst); cbn; done.
Qed.

(** C6 (the code misses the claim): a BREAK_LOOP whose block stack holds no
    SETUP_LOOP block does not raise the structural error.  With a setup
    instruction elsewhere in the code object the lookup [insts[None]] raises
    KeyError; without any, reading [dst] raises UnboundLocalError. *)
Theorem break_loop_without_loop_block :
  (∀ fuel, crawl_code_insts fuel "m.py" break_in_try_code = Raise KeyError)
  ∧ (∀ fuel, crawl_code_insts fuel "m.py" break_no_block_code = Raise UnboundLocalError)
  ∧ (∀ path name sc l i dst,
       opcode (raw i) = BREAK_LOOP →
       find_block_dst_off i [SETUP_LOOP] = VNone →
       v_dst sc = Some dst → truthy dst = true →
       link_step path name sc l i = Raise KeyError).
Proof.
  split_and!.
  - intros fuel. reflexivity.
  - intros fuel. reflexivity.
  - intros path name sc l i dst Hop Hnone Hdst Ht.
    rewrite link_step_BREAK_LOOP by done. cbn zeta. by rewrite Hdst, Ht, Hnone.
Qed.

(** ** Invariants of the worklist loop with a stateful visitor *)

Section visit_inv.
Context {A : Type} `{Countable A} {S : Type}.
Variable pop : gset A → option A.
Hypothesis Hpop : pop_spec pop.
Variable visitor : A → S → result (list A * S).

Variable I : gset A → gset A → S → Prop.
Hypothesis I_step : ∀ remaining visited st node discovered st',
  I remaining visited st → node ∈ remaining → node ∉ visited →
  visitor node st = OK (discovered, st') →
  I (remaining ∖ {[node]} ∪ list_to_set (filter (λ n, n ∉ visited ∪ {[node]}) discovered))
    (visited ∪ {[node]}) st'.

Lemma visit_loop_inv fuel : ∀ remaining visited st visited' st',
  I remaining visited st → remaining ## visited →
  visit_loop pop fuel visitor remaining visited st = OK (visited', st') →
  I ∅ visited' st'.
Proof.
  destruct Hpop as [HpS HpN].
  induction fuel as [|fuel IH]; intros rem vis st vis' st' HI Hd Hrun; [done|].
  cbn [visit_loop] in Hrun. destruct (pop rem) as [node|] eqn:Ep.
  - pose proof (HpS _ _ Ep) as Hin. assert (node ∉ vis) as Hnv by set_solver.
    rewrite bool_decide_eq_true_2 in Hrun by done. cbn [assert rbind] in Hrun.
    destruct (visitor node st) as [[disc st1]| |] eqn:Hv; cbn [rbind] in Hrun; try done.
    eapply IH; [| |exact Hrun].
    + eapply I_step; eauto.
    + intros x. rewrite elem_of_union, elem_of_list_to_set, list_elem_of_filter. set_solver.
  - apply HpN in Ep as ->. by simplify_eq.
Qed.

Variable P : error → Prop.
Hypothesis P_raise : ∀ remaining visited st node e,
  I remaining visited st → node ∈ remaining → node ∉ visited →
  visitor node st = Raise e → P e.

End visit_inv.

(** Every start node is in the set that [visit_nodes] returns. *)
Lemma visit_nodes_start {A} `{Countable A} {S} (visitor : A → S → result (list A * S))
    fuel (start : list A) st visited st' :
  visit_nodes set_pop fuel start visitor st = OK (visited, st') →
  ∀ n, n ∈ start → n ∈ visited.
Proof.
  intros Hrun.
  pose proof (visit_loop_inv set_pop set_pop_spec visitor
    (λ rem vis _, ∀ n, n ∈ start → n ∈ rem ∪ vis)) as Hinv.
  assert (∀ n, n ∈ start → n ∈ ∅ ∪ visited) as Hfin.
  { eapply Hinv; [| | |exact Hrun].
    - clear. intros rem vis st node disc st' HI Hin Hnv _ n Hn.
      specialize (HI n Hn).
      destruct (decide (n = node)); set_solver.
    - intros m Hm. rewrite elem_of_union, elem_of_list_to_set. by left.
    - set_solver. }
  intros n Hn. specialize (Hfin n Hn). set_solver.
Qed.

(** With a visitor that never raises, the returned set holds every node
    reachable from the start nodes. *)
Lemma visit_nodes_closed {A} `{Countable A} {S} (f : A → list A) (g : A → S → S)
    fuel (start : list A) st visited st' :
  visit_nodes set_pop fuel start (λ n s, OK (f n, g n s)) st = OK (visited, st') →
  ∀ m, reachable f start m → m ∈ visited.
Proof.
  intros Hrun. apply reachable_closed.
  - by eapply visit_nodes_start.
  - pose proof (visit_loop_inv set_pop set_pop_spec (λ n s, OK (f n, g n s))
      (λ rem vis _, ∀ n m, n ∈ vis → m ∈ f n → m ∈ rem ∪ vis)) as Hinv.
    assert (∀ n m, n ∈ visited → m ∈ f n → m ∈ ∅ ∪ visited) as Hfin.
    { eapply Hinv; [| | |exact Hrun].
      - clear. intros rem vis st node disc st' HI Hin Hnv [= <- _] n m Hn Hm.
        rewrite !elem_of_union, elem_of_list_to_set, list_elem_of_filter.
        destruct (decide (m ∈ vis ∪ {[node]})) as [|Hm']; [set_solver|].
        apply elem_of_union in Hn as [Hn|Hn].
        + specialize (HI n m Hn Hm). set_solver.
        + apply elem_of_singleton in Hn as ->. left; right. done.
      - set_solver.
      - set_solver. }
    intros n m Hn Hm. specialize (Hfin n m Hn Hm). set_solver.
Qed.

(** ** Errors of one code unit in calculate_coverage *)

Lemma foldM_OK_elem {A S} (body : S → A → result S) (l : list A) :
  ∀ s s', foldM body s l = OK s' → ∀ a, a ∈ l → ∃ s0 s1, body s0 a = OK s1.
Proof.
  induction l as [|x l IH]; intros s s' Hrun a Ha; [by apply elem_of_nil in Ha|].
  cbn in Hrun. destruct (body s x) as [s1| |] eqn:Hb; cbn in Hrun; try done.
  apply elem_of_cons in Ha as [->|Ha]; eauto.
Qed.

Lemma cover_code_OK (fuel : nat) (path : string) (code_edges : gmap code (gset (Z * Z * Z)))
    st (c : code) st' :
  cover_code fuel path code_edges st c = OK st' →
  ∃ x, crawl_code_insts fuel path c = OK x.
Proof.
  unfold cover_code. destruct st as [cov err].
  destruct (crawl_code_insts fuel path c) as [x| |]; cbn; [eauto|done..].
Qed.

(** When [calculate_coverage] returns, the analysis of every code object
    it discovered has returned. *)
Lemma calculate_coverage_OK_crawl (fuel : nat) (path : string)
    (code_edges : gmap code (gset (Z * Z * Z))) r (c : code) :
  calculate_coverage fuel path code_edges = OK r →
  reachable sub_codes (map fst (map_to_list code_edges)) c →
  ∃ x, crawl_code_insts fuel path c = OK x.
Proof.
  unfold calculate_coverage. intros Hrun Hc.
  destruct (visit_nodes _ _ _ _ _) as [[all_codes []]| |] eqn:Hv; cbn in Hrun; try done.
  eapply (visit_nodes_closed sub_codes (λ _ _, tt)) in Hv; [|exact Hc].
  eapply foldM_OK_elem in Hrun as (s0 & s1 & Hb); [|by apply elem_of_elements].
  by eapply cover_code_OK.
Qed.

(** C7 (amended): no error of [crawl_code_insts] is caught.  If the
    analysis of one discovered code object raises, [calculate_coverage]
    itself raises (once it has the fuel to finish) and returns no coverage
    map, for that code object or any other. *)
Theorem calculate_coverage_propagates (fuel : nat) (path : string)
    (code_edges : gmap code (gset (Z * Z * Z))) (c : code) (e : error) :
  reachable sub_codes (map fst (map_to_list code_edges)) c →
  crawl_code_insts fuel path c = Raise e →
  calculate_coverage fuel path code_edges ≠ OutOfFuel →
  ∃ e', calculate_coverage fuel path code_edges = Raise e'.
Proof.
  intros Hc He Hfuel.
  destruct (calculate_coverage fuel path code_edges) as [r|e'|] eqn:Hrun; [|eauto|done].
  eapply calculate_coverage_OK_crawl in Hrun as [x Hx]; [|exact Hc]. congruence.
Qed.

Lemma calculate_coverage_propagates_witness :
  ∃ e', calculate_coverage 10 "m.py" two_units = Raise e'.
Proof.
  apply (calculate_coverage_propagates 10 "m.py" two_units break_in_try_code KeyError).
  - exists break_in_try_code. split; [|apply rtc_refl].
    apply list_elem_of_fmap. exists (break_in_try_code, ∅). split; [done|].
    apply elem_of_map_to_list. unfold two_units. apply lookup_insert_eq.
  - reflexivity.
  - apply not_out_of_fuel. vm_compute. reflexivity.
Defined.

(** C7 (as stated) fails: the sound code object alone has a coverage map,
    but next to a code object whose analysis raises there is no coverage
    map at all, whatever the fuel. *)
Lemma calculate_coverage_not_isolated :
  (∃ r, calculate_coverage 10 "m.py" {[ return_code := return_traced ]} = OK r)
  ∧ ¬ (∃ fuel r, calculate_coverage fuel "m.py" two_units = OK r).
Proof.
  split.
  - assert (holds (calculate_coverage 10 "m.py" {[ return_code := return_traced ]})
              (λ _, true) = true) as Hr by (vm_compute; reflexivity).
    apply holds_OK in Hr as (r & Hr & _). eauto.
  - intros (fuel & r & Hrun).
    eapply (calculate_coverage_OK_crawl _ _ _ _ break_in_try_code) in Hrun as [x Hx].
    + destruct break_loop_without_loop_block as (Hk & _). rewrite Hk in Hx. done.
    + exists break_in_try_code. split; [|apply rtc_refl].
      apply list_elem_of_fmap. exists (break_in_try_code, ∅). split; [done|].
      apply elem_of_map_to_list. unfold two_units. apply lookup_insert_eq.
Qed.

(** ** coalesce *)

(** A loop over the items of a dict whose body only rewrites the entry of
    the item's own key. *)
Lemma foldl_keyed_list {K V W} `{Countable K} (f : gmap K W → K * V → gmap K W)
    (g : K → V → option W → option W) :
  (∀ acc k v k', f acc (k, v) !! k' = if decide (k = k') then g k v (acc !! k) else acc !! k') →
  ∀ (l : list (K * V)) acc k,
    NoDup l.*1 →
    foldl f acc l !! k
    = match list_find (λ x, x.1 = k) l with
      | Some (_, x) => g k x.2 (acc !! k)
      | None => acc !! k
      end.
Proof.
  intros Hf l. induction l as [|[k0 v0] l IH]; intros acc k Hnd; [done|].
  apply NoDup_cons in Hnd as [Hnin Hnd]. cbn [foldl list_find fst snd].
  rewrite IH by done. rewrite !Hf.
  destruct (decide (k0 = k)) as [->|Hne]; cbn.
  - destruct (list_find _ l) as [[j [k1 v1]]|] eqn:Hfind; cbn; [|done].
    apply list_find_Some in Hfind as (Hj & Hk & _). cbn in Hk. subst k1.
    exfalso. apply Hnin. apply list_elem_of_fmap. exists (k, v1).
    split; [done|]. by eapply list_elem_of_lookup_2.
  - by destruct (list_find _ l) as [[j [k1 v1]]|].
Qed.

Lemma foldl_keyed {K V W} `{Countable K} (f : gmap K W → K * V → gmap K W)
    (g : K → V → option W → option W) :
  (∀ acc k v k', f acc (k, v) !! k' = if decide (k = k') then g k v (acc !! k) else acc !! k') →
  ∀ (m : gmap K V) acc k,
    foldl f acc (map_to_list m) !! k
    = match m !! k with
      | Some v => g k v (acc !! k)
      | None => acc !! k
      end.
Proof.
  intros Hf m acc k.
  rewrite (foldl_keyed_list f g Hf) by apply NoDup_fst_map_to_list.
  destruct (list_find _ (map_to_list m)) as [[j [k1 v1]]|] eqn:Hfind.
  - apply list_find_Some in Hfind as (Hj & Hk & _). cbn in Hk. subst k1.
    apply list_elem_of_lookup_2, elem_of_map_to_list in Hj. by rewrite Hj.
  - destruct (m !! k) as [v|] eqn:Hv; [|done].
    apply elem_of_map_to_list in Hv.
    eapply list_find_None, Forall_forall in Hfind; [|exact Hv]. by destruct Hfind.
Qed.

Lemma merge_targets_lookup (arg_targets : gset string) (tp : gmap string (option string))
    (tps : gmap string (gset string)) (t : string) :
  foldl (merge_target arg_targets) tps (map_to_list tp) !! t
  = match tp !! t with
    | Some p => if target_kept arg_targets t then Some (set_at tps t ∪ path_set p)
                else tps !! t
    | None => tps !! t
    end.
Proof.
  rewrite (foldl_keyed (merge_target arg_targets)
    (λ k p o, if target_kept arg_targets k then Some (default ∅ o ∪ path_set p) else o)).
  { by destruct (tp !! t). }
  clear. intros acc k p k'. unfold merge_target, target_kept.
  destruct (negb (bool_decide (arg_targets = ∅)) && bool_decide (k ∉ arg_targets)); cbn.
  { by destruct (decide (k = k')) as [->|]. }
  destruct p as [p|]; cbn; rewrite lookup_insert; destruct (decide (k = k')); try done.
  unfold set_at. f_equal. set_solver.
Qed.

Lemma merge_codes_lookup (m code_edges : gmap code (gset (Z * Z * Z))) (c : code) :
  merge_codes m code_edges !! c
  = match code_edges !! c with
    | Some e => Some (default ∅ (m !! c) ∪ e)
    | None => m !! c
    end.
Proof.
  unfold merge_codes.
  rewrite (foldl_keyed (λ (m : gmap code (gset (Z * Z * Z))) '(c, edges),
                          <[c := default ∅ (m !! c) ∪ edges]> m)
                       (λ _ e o, Some (default ∅ o ∪ e))).
  { done. }
  clear. intros acc k v k'. rewrite lookup_insert. by destruct (decide (k = k')).
Qed.

Lemma merge_edges_fold (path : string) (l : list (code * gset (Z * Z * Z)))
    (pce : gmap string (gmap code (gset (Z * Z * Z)))) :
  l ≠ [] →
  foldl (merge_edges path) pce l
  = <[path := foldl (λ m '(c, edges), <[c := default ∅ (m !! c) ∪ edges]> m)
                    (default ∅ (pce !! path)) l]> pce.
Proof.
  revert pce. induction l as [|[c e] l IH]; intros pce Hne; [done|].
  cbn [foldl]. destruct l as [|x l].
  - cbn. done.
  - rewrite IH by done. unfold merge_edges. rewrite lookup_insert_eq. cbn [default].
    by rewrite insert_insert_eq.
Qed.

Lemma merge_paths_lookup (data : gmap string (gmap code (gset (Z * Z * Z))))
    (pce : gmap string (gmap code (gset (Z * Z * Z)))) (path : string) :
  foldl (λ pce '(path, code_edges),
           foldl (merge_edges path) pce (map_to_list code_edges))
        pce (map_to_list data) !! path
  = match data !! path with
    | Some ce => if decide (ce = ∅) then pce !! path
                 else Some (merge_codes (default ∅ (pce !! path)) ce)
    | None => pce !! path
    end.
Proof.
  rewrite (foldl_keyed
    (λ (pce : gmap string (gmap code (gset (Z * Z * Z)))) '(path, code_edges),
       foldl (merge_edges path) pce (map_to_list code_edges))
    (λ _ ce o, if decide (ce = ∅) then o else Some (merge_codes (default ∅ o) ce))).
  { done. }
  clear. intros acc k ce k'.
  destruct (decide (ce = ∅)) as [->|Hne].
  - rewrite map_to_list_empty. cbn. by destruct (decide (k = k')) as [->|].
  - rewrite merge_edges_fold by (by intros ?%map_to_list_empty_iff).
    rewrite lookup_insert. by destruct (decide (k = k')).
Qed.

Lemma coalesce_step_targets (arg_targets : gset string) (st : merged) (data : snapshot) (t : string) :
  (coalesce_step arg_targets st data).1 !! t
  = match target_paths data !! t with
    | Some p => if target_kept arg_targets t then Some (set_at st.1 t ∪ path_set p)
                else st.1 !! t
    | None => st.1 !! t
    end.
Proof. destruct st as [tps pce]. cbn. apply merge_targets_lookup. Qed.

Lemma coalesce_step_paths (arg_targets : gset string) (st : merged) (data : snapshot) (path : string) :
  (coalesce_step arg_targets st data).2 !! path
  = match path_code_edges data !! path with
    | Some ce => if decide (ce = ∅) then st.2 !! path
                 else Some (merge_codes (default ∅ (st.2 !! path)) ce)
    | None => st.2 !! path
    end.
Proof. destruct st as [tps pce]. cbn. apply merge_paths_lookup. Qed.

Lemma merged_eq (a b : merged) :
  (∀ t, a.1 !! t = b.1 !! t) → (∀ p, a.2 !! p = b.2 !! p) → a = b.
Proof.
  destruct a as [a1 a2], b as [b1 b2]. cbn. intros H1 H2.
  f_equal; by apply map_eq.
Qed.

Lemma merge_codes_comm (m a b : gmap code (gset (Z * Z * Z))) :
  merge_codes (merge_codes m a) b = merge_codes (merge_codes m b) a.
Proof.
  apply map_eq. intros c. rewrite !merge_codes_lookup.
  destruct (a !! c), (b !! c); cbn; try done. f_equal. set_solver.
Qed.

Lemma merge_codes_idemp (m a : gmap code (gset (Z * Z * Z))) :
  merge_codes (merge_codes m a) a = merge_codes m a.
Proof.
  apply map_eq. intros c. rewrite !merge_codes_lookup.
  destruct (a !! c); cbn; try done. f_equal. set_solver.
Qed.

(** Two snapshots can be merged in either order. *)
Lemma coalesce_step_comm (arg_targets : gset string) (st : merged) (a b : snapshot) :
  coalesce_step arg_targets (coalesce_step arg_targets st a) b
  = coalesce_step arg_targets (coalesce_step arg_targets st b) a.
Proof.
  apply merged_eq.
  - intros t. rewrite !coalesce_step_targets. unfold set_at.
    rewrite !coalesce_step_targets.
    destruct (target_paths a !! t), (target_paths b !! t),
      (target_kept arg_targets t); cbn; try done.
    f_equal. unfold set_at. set_solver.
  - intros p. rewrite !coalesce_step_paths.
    destruct (path_code_edges a !! p) as [ca|], (path_code_edges b !! p) as [cb|];
      try done.
    destruct (decide (ca = ∅)), (decide (cb = ∅)); cbn; try done.
    f_equal. apply merge_codes_comm.
Qed.

(** Merging a snapshot a second time changes nothing. *)
Lemma coalesce_step_idemp (arg_targets : gset string) (st : merged) (a : snapshot) :
  coalesce_step arg_targets (coalesce_step arg_targets st a) a
  = coalesce_step arg_targets st a.
Proof.
  apply merged_eq.
  - intros t. rewrite !coalesce_step_targets. unfold set_at.
    rewrite !coalesce_step_targets.
    destruct (target_paths a !! t), (target_kept arg_targets t); cbn; try done.
    f_equal. unfold set_at. set_solver.
  - intros p. rewrite !coalesce_step_paths.
    destruct (path_code_edges a !! p) as [ca|]; try done.
    destruct (decide (ca = ∅)); cbn; try done.
    f_equal. apply merge_codes_idemp.
Qed.

Section fold_set.
Context {A B : Type} (f : B → A → B).
Hypothesis f_comm : ∀ b x y, f (f b x) y = f (f b y) x.
Hypothesis f_idemp : ∀ b x, f (f b x) x = f b x.

Lemma foldl_comm_perm (l1 l2 : list A) :
  l1 ≡ₚ l2 → ∀ b, foldl f b l1 = foldl f b l2.
Proof.
  induction 1 as [|x l1 l2 _ IH|x y l|l1 l2 l3 _ IH1 _ IH2]; intros b; cbn.
  - done.
  - apply IH.
  - by rewrite f_comm.
  - by rewrite IH1.
Qed.

Lemma foldl_comm_head (l : list A) : ∀ b x, foldl f (f b x) l = f (foldl f b l) x.
Proof.
  induction l as [|y l IH]; intros b x; cbn; [done|].
  by rewrite f_comm, IH.
Qed.

Lemma foldl_idemp_elem (l : list A) : ∀ b x, x ∈ l → foldl f (f b x) l = foldl f b l.
Proof.
  induction l as [|y l IH]; intros b x Hx; [by apply elem_of_nil in Hx|].
  cbn. apply elem_of_cons in Hx as [->|Hx].
  - by rewrite f_idemp.
  - rewrite f_comm. by apply IH.
Qed.

Lemma foldl_remove_dups `{EqDecision A} (l : list A) :
  ∀ b, foldl f b (remove_dups l) = foldl f b l.
Proof.
  induction l as [|x l IH]; intros b; cbn; [done|].
  destruct (decide_rel elem_of x l) as [Hin|Hnin].
  - rewrite IH. symmetry. by apply foldl_idemp_elem.
  - cbn. apply IH.
Qed.

(** A loop whose body commutes and is idempotent depends only on the set of
    items it is run over. *)
Lemma foldl_same_elements `{EqDecision A} (l1 l2 : list A) b :
  (∀ x, x ∈ l1 ↔ x ∈ l2) → foldl f b l1 = foldl f b l2.
Proof.
  intros Hel. rewrite <- (foldl_remove_dups l1), <- (foldl_remove_dups l2).
  apply foldl_comm_perm. apply NoDup_Permutation; [apply NoDup_remove_dups..|].
  intros x. by rewrite !elem_of_remove_dups.
Qed.
End fold_set.

Lemma union_sets_lookup {K V} `{Countable K} `{Countable V} (a b : gmap K (gset V)) k :
  union_with (λ x y, Some (x ∪ y)) a b !! k
  = match a !! k, b !! k with
    | Some x, Some y => Some (x ∪ y)
    | Some x, None => Some x
    | None, o => o
    end.
Proof. rewrite lookup_union_with. by destruct (a !! k), (b !! k). Qed.

Lemma merged_join_targets (a b : merged) (t : string) :
  (merged_join a b).1 !! t
  = match a.1 !! t, b.1 !! t with
    | Some x, Some y => Some (x ∪ y)
    | Some x, None => Some x
    | None, o => o
    end.
Proof. apply union_sets_lookup. Qed.

Lemma merged_join_paths (a b : merged) (p : string) :
  (merged_join a b).2 !! p
  = match a.2 !! p, b.2 !! p with
    | Some x, Some y => Some (union_with (λ x y, Some (x ∪ y)) x y)
    | Some x, None => Some x
    | None, o => o
    end.
Proof. cbn. rewrite lookup_union_with. by destruct (a.2 !! p), (b.2 !! p). Qed.

Lemma merged_join_comm (a b : merged) : merged_join a b = merged_join b a.
Proof.
  apply merged_eq.
  - intros t. rewrite !merged_join_targets.
    destruct (a.1 !! t), (b.1 !! t); try done. f_equal. set_solver.
  - intros p. rewrite !merged_join_paths.
    destruct (a.2 !! p) as [x|], (b.2 !! p) as [y|]; try done. f_equal.
    apply map_eq. intros c. rewrite !union_sets_lookup.
    destruct (x !! c), (y !! c); try done. f_equal. set_solver.
Qed.

Lemma merged_join_assoc (a b c : merged) :
  merged_join (merged_join a b) c = merged_join a (merged_join b c).
Proof.
  apply merged_eq.
  - intros t. rewrite !merged_join_targets.
    destruct (a.1 !! t), (b.1 !! t), (c.1 !! t); try done. f_equal. set_solver.
  - intros p. rewrite !merged_join_paths.
    destruct (a.2 !! p) as [x|], (b.2 !! p) as [y|], (c.2 !! p) as [z|]; try done.
    f_equal. apply map_eq. intros k. rewrite !union_sets_lookup.
    destruct (x !! k), (y !! k), (z !! k); try done. f_equal. set_solver.
Qed.

(** Merging a snapshot into the join of two accumulators is merging it
    into the second one. *)
Lemma coalesce_step_join (arg_targets : gset string) (a b : merged) (s : snapshot) :
  coalesce_step arg_targets (merged_join a b) s
  = merged_join a (coalesce_step arg_targets b s).
Proof.
  apply merged_eq.
  - intros t. rewrite coalesce_step_targets, !merged_join_targets, coalesce_step_targets.
    unfold set_at. rewrite merged_join_targets.
    destruct (target_paths s !! t), (target_kept arg_targets t), (a.1 !! t), (b.1 !! t);
      cbn; try done; f_equal; set_solver.
  - intros p. rewrite coalesce_step_paths, !merged_join_paths, coalesce_step_paths.
    destruct (path_code_edges s !! p) as [ce|]; [|done].
    destruct (decide (ce = ∅)); [done|].
    destruct (a.2 !! p) as [x|], (b.2 !! p) as [y|]; cbn; try done; f_equal;
      apply map_eq; intros k;
      rewrite ?union_sets_lookup, ?merge_codes_lookup, ?union_sets_lookup, ?lookup_empty;
      destruct (ce !! k), (x !! k); try destruct (y !! k); cbn; try done;
      f_equal; set_solver.
Qed.

Lemma coalesce_targets_present (arg_targets : gset string) (l : list snapshot) (t : string) :
  t ∈ arg_targets → is_Some ((coalesce l arg_targets).1 !! t).
Proof.
  intros Ht. unfold coalesce.
  induction l as [|s l IH] using rev_ind.
  - cbn. exists ∅. apply lookup_set_to_map; [|by exists t].
    by intros y y' _ _ [= ->].
  - rewrite foldl_snoc, coalesce_step_targets.
    destruct (target_paths s !! t), (target_kept arg_targets t); eauto.
Qed.

Lemma merged_join_init (arg_targets : gset string) (l : list snapshot) :
  merged_join (coalesce l arg_targets) (coalesce [] arg_targets) = coalesce l arg_targets.
Proof.
  apply merged_eq.
  - intros t. rewrite merged_join_targets.
    destruct ((coalesce [] arg_targets).1 !! t) as [y|] eqn:Hy.
    + cbn in Hy. apply lookup_set_to_map in Hy as (t' & Ht' & Heq);
        [|by intros ? ? _ _ [= ->]].
      injection Heq as Heq1 Heq2. subst t' y.
      destruct (coalesce_targets_present arg_targets l t Ht') as [x ->].
      f_equal. set_solver.
    + by destruct ((coalesce l arg_targets).1 !! t).
  - intros p. rewrite merged_join_paths. cbn. rewrite lookup_empty.
    by destruct (_ !! p).
Qed.

Lemma coalesce_app (arg_targets : gset string) (l1 l2 : list snapshot) :
  coalesce (l1 ++ l2) arg_targets
  = merged_join (coalesce l1 arg_targets) (coalesce l2 arg_targets).
Proof.
  induction l2 as [|s l2 IH] using rev_ind.
  - rewrite app_nil_r. symmetry. apply merged_join_init.
  - unfold coalesce in *. rewrite app_assoc, !foldl_snoc, IH.
    apply coalesce_step_join.
Qed.

(** C9: the merge of snapshots performed by [coalesce] is commutative (the
    accumulated target-path sets and path-code-edge sets do not depend on the
    order of the snapshots), associative (merging a list is the join of
    merging any two groups of it, and the join is associative and
    commutative), and idempotent (a snapshot merged twice counts once: the
    result depends only on the set of snapshots). *)
Theorem coalesce_assoc_comm_idemp (arg_targets : gset string) :
  (∀ l1 l2, l1 ≡ₚ l2 → coalesce l1 arg_targets = coalesce l2 arg_targets)
  ∧ (∀ l1 l2, coalesce (l1 ++ l2) arg_targets
              = merged_join (coalesce l1 arg_targets) (coalesce l2 arg_targets))
  ∧ (∀ a b c, merged_join (merged_join a b) c = merged_join a (merged_join b c))
  ∧ (∀ a b, merged_join a b = merged_join b a)
  ∧ (∀ l s, coalesce (l ++ [s; s]) arg_targets = coalesce (l ++ [s]) arg_targets)
  ∧ (∀ l1 l2, (∀ s, s ∈ l1 ↔ s ∈ l2) → coalesce l1 arg_targets = coalesce l2 arg_targets).
Proof.
  split_and!.
  - intros l1 l2 Hp. unfold coalesce.
    apply (foldl_comm_perm _ (coalesce_step_comm arg_targets) _ _ Hp).
  - apply coalesce_app.
  - apply merged_join_assoc.
  - apply merged_join_comm.
  - intros l s. unfold coalesce. rewrite !foldl_app. cbn. apply coalesce_step_idemp.
  - intros l1 l2 Hel. unfold coalesce.
    apply (foldl_same_elements _ (coalesce_step_comm arg_targets)
             (coalesce_step_idemp arg_targets) _ _ _ Hel).
Qed.

(** ** The coverage map *)

Lemma cov_at_add (coverage : gmap Z (gset (Z * Z * code) * gset (Z * Z * code)))
    (line : Z) (idx : cov_idx) (e : Z * Z * code) (line' : Z) :
  cov_proj idx (cov_at (cov_add coverage line idx e) line')
  = (if decide (line = line') then cov_proj idx (cov_at coverage line) ∪ {[e]}
     else cov_proj idx (cov_at coverage line'))
  ∧ cov_proj (cov_other idx) (cov_at (cov_add coverage line idx e) line')
    = cov_proj (cov_other idx) (cov_at coverage line').
Proof.
  unfold cov_add. destruct (cov_at coverage line) as [r m] eqn:Hat.
  destruct idx; unfold cov_at at 1 3; rewrite lookup_insert;
    destruct (decide (line = line')) as [<-|Hne]; cbn; fold (cov_at coverage line);
    rewrite ?Hat; done.
Qed.

Lemma cov_add_is_Some (coverage : gmap Z (gset (Z * Z * code) * gset (Z * Z * code)))
    (line : Z) (idx : cov_idx) (e : Z * Z * code) (line' : Z) :
  is_Some (cov_add coverage line idx e !! line') ↔ line = line' ∨ is_Some (coverage !! line').
Proof.
  unfold cov_add. destruct (cov_at coverage line) as [r m].
  destruct idx; rewrite lookup_insert; destruct (decide (line = line')); naive_solver.
Qed.

(** The inner loop of [add_edges]: one edge, each of its lines. *)
Lemma add_lines_spec (idx : cov_idx) (x : Z * Z * code) (lines : list Z) :
  ∀ (cov cov' : gmap Z (gset (Z * Z * code) * gset (Z * Z * code))),
    foldM (λ cov line, let* _ := assert (0 <? line) A_cov_line in
                       OK (cov_add cov line idx x)) cov lines = OK cov' →
    (∀ line y, y ∈ cov_proj idx (cov_at cov' line)
               ↔ y ∈ cov_proj idx (cov_at cov line) ∨ (line ∈ lines ∧ y = x))
    ∧ (∀ line, cov_proj (cov_other idx) (cov_at cov' line)
               = cov_proj (cov_other idx) (cov_at cov line))
    ∧ (∀ line, is_Some (cov' !! line) ↔ line ∈ lines ∨ is_Some (cov !! line))
    ∧ Forall (λ line, 0 < line) lines.
Proof.
  induction lines as [|l lines IH]; intros cov cov' Hrun.
  - cbn in Hrun. simplify_eq. split_and!; [|done| |done].
    + intros line y. rewrite elem_of_nil. naive_solver.
    + intros line. rewrite elem_of_nil. naive_solver.
  - cbn in Hrun. destruct (0 <? l) eqn:Hl; cbn in Hrun; [|done].
    apply IH in Hrun as (H1 & H2 & H3 & H4). split_and!.
    + intros line y. rewrite H1, elem_of_cons.
      destruct (cov_at_add cov l idx x line) as [-> _].
      destruct (decide (l = line)) as [->|]; set_solver.
    + intros line. rewrite H2. by destruct (cov_at_add cov l idx x line) as [_ ->].
    + intros line. rewrite H3, cov_add_is_Some, elem_of_cons. naive_solver.
    + constructor; [lia|done].
Qed.

Lemma add_edges_list_spec (c : code) (idx : cov_idx) (l : list ((Z * Z) * gset Z)) :
  ∀ (cov cov' : gmap Z (gset (Z * Z * code) * gset (Z * Z * code))),
    foldM (λ cov '(e, lines),
             foldM (λ cov line, let* _ := assert (0 <? line) A_cov_line in
                                OK (cov_add cov line idx (e.1, e.2, c)))
                   cov (elements lines)) cov l = OK cov' →
    (∀ line y, y ∈ cov_proj idx (cov_at cov' line)
               ↔ y ∈ cov_proj idx (cov_at cov line)
                 ∨ ∃ e L, (e, L) ∈ l ∧ line ∈ L ∧ y = (e.1, e.2, c))
    ∧ (∀ line, cov_proj (cov_other idx) (cov_at cov' line)
               = cov_proj (cov_other idx) (cov_at cov line))
    ∧ (∀ line, is_Some (cov' !! line)
               ↔ (∃ e L, (e, L) ∈ l ∧ line ∈ L) ∨ is_Some (cov !! line)).
Proof.
  induction l as [|[e L] l IH]; intros cov cov' Hrun.
  - cbn in Hrun. simplify_eq. split_and!; [|done|].
    + intros line y. split; [by left|]. intros [?|(e & L & He & _)]; [done|].
      by apply elem_of_nil in He.
    + intros line. split; [by right|]. intros [(e & L & He & _)|?]; [|done].
      by apply elem_of_nil in He.
  - cbn [foldM] in Hrun.
    destruct (foldM _ cov (elements L)) as [cov1| |] eqn:Hin; cbn in Hrun; try done.
    apply add_lines_spec in Hin as (I1 & I2 & I3 & _).
    apply IH in Hrun as (H1 & H2 & H3). split_and!.
    + intros line y. rewrite H1, I1, elem_of_elements. split.
      * intros [[?|[? ->]]|(e' & L' & He' & ? & ->)]; [by left|right..].
        -- exists e, L. split_and!; [left|done..].
        -- exists e', L'. split_and!; [by right|done..].
      * intros [?|(e' & L' & [[= -> ->]|He']%elem_of_cons & ? & ->)]; [by left; left|..].
        -- left; right. done.
        -- right. eauto.
    + intros line. by rewrite H2, I2.
    + intros line. rewrite H3, I3, elem_of_elements. split.
      * intros [(e' & L' & He' & ?)|[?|?]]; [left|left|by right].
        -- exists e', L'. split; [by right|done].
        -- exists e, L. split; [left|done].
      * intros [(e' & L' & [[= -> ->]|He']%elem_of_cons & ?)|?]; [|by left; eauto|by right; right].
        right; left. done.
Qed.

(** What [add_edges] adds to the coverage map. *)
Lemma add_edges_spec (el : gmap (Z * Z) (gset Z)) (c : code) (idx : cov_idx)
    (cov cov' : gmap Z (gset (Z * Z * code) * gset (Z * Z * code))) :
  add_edges el c idx cov = OK cov' →
  (∀ line y, y ∈ cov_proj idx (cov_at cov' line)
             ↔ y ∈ cov_proj idx (cov_at cov line)
               ∨ ∃ e L, el !! e = Some L ∧ line ∈ L ∧ y = (e.1, e.2, c))
  ∧ (∀ line, cov_proj (cov_other idx) (cov_at cov' line)
             = cov_proj (cov_other idx) (cov_at cov line))
  ∧ (∀ line, is_Some (cov' !! line)
             ↔ (∃ e L, el !! e = Some L ∧ line ∈ L) ∨ is_Some (cov !! line)).
Proof.
  unfold add_edges. intros Hrun. apply add_edges_list_spec in Hrun as (H1 & H2 & H3).
  split_and!.
  - intros line y. rewrite H1. setoid_rewrite elem_of_map_to_list. done.
  - done.
  - intros line. rewrite H3. setoid_rewrite elem_of_map_to_list. done.
Qed.

(** Each line of each matched edge is either a line on which the edge was
    traced or one of the lines inferred for it; matched edges are required
    edges. *)
Lemma match_fold_spec (c : code) (req opt : gmap (Z * Z) (gset Z)) (l : list (Z * Z * Z)) :
  ∀ (T : Z * Z * Z → Prop) (st : gmap (Z * Z) (gset Z) * list diagnostic),
    (∀ e line, line ∈ set_at st.1 e →
       ∃ L, req !! e = Some L ∧ (line ∈ L ∨ T (e.1, e.2, line))) →
    ∀ e line,
      line ∈ set_at (foldl (match_step c req opt (raise_reqs_of req) (raise_opts_of opt))
                           st l).1 e →
      ∃ L, req !! e = Some L ∧ (line ∈ L ∨ T (e.1, e.2, line) ∨ (e.1, e.2, line) ∈ l).
Proof.
  induction l as [|[[s d] ln] l IH]; intros T [matched err] Hst e line Hin.
  - cbn in Hin. destruct (Hst e line Hin) as (L & HL & H). exists L. naive_solver.
  - cbn [foldl] in Hin.
    apply (IH (λ t, T t ∨ t = (s, d, ln))) in Hin.
    { destruct Hin as (L & HL & H). exists L. split; [done|].
      rewrite elem_of_cons. naive_solver. }
    clear Hin e line. intros e line Hin.
    unfold match_step in Hin. rewrite raise_reqs_of_lookup in Hin.
    case_bool_decide as Hreq.
    + cbn in Hin. rewrite set_at_add in Hin. destruct (decide ((s, d) = e)) as [<-|Hne].
      * apply elem_of_union in Hin as [Hin|Hin]; [|apply elem_of_singleton in Hin; subst line].
        -- destruct (Hst _ _ Hin) as (L & HL & H). exists L. naive_solver.
        -- destruct Hreq as [L HL]. exists L. cbn. naive_solver.
      * destruct (Hst _ _ Hin) as (L & HL & H). exists L. naive_solver.
    + destruct (req !! (OFF_RAISED, d)) as [L'|] eqn:HL'; cbn in Hin.
      * rewrite set_at_update in Hin. destruct (decide ((OFF_RAISED, d) = e)) as [<-|Hne].
        -- apply elem_of_union in Hin as [Hin|Hin].
           ++ destruct (Hst _ _ Hin) as (L & HL & H). exists L. naive_solver.
           ++ exists L'. naive_solver.
        -- destruct (Hst _ _ Hin) as (L & HL & H). exists L. naive_solver.
      * destruct (negb _); cbn in Hin;
          destruct (Hst _ _ Hin) as (L & HL & H); exists L; naive_solver.
Qed.

Lemma match_traced_spec (c : code) (req opt : gmap (Z * Z) (gset Z))
    (traced : gset (Z * Z * Z)) (e : Z * Z) (M : gset Z) :
  (match_traced c req opt traced).1 !! e = Some M →
  ∃ L, req !! e = Some L ∧ ∀ line, line ∈ M → line ∈ L ∨ (e.1, e.2, line) ∈ traced.
Proof.
  intros HM.
  assert (∀ line, line ∈ M → ∃ L, req !! e = Some L
            ∧ (line ∈ L ∨ False ∨ (e.1, e.2, line) ∈ elements traced)) as Hspec.
  { intros line Hline.
    apply (match_fold_spec c req opt (elements traced) (λ _, False) (∅, [])).
    - intros e' line'. cbn. rewrite set_at_None by apply lookup_empty. set_solver.
    - unfold match_traced in HM. by rewrite (set_at_lookup _ _ _ HM). }
  assert (is_Some (req !! e)) as [L HL].
  { revert HM. unfold match_traced.
    generalize (elements traced). intros l.
    assert (∀ st : gmap (Z * Z) (gset Z) * list diagnostic,
              (is_Some (st.1 !! e) → is_Some (req !! e)) →
              is_Some ((foldl (match_step c req opt (raise_reqs_of req) (raise_opts_of opt))
                              st l).1 !! e) → is_Some (req !! e)) as Hdom.
    { induction l as [|[[s d] ln] l IH]; intros [matched err] Hst; [done|].
      cbn [foldl]. apply IH. unfold match_step. rewrite raise_reqs_of_lookup.
      case_bool_decide as Hreq.
      - cbn. unfold set_add. rewrite lookup_insert.
        destruct (decide ((s, d) = e)) as [<-|]; [done|apply Hst].
      - destruct (req !! (OFF_RAISED, d)) as [L'|] eqn:HL'; cbn.
        + unfold set_update. rewrite lookup_insert.
          destruct (decide ((OFF_RAISED, d) = e)) as [<-|]; [by rewrite HL'|apply Hst].
        + destruct (negb _); apply Hst. }
    intros HM. apply (Hdom (∅, [])); [|by rewrite HM].
    cbn. rewrite lookup_empty. by intros [? ?]. }
  exists L. split; [done|]. intros line Hline.
  destruct (Hspec line Hline) as (L' & HL' & H). simplify_eq.
  rewrite elem_of_elements in H. naive_solver.
Qed.

Lemma foldM_inv {A S} (body : S → A → result S) (I : S → Prop) (l : list A) :
  (∀ s a s', a ∈ l → I s → body s a = OK s' → I s') →
  ∀ s s', I s → foldM body s l = OK s' → I s'.
Proof.
  induction l as [|x l IH]; intros Hstep s s' HI Hrun; cbn in Hrun; [by simplify_eq|].
  destruct (body s x) as [s1| |] eqn:Hb; cbn in Hrun; try done.
  eapply IH; [| |exact Hrun].
  - intros s0 a s0' Ha. apply Hstep. by right.
  - eapply Hstep; [left|exact HI|exact Hb].
Qed.

(** One code object: its matched edges are required edges of that code
    object, on lines that are inferred for them or were traced. *)
Lemma cover_code_matched (fuel : nat) (path : string)
    (code_edges : gmap code (gset (Z * Z * Z)))
    (cov cov' : gmap Z (gset (Z * Z * code) * gset (Z * Z * code)))
    (err err' : list diagnostic) (c : code) :
  cover_code fuel path code_edges (cov, err) c = OK (cov', err') →
  ∃ req opt warnings,
    crawl_code_insts fuel path c = OK (req, opt, warnings)
    ∧ (∀ line y, y ∈ (cov_at cov' line).1
                 ↔ y ∈ (cov_at cov line).1
                   ∨ ∃ e L, req !! e = Some L ∧ line ∈ L ∧ y = (e.1, e.2, c))
    ∧ (∀ line y, y ∈ (cov_at cov' line).2 →
                 y ∈ (cov_at cov line).2
                 ∨ ∃ e L, req !! e = Some L ∧ y = (e.1, e.2, c)
                          ∧ (line ∈ L ∨ (e.1, e.2, line) ∈ default ∅ (code_edges !! c))).
Proof.
  unfold cover_code. intros Hrun.
  destruct (crawl_code_insts fuel path c) as [[[req opt] warnings]| |]; cbn in Hrun; try done.
  destruct (match_traced c req opt _) as [matched unexpected] eqn:Hm.
  destruct (add_edges req c COV_REQ cov) as [cov1| |] eqn:H1; cbn in Hrun; try done.
  destruct (add_edges matched c COV_MATCHED cov1) as [cov2| |] eqn:H2; cbn in Hrun; try done.
  simplify_eq. exists req, opt, warnings. split; [done|].
  apply add_edges_spec in H1 as (R1 & R2 & _).
  apply add_edges_spec in H2 as (M1 & M2 & _). cbn in *.
  split.
  - intros line y. rewrite M2. apply R1.
  - intros line y Hy. apply M1 in Hy as [Hy|(e & M & HM & Hline & ->)].
    + left. by rewrite <- R2.
    + right. replace matched with (match_traced c req opt (default ∅ (code_edges !! c))).1 in HM
        by (by rewrite Hm).
      apply match_traced_spec in HM as (L & HL & HML).
      exists e, L. split_and!; [done..|]. by apply HML.
Qed.

Lemma line_verdicts_fold (ignored explicit : gset Z)
    (l : list (Z * (gset (Z * Z * code) * gset (Z * Z * code)))) :
  ∀ (v : verdicts) (line : Z),
    let v' := foldl (verdict_step ignored explicit) v l in
    (line ∈ covered_lines v'
     ↔ line ∈ covered_lines v ∨ (line ∉ explicit ∧ ∃ r m, (line, (r, m)) ∈ l ∧ r ⊆ m))
    ∧ (line ∈ ign_cov_lines v'
       ↔ line ∈ ign_cov_lines v ∨ (line ∈ explicit ∧ ∃ r m, (line, (r, m)) ∈ l ∧ r ⊆ m)).
Proof.
  induction l as [|[ln [r m]] l IH]; intros v line; cbn zeta.
  - cbn. setoid_rewrite elem_of_nil. naive_solver.
  - cbn [foldl]. destruct (IH (verdict_step ignored explicit v (ln, (r, m))) line) as [-> ->].
    setoid_rewrite elem_of_cons. unfold verdict_step.
    repeat case_bool_decide; cbn; rewrite ?elem_of_union, ?elem_of_singleton;
      split; naive_solver.
Qed.

(** The verdicts of [report_path]. *)
Lemma line_verdicts_spec (coverage : gmap Z (gset (Z * Z * code) * gset (Z * Z * code)))
    (ignored explicit : gset Z) (line : Z) :
  let v := line_verdicts coverage ignored explicit in
  (line ∈ covered_lines v ∪ ign_cov_lines v
   ↔ ∃ r m, coverage !! line = Some (r, m) ∧ r ⊆ m)
  ∧ (line ∈ covered_lines v
     ↔ line ∉ explicit ∧ ∃ r m, coverage !! line = Some (r, m) ∧ r ⊆ m).
Proof.
  cbn zeta. unfold line_verdicts.
  destruct (line_verdicts_fold ignored explicit (map_to_list coverage)
              {| covered_lines := ∅; ign_cov_lines := ∅; not_cov_lines := ∅ |} line)
    as [Hc Hi].
  cbn zeta in Hc, Hi. rewrite elem_of_union, Hc, Hi. cbn.
  setoid_rewrite elem_of_map_to_list.
  split; [|set_solver].
  destruct (decide (line ∈ explicit)); set_solver.
Qed.

(** C2 (amended): in the coverage map produced by [calculate_coverage],
    every matched edge of a line is a required edge of its code object; it
    is in the required set of that same line, so that matched ⊆ required,
    when the tracer reported every required edge on a line inferred for it;
    and [report_path] counts a line as covered (or as ignored but covered,
    when it is explicitly ignored) if and only if required ⊆ matched. *)
Theorem coverage_matched_required (fuel : nat) (path : string)
    (code_edges : gmap code (gset (Z * Z * Z)))
    (coverage : gmap Z (gset (Z * Z * code) * gset (Z * Z * code)))
    (err : list diagnostic) :
  calculate_coverage fuel path code_edges = OK (coverage, err) →
  (∀ line required matched,
     coverage !! line = Some (required, matched) →
     (∀ s d c, (s, d, c) ∈ matched →
        ∃ req opt warnings, crawl_code_insts fuel path c = OK (req, opt, warnings)
                            ∧ is_Some (req !! (s, d)))
     ∧ (traced_on_inferred_lines fuel path code_edges → matched ⊆ required))
  ∧ (∀ ignored_lines explicitly_ignored_lines line,
       let v := line_verdicts coverage ignored_lines explicitly_ignored_lines in
       (line ∈ covered_lines v ∪ ign_cov_lines v
        ↔ ∃ required matched, coverage !! line = Some (required, matched)
                              ∧ required ⊆ matched)
       ∧ (line ∈ covered_lines v
          ↔ line ∉ explicitly_ignored_lines
            ∧ ∃ required matched, coverage !! line = Some (required, matched)
                                  ∧ required ⊆ matched)).
Proof.
  intros Hrun. split; [|intros; apply line_verdicts_spec].
  unfold calculate_coverage in Hrun.
  destruct (visit_nodes _ _ _ _ _) as [[all_codes []]| |]; cbn in Hrun; try done.
  pose (I := λ st : gmap Z (gset (Z * Z * code) * gset (Z * Z * code)) * list diagnostic,
    (∀ line s d c, (s, d, c) ∈ (cov_at st.1 line).2 →
       ∃ req opt warnings, crawl_code_insts fuel path c = OK (req, opt, warnings)
                           ∧ is_Some (req !! (s, d)))
    ∧ (traced_on_inferred_lines fuel path code_edges →
       ∀ line y, y ∈ (cov_at st.1 line).2 → y ∈ (cov_at st.1 line).1)).
  assert (I (coverage, err)) as [H1 H2].
  { eapply (foldM_inv _ I); [| |exact Hrun].
    - clear. intros [cov err] c [cov' err'] _ [I1 I2] Hstep.
      apply cover_code_matched in Hstep as (req & opt & w & Hcrawl & Hreq & Hm).
      split; cbn in *.
      + intros line s d c' Hin. apply Hm in Hin as [Hin|(e & L & HL & [= -> -> ->] & _)].
        * by apply (I1 line).
        * exists req, opt, w. split; [done|]. destruct e. cbn. by rewrite HL.
      + intros Hcons line y Hin. apply Hreq.
        apply Hm in Hin as [Hin|(e & L & HL & -> & Hline)].
        * left. by apply I2.
        * right. exists e, L. split_and!; [done| |done].
          destruct Hline as [?|Htr]; [done|].
          destruct e as [s d]. by eapply (Hcons c req opt w s d line L).
    - split; cbn; intros; unfold cov_at in *; rewrite lookup_empty in *; set_solver. }
  intros line required matched Hl. cbn in H1, H2.
  assert (cov_at coverage line = (required, matched)) as Hat by (unfold cov_at; by rewrite Hl).
  split.
  - intros s d c Hin. apply (H1 line). by rewrite Hat.
  - intros Hcons y Hy. specialize (H2 Hcons line y). rewrite Hat in H2. by apply H2.
Qed.

(** A run of [return_code] traced on its inferred lines. *)
Lemma coverage_matched_required_witness :
  ∃ coverage err,
    calculate_coverage 10 "m.py" {[ return_code := return_traced ]} = OK (coverage, err)
    ∧ ((∀ line required matched,
          coverage !! line = Some (required, matched) →
          (∀ s d c, (s, d, c) ∈ matched →
             ∃ req opt warnings, crawl_code_insts 10 "m.py" c = OK (req, opt, warnings)
                                 ∧ is_Some (req !! (s, d)))
          ∧ (traced_on_inferred_lines 10 "m.py" {[ return_code := return_traced ]} →
             matched ⊆ required))
       ∧ (∀ ignored_lines explicitly_ignored_lines line,
            let v := line_verdicts coverage ignored_lines explicitly_ignored_lines in
            (line ∈ covered_lines v ∪ ign_cov_lines v
             ↔ ∃ required matched, coverage !! line = Some (required, matched)
                                   ∧ required ⊆ matched)
            ∧ (line ∈ covered_lines v
               ↔ line ∉ explicitly_ignored_lines
                 ∧ ∃ required matched, coverage !! line = Some (required, matched)
                                       ∧ required ⊆ matched))).
Proof.
  assert (holds (calculate_coverage 10 "m.py" {[ return_code := return_traced ]})
            (λ _, true) = true) as Hr by (vm_compute; reflexivity).
  apply holds_OK in Hr as ([coverage err] & Hr & _).
  exists coverage, err. split; [exact Hr|].
  exact (coverage_matched_required 10 "m.py" _ coverage err Hr).
Defined.

(** C2 (as stated) fails: when the first edge of [return_code] is traced on
    line 7, the coverage map has a line whose matched set is not a subset of
    its required set. *)
Lemma coverage_matched_not_subset :
  ∃ coverage err line required matched,
    calculate_coverage 10 "m.py" return_traced_off_line = OK (coverage, err)
    ∧ coverage !! line = Some (required, matched)
    ∧ ¬ matched ⊆ required.
Proof.
  assert (holds (calculate_coverage 10 "m.py" return_traced_off_line)
            (λ r : gmap Z (gset (Z * Z * code) * gset (Z * Z * code)) * list diagnostic,
               match r.1 !! 7 with
               | Some (required, matched) => negb (bool_decide (matched ⊆ required))
               | None => false
               end) = true) as Hr by (vm_compute; reflexivity).
  apply holds_OK in Hr as ([coverage err] & Hr & Hline). cbn in Hline.
  destruct (coverage !! 7) as [[required matched]|] eqn:H7; [|discriminate Hline].
  exists coverage, err, 7, required, matched. split_and!; [exact Hr|exact H7|].
  apply negb_true_iff, bool_decide_eq_false in Hline. exact Hline.
Qed.

(** ** Optional edges inside an arc *)

Lemma emit_step_OK (nexts : gmap Z Z) (src : inst) (is_src_opt : bool)
    (v v' : emit_vars) (i : inst) :
  emit_step nexts src is_src_opt v i = OK v' →
  ev_prev v' = i
  ∧ ev_line v' = next_line (ev_prev v) i (ev_line v)
  ∧ 0 < ev_line v'
  ∧ (ev_is_opt v' = true ↔ ev_is_opt v = true ∨ ef_step nexts (ev_prev v) i)
  ∧ ∃ e, ev_calls v' = ev_calls v ++
           [(e, ev_line v',
             ev_is_opt v' || (is_src_opt && bool_decide (off src = off (ev_prev v))))].
Proof.
  unfold emit_step, ef_step. intros Hrun.
  destruct (0 <? next_line (ev_prev v) i (ev_line v)) eqn:Hline; cbn in Hrun; [|done].
  apply Z.ltb_lt in Hline.
  destruct (ev_is_opt v) eqn:Hopt; cbn in Hrun.
  - simplify_eq. cbn. split_and!; try done; [naive_solver|eauto].
  - case_bool_decide as Hop; cbn in Hrun.
    + destruct (nexts !! off (ev_prev v)) as [n|] eqn:Hn; cbn in Hrun; [|done].
      simplify_eq. cbn. split_and!; try done; [|eauto].
      rewrite bool_decide_eq_true. naive_solver.
    + simplify_eq. cbn. split_and!; try done; [naive_solver|eauto].
Qed.

Lemma emit_fold_flags (nexts : gmap Z Z) (src : inst) (is_src_opt : bool) (arc : list inst) :
  ∀ v0 v,
    foldM (emit_step nexts src is_src_opt) v0 arc = OK v →
    ∃ new,
      ev_calls v = ev_calls v0 ++ new
      ∧ length new = length arc
      ∧ Forall (λ c : Z * Z * Z * bool, 0 < c.1.2) new
      ∧ ∀ k p c,
          (ev_prev v0 :: arc) !! k = Some p → new !! k = Some c →
          (c.2 = true
           ↔ ev_is_opt v0 = true
             ∨ (∃ j p' n, (j ≤ k)%nat ∧ (ev_prev v0 :: arc) !! j = Some p'
                          ∧ arc !! j = Some n ∧ ef_step nexts p' n)
             ∨ (is_src_opt = true ∧ off src = off p)).
Proof.
  induction arc as [|i arc IH]; intros v0 v Hrun.
  - cbn in Hrun. simplify_eq. exists []. rewrite app_nil_r. split_and!; try done.
  - cbn [foldM] in Hrun.
    destruct (emit_step nexts src is_src_opt v0 i) as [v1| |] eqn:Hstep; cbn in Hrun; try done.
    apply emit_step_OK in Hstep as (Hprev & Hline & Hpos & Hopt & e & Hcalls).
    apply IH in Hrun as (new & Hnew & Hlen & Hposs & Hflags).
    exists ((e, ev_line v1,
             ev_is_opt v1 || (is_src_opt && bool_decide (off src = off (ev_prev v0)))) :: new).
    split_and!.
    + by rewrite Hnew, Hcalls, <- app_assoc.
    + cbn. by rewrite Hlen.
    + constructor; [done|done].
    + intros k p c Hp Hc. destruct k as [|k]; cbn in Hp, Hc; simplify_eq; cbn.
      * rewrite orb_true_iff, andb_true_iff, bool_decide_eq_true, Hopt. split.
        -- intros [[?|Hef]|?]; [by left| |by right; right].
           right; left. exists 0%nat, (ev_prev v0), (ev_prev v1). done.
        -- intros [?|[(j & p' & n & Hj & Hp' & Hn & Hef)|?]]; [by left; left| |by right].
           assert (j = 0%nat) as -> by lia. cbn in Hp', Hn. simplify_eq. left; right. done.
      * rewrite (Hflags k p c Hp Hc), Hopt. split.
        -- intros [[?|Hef]|[(j & p' & n & Hj & Hp' & Hn & Hef)|?]];
             [by left| |right; left|by right; right].
           ++ right; left. exists 0%nat, (ev_prev v0), (ev_prev v1). split_and!; [lia|done..].
           ++ exists (S j), p', n. split_and!; [lia|done..].
        -- intros [?|[(j & p' & n & Hj & Hp' & Hn & Hef)|?]];
             [by left; left| |by right; right].
           destruct j as [|j]; cbn in Hp', Hn; simplify_eq.
           ++ left; right. done.
           ++ right; left. exists j, p', n. split_and!; [lia|done..].
Qed.

(** C4 (amended): in an arc that is not classified optional at its entry,
    an edge is emitted as optional exactly when its step, or an earlier step
    of the same run over the arc (the entry step included), has an
    END_FINALLY as source and the textual next instruction as destination
    -- the optional flag set by that step stays set to the end of the arc --
    or when the edge leaves the source instruction and the source's own
    arc ended optional. *)
Theorem arc_interior_optional (nexts : gmap Z Z) (src : inst) (src_line : Z)
    (is_src_opt : bool) (arc : list inst) (v : emit_vars) :
  emit_loop nexts src src_line is_src_opt false arc = OK v →
  length (ev_calls v) = length arc
  ∧ ∀ k p c,
      (src :: arc) !! k = Some p → ev_calls v !! k = Some c →
      (c.2 = true
       ↔ (∃ j p' n, (j ≤ k)%nat ∧ (src :: arc) !! j = Some p' ∧ arc !! j = Some n
                    ∧ ef_step nexts p' n)
         ∨ (is_src_opt = true ∧ off src = off p)).
Proof.
  unfold emit_loop. intros Hrun.
  apply emit_fold_flags in Hrun as (new & Hnew & Hlen & _ & Hflags). cbn in Hnew, Hflags.
  subst new. split; [done|].
  intros k p c Hp Hc. rewrite (Hflags k p c Hp Hc). naive_solver.
Qed.

Lemma arc_interior_optional_witness :
  ∃ v,
    emit_loop after_finally_nexts after_finally_src 5 false false after_finally_arc = OK v
    ∧ length (ev_calls v) = length after_finally_arc
    ∧ ∀ k p c,
        (after_finally_src :: after_finally_arc) !! k = Some p → ev_calls v !! k = Some c →
        (c.2 = true
         ↔ (∃ j p' n, (j ≤ k)%nat ∧ (after_finally_src :: after_finally_arc) !! j = Some p'
                      ∧ after_finally_arc !! j = Some n
                      ∧ ef_step after_finally_nexts p' n)
           ∨ (false = true ∧ off after_finally_src = off p)).
Proof.
  eexists. split; [reflexivity|].
  apply (arc_interior_optional after_finally_nexts after_finally_src 5 false
           after_finally_arc).
  reflexivity.
Defined.

(** C4 (as stated) fails: in the arc of [try_finally_code] that starts at
    offset 12, entered from offset 10 and not optional at its entry, the
    interior edge (20, 22) is emitted as optional although its source is a
    LOAD_CONST: it follows the fall-through of the END_FINALLY at 18.  The
    edge is optional, and not required, in the result of
    [crawl_code_insts]. *)
Lemma arc_interior_optional_after_end_finally :
  ∃ g w src a0 rest v p req opt w',
    build_graph 100 "m.py" try_finally_code = OK (g, w)
    ∧ g_insts g !! 10 = Some src
    ∧ arc_insts g 12 = OK (a0, rest)
    ∧ is_arc_opt src a0 (a0 :: rest) (g_srcs g) = false
    ∧ emit_loop (g_nexts g) src 3 false false (a0 :: rest) = OK v
    ∧ ev_calls v !! 5%nat = Some ((20, 22), 5, true)
    ∧ (src :: a0 :: rest) !! 5%nat = Some p
    ∧ opcode (raw p) = LOAD_CONST
    ∧ ¬ ef_step (g_nexts g) p p
    ∧ crawl_code_insts 100 "m.py" try_finally_code = OK (req, opt, w')
    ∧ is_Some (opt !! (20, 22)) ∧ req !! (20, 22) = None.
Proof.
  assert (holds (build_graph 100 "m.py" try_finally_code)
    (λ gw : graph * list diagnostic,
       let g := gw.1 in
       match g_insts g !! 10 with
       | Some src =>
         holds (arc_insts g 12)
           (λ ar : inst * list inst,
              negb (is_arc_opt src ar.1 (ar.1 :: ar.2) (g_srcs g))
              && holds (emit_loop (g_nexts g) src 3 false false (ar.1 :: ar.2))
                   (λ v : emit_vars,
                      match ev_calls v !! 5%nat, (src :: ar.1 :: ar.2) !! 5%nat with
                      | Some c, Some p =>
                        bool_decide (c = ((20, 22), 5, true))
                        && bool_decide (opcode (raw p) = LOAD_CONST)
                      | _, _ => false
                      end))
       | None => false
       end) = true) as Hg by (vm_compute; reflexivity).
  apply holds_OK in Hg as ([g w] & Hg & Hsrc). cbn [fst] in Hsrc.
  destruct (g_insts g !! 10) as [src|] eqn:Hs; [|done].
  apply holds_OK in Hsrc as ([a0 rest] & Harc & Hrest). cbn [fst snd] in Hrest.
  apply andb_true_iff in Hrest as [Hopt Hloop]. apply negb_true_iff in Hopt.
  apply holds_OK in Hloop as (v & Hv & Hc).
  destruct (ev_calls v !! 5%nat) as [c|] eqn:Hc5; [|done].
  destruct ((src :: a0 :: rest) !! 5%nat) as [p|] eqn:Hp5; [|done].
  apply andb_true_iff in Hc as [Hc Hp]. apply bool_decide_eq_true in Hc, Hp. subst c.
  assert (holds (crawl_code_insts 100 "m.py" try_finally_code)
    (λ r : gmap (Z * Z) (gset Z) * gmap (Z * Z) (gset Z) * list diagnostic,
       bool_decide (is_Some (r.1.2 !! (20, 22))) && bool_decide (r.1.1 !! (20, 22) = None))
    = true) as Hr by (vm_compute; reflexivity).
  apply holds_OK in Hr as ([[req opt] w'] & Hr & Hro). cbn in Hro.
  apply andb_true_iff in Hro as [Ho Hq]. apply bool_decide_eq_true in Ho, Hq.
  exists g, w, src, a0, rest, v, p, req, opt, w'.
  split_and!;
    [exact Hg|exact Hs|exact Harc|exact Hopt|exact Hv|exact Hc5|exact Hp5|exact Hp|
    |exact Hr|exact Ho|exact Hq].
  intros [Hef _]. rewrite Hp in Hef. discriminate Hef.
Qed.

(** ** The required and optional maps *)

Lemma add_edge_fold (calls : list (Z * Z * Z * bool)) :
  ∀ (st : gmap (Z * Z) (gset Z) * gmap (Z * Z) (gset Z)) e line,
    let st' := foldl add_edge st calls in
    (line ∈ set_at st'.1 e ↔ line ∈ set_at st.1 e ∨ (e, line, false) ∈ calls)
    ∧ (line ∈ set_at st'.2 e ↔ line ∈ set_at st.2 e ∨ (e, line, true) ∈ calls).
Proof.
  induction calls as [|[[e0 l0] b0] calls IH]; intros [req opt] e line; cbn zeta.
  - cbn. rewrite !elem_of_nil. naive_solver.
  - cbn [foldl]. destruct (IH (add_edge (req, opt) (e0, l0, b0)) e line) as [-> ->].
    rewrite !elem_of_cons. unfold add_edge. destruct b0; cbn.
    + rewrite set_at_add. destruct (decide (e0 = e)) as [->|];
        rewrite ?elem_of_union, ?elem_of_singleton; naive_solver.
    + rewrite set_at_add. destruct (decide (e0 = e)) as [->|];
        rewrite ?elem_of_union, ?elem_of_singleton; naive_solver.
Qed.

Lemma add_edge_fold_keys (calls : list (Z * Z * Z * bool)) :
  ∀ (st : gmap (Z * Z) (gset Z) * gmap (Z * Z) (gset Z)),
    keys_have_lines st.1 → keys_have_lines st.2 →
    keys_have_lines (foldl add_edge st calls).1 ∧ keys_have_lines (foldl add_edge st calls).2.
Proof.
  induction calls as [|[[e0 l0] b0] calls IH]; intros [req opt] H1 H2; [done|].
  cbn [foldl]. apply IH; unfold add_edge; destruct b0; cbn in *; try done.
  - intros e He. rewrite set_at_add. destruct (decide (e0 = e)) as [->|Hne].
    + exists l0. set_solver.
    + apply H1. unfold set_add in He. by rewrite lookup_insert_ne in He.
  - intros e He. rewrite set_at_add. destruct (decide (e0 = e)) as [->|Hne].
    + exists l0. set_solver.
    + apply H2. unfold set_add in He. by rewrite lookup_insert_ne in He.
Qed.


Lemma emit_edges_OK (g : graph) (t : Z * Z * bool)
    (st st' : gmap (Z * Z) (gset Z) * gmap (Z * Z) (gset Z)) (ys : list (Z * Z * bool)) :
  emit_edges g t st = OK (ys, st') →
  ∃ calls, emit_calls g t = OK (calls, ys) ∧ st' = foldl add_edge st calls.
Proof.
  unfold emit_edges. destruct (emit_calls g t) as [[calls ys']| |]; cbn; [|done..].
  intros [= -> <-]. eauto.
Qed.

(** The maps returned by the last traversal hold exactly the calls of
    [add_edge] made for the visited nodes. *)
Lemma emit_visit_spec (g : graph) (fuel : nat) (visited : gset (Z * Z * bool))
    (req opt : gmap (Z * Z) (gset Z)) :
  visit_nodes set_pop fuel emit_start (emit_edges g) (∅, ∅) = OK (visited, (req, opt)) →
  (∀ e line,
     (line ∈ set_at req e
      ↔ ∃ t calls ys, t ∈ visited ∧ emit_calls g t = OK (calls, ys) ∧ (e, line, false) ∈ calls)
     ∧ (line ∈ set_at opt e
        ↔ ∃ t calls ys, t ∈ visited ∧ emit_calls g t = OK (calls, ys) ∧ (e, line, true) ∈ calls))
  ∧ keys_have_lines req ∧ keys_have_lines opt.
Proof.
  intros Hrun.
  pose (I := λ (_ vis : gset (Z * Z * bool))
               (st : gmap (Z * Z) (gset Z) * gmap (Z * Z) (gset Z)),
    (∀ e line b,
       line ∈ set_at (if b : bool then st.2 else st.1) e
       ↔ ∃ t calls ys, t ∈ vis ∧ emit_calls g t = OK (calls, ys) ∧ (e, line, b) ∈ calls)
    ∧ keys_have_lines st.1 ∧ keys_have_lines st.2).
  assert (I ∅ visited (req, opt)) as (H1 & H2 & H3).
  { eapply (visit_loop_inv set_pop set_pop_spec (emit_edges g) I); [| | |exact Hrun].
    - clear. intros rem vis st node ys st' (I1 & I2 & I3) _ Hnv Hstep.
      apply emit_edges_OK in Hstep as (calls & Hcalls & ->).
      split; [|by apply add_edge_fold_keys].
      intros e line b. destruct (add_edge_fold calls st e line) as [F1 F2]. cbn zeta in F1, F2.
      assert (line ∈ set_at (if b then (foldl add_edge st calls).2
                             else (foldl add_edge st calls).1) e
              ↔ line ∈ set_at (if b then st.2 else st.1) e ∨ (e, line, b) ∈ calls) as ->
        by (by destruct b).
      rewrite I1. split.
      + intros [(t & cs & ys' & Ht & Hc & Hin)|Hin].
        * exists t, cs, ys'. split_and!; [set_solver|done..].
        * exists node, calls, ys. split_and!; [set_solver|done..].
      + intros (t & cs & ys' & [Ht| ->%elem_of_singleton]%elem_of_union & Hc & Hin).
        * left. eauto 10.
        * right. rewrite Hcalls in Hc. injection Hc as <- <-. exact Hin.
    - split_and!.
      + intros e line b. split.
        * destruct b; cbn; rewrite set_at_None by apply lookup_empty; set_solver.
        * intros (t & _ & _ & Ht & _). set_solver.
      + intros e. cbn. rewrite lookup_empty. by intros [? ?].
      + intros e. cbn. rewrite lookup_empty. by intros [? ?].
    - set_solver. }
  cbn in H1, H2, H3. split_and!; [|done..].
  intros e line. split; [apply (H1 e line false)|apply (H1 e line true)].
Qed.




(** ** Which errors a computation can raise *)

















(** ** Step 1 on a well-formed stream *)

(** What a successful iteration of step 1 leaves in the state. *)
Lemma scan_step_OK (s s' : scan) (i : Instruction) :
  scan_step s i = OK s' →
  ∃ blocks2,
    (blocks2 = pop_blocks (step_off s i) (blocks s)
     ∨ (opcode i ∈ setup_opcodes
        ∧ blocks2 = (opcode i, argval i) :: pop_blocks (step_off s i) (blocks s)))
    ∧ blocks s' = blocks2
    ∧ v_line s' = Some (step_line s i) ∧ v_off s' = Some (step_off s i)
    ∧ ((opcode i = EXTENDED_ARG
        ∧ insts s' = insts s ∧ order s' = order s ∧ nexts s' = nexts s
        ∧ prevs s' = prevs s ∧ prev s' = prev s ∧ ext s' = step_ext s i)
       ∨ (opcode i ≠ EXTENDED_ARG
          ∧ ∃ e1,
              raw e1 = i ∧ off e1 = step_off s i ∧ line e1 = step_line s i
              ∧ is_line_start e1 = bool_of_line (step_starts_line s i)
              ∧ stack e1 = blocks2 ∧ is_SF_exc_opt e1 = false
              ∧ insts s' = <[step_off s i := e1]> (insts s)
              ∧ nexts s' = <[off (prev s) := step_off s i]> (nexts s)
              ∧ prevs s' = <[step_off s i := off (prev s)]> (prevs s)
              ∧ prev s' = e1 ∧ ext s' = None)).
Proof.
  unfold scan_step. fold (step_ext s i). fold (step_off s i).
  fold (step_starts_line s i). fold (step_line s i).
  intros Hrun.
  set (b1 := pop_blocks (step_off s i) (blocks s)) in *.
  assert (∀ blocks2 dst,
    (blocks2 = b1 ∨ (opcode i ∈ setup_opcodes ∧ blocks2 = (opcode i, argval i) :: b1)) →
    (let e := enhance_inst i (step_off s i) (step_line s i)
                (bool_of_line (step_starts_line s i)) blocks2 in
     if bool_decide (opcode i = EXTENDED_ARG) then
       OK {| insts := insts s; order := order s; nexts := nexts s; prevs := prevs s;
             blocks := blocks2; prev := prev s;
             exc_match_jmp_dsts := exc_match_jmp_dsts s; ext := step_ext s i;
             v_dst := dst; v_line := Some (step_line s i); v_off := Some (step_off s i) |}
     else
       let insts1 := <[step_off s i := e]> (insts s) in
       let order1 := if bool_decide (step_off s i ∈ order s) then order s
                     else order s ++ [step_off s i] in
       let nexts1 := <[off (prev s) := step_off s i]> (nexts s) in
       let prevs1 := <[step_off s i := off (prev s)]> (prevs s) in
       let* call_exit :=
         if bool_decide (opcode i = CALL_FUNCTION) then
           let* p := call_exit_pred insts1 prevs1 (prev s) in
           OK (bool_decide (opcode (raw p) = LOAD_GLOBAL)
               && bool_decide (argval (raw p) = VStr "exit"))
         else OK false in
       let exc_match :=
         bool_decide (opcode i = COMPARE_OP) && bool_decide (argrepr i = "exception match") in
       let* (jmp_src, jmp_dsts) :=
         if is_exc_match (prev s) then
           let* _ := assert (bool_decide (opcode i = POP_JUMP_IF_FALSE)) A_pop_jump_if_false in
           OK (true, {[argval i]} ∪ exc_match_jmp_dsts s)
         else OK (false, exc_match_jmp_dsts s) in
       let jmp_dst := bool_decide (VInt (step_off s i) ∈ jmp_dsts) in
       let e1 := set_flags e call_exit exc_match jmp_src jmp_dst in
       OK {| insts := <[step_off s i := e1]> insts1; order := order1; nexts := nexts1;
             prevs := prevs1; blocks := blocks2; prev := e1;
             exc_match_jmp_dsts := jmp_dsts; ext := None;
             v_dst := dst; v_line := Some (step_line s i); v_off := Some (step_off s i) |})
    = OK s' →
    ∃ blocks2,
      (blocks2 = b1 ∨ (opcode i ∈ setup_opcodes ∧ blocks2 = (opcode i, argval i) :: b1))
      ∧ blocks s' = blocks2
      ∧ v_line s' = Some (step_line s i) ∧ v_off s' = Some (step_off s i)
      ∧ ((opcode i = EXTENDED_ARG
          ∧ insts s' = insts s ∧ order s' = order s ∧ nexts s' = nexts s
          ∧ prevs s' = prevs s ∧ prev s' = prev s ∧ ext s' = step_ext s i)
         ∨ (opcode i ≠ EXTENDED_ARG
            ∧ ∃ e1,
                raw e1 = i ∧ off e1 = step_off s i ∧ line e1 = step_line s i
                ∧ is_line_start e1 = bool_of_line (step_starts_line s i)
                ∧ stack e1 = blocks2 ∧ is_SF_exc_opt e1 = false
                ∧ insts s' = <[step_off s i := e1]> (insts s)
                ∧ nexts s' = <[off (prev s) := step_off s i]> (nexts s)
                ∧ prevs s' = <[step_off s i := off (prev s)]> (prevs s)
                ∧ prev s' = e1 ∧ ext s' = None))) as Hfinish.
  { clear Hrun. intros blocks2 dst Hb Hrun. cbn zeta in Hrun. exists blocks2.
    destruct (bool_decide (opcode i = EXTENDED_ARG)) eqn:Hext.
    - apply bool_decide_eq_true in Hext. injection Hrun as <-. cbn.
      split_and!; try done. by left.
    - apply bool_decide_eq_false in Hext.
      destruct (if bool_decide (opcode i = CALL_FUNCTION) then _ else _) as [call_exit| |];
        cbn [rbind] in Hrun; try done.
      destruct (if is_exc_match (prev s) then _ else _) as [[jmp_src jmp_dsts]| |];
        cbn [rbind] in Hrun; try done.
      injection Hrun as <-. cbn. split_and!; try done. right. split; [done|].
      eexists. split_and!; cycle 9; [reflexivity|try done..].
      cbn. by rewrite insert_insert_eq. }
  destruct (bool_decide (opcode i ∈ setup_opcodes)) eqn:Hset.
  - apply bool_decide_eq_true in Hset.
    destruct (all_le (argval i) b1) as [ok| |]; cbn [rbind] in Hrun; try done.
    destruct ok; cbn [rbind assert] in Hrun; [|done].
    eapply Hfinish; [|exact Hrun]. by right.
  - cbn [rbind] in Hrun. eapply Hfinish; [|exact Hrun]. by left.
Qed.










(** ** Step 2 on a well-formed store *)


Lemma lookup_py_OK (insts : gmap Z inst) (v : pyval) (t : inst) :
  lookup_py insts v = OK t → ∃ z, v = VInt z ∧ insts !! z = Some t.
Proof.
  destruct v as [|z|s|]; cbn; try done.
  destruct (insts !! z) eqn:E; cbn; [|done]. intros [= ->]. eauto.
Qed.





(** ** Step 3 on well-formed successor sets *)




(** ** Step 4 on a well-formed graph *)












(** C8 (as stated) fails: a starts-line on the first instruction does not
    keep the assertions from failing.  [add_edges] files a matched edge
    under the line that the tracer reported, so the well-formed
    [return_code], traced once on line 0, fails the [assert line > 0] of
    [add_edges]; and a first instruction whose starts-line is 0 takes the
    line of BEGIN, so [zero_line_code] fails the [assert line > 0] of
    [emit_edges]. *)
Lemma emitted_lines_not_positive :
  (first_has_line return_code = true
   ∧ wf_code return_code = true
   ∧ calculate_coverage 10 "m.py" return_traced_line_zero
     = Raise (AssertionError A_cov_line))
  ∧ (first_has_line zero_line_code = true
     ∧ crawl_code_insts 10 "m.py" zero_line_code = Raise (AssertionError A_emit_line)).
Proof.
  split_and!; vm_compute; reflexivity.
Qed.

(** ** Predecessors and arcs *)

Lemma srcs_inner_fold (src : Z) (l : list Z) :
  ∀ (acc : gmap Z (gset Z)) (s d : Z),
    s ∈ set_at (foldl (λ acc dst, set_add acc dst src) acc l) d
    ↔ s ∈ set_at acc d ∨ (s = src ∧ d ∈ l).
Proof.
  induction l as [|x l IH]; intros acc s d; cbn.
  - rewrite elem_of_nil. naive_solver.
  - rewrite IH, set_at_add, elem_of_cons.
    destruct (decide (x = d)) as [->|]; rewrite ?elem_of_union, ?elem_of_singleton;
      naive_solver.
Qed.

Lemma srcs_outer_fold (l : list (Z * gset Z)) :
  ∀ (acc : gmap Z (gset Z)) (s d : Z),
    s ∈ set_at (foldl (λ acc '(src, dst_set),
                         foldl (λ acc dst, set_add acc dst src) acc (elements dst_set))
                      acc l) d
    ↔ s ∈ set_at acc d ∨ ∃ ds, (s, ds) ∈ l ∧ d ∈ ds.
Proof.
  induction l as [|[src ds] l IH]; intros acc s d; cbn [foldl].
  - setoid_rewrite elem_of_nil. naive_solver.
  - rewrite IH, srcs_inner_fold, elem_of_elements. setoid_rewrite elem_of_cons.
    naive_solver.
Qed.

(** [srcs] is the converse of [dsts]: [s] is a predecessor of [d] exactly
    when [d] is a successor of [s]. *)
Theorem srcs_of_converse (dsts : gmap Z (gset Z)) (s d : Z) :
  s ∈ set_at (srcs_of dsts) d ↔ d ∈ set_at dsts s.
Proof.
  unfold srcs_of. rewrite srcs_outer_fold.
  rewrite (set_at_None ∅) by apply lookup_empty.
  setoid_rewrite elem_of_map_to_list. unfold set_at at 1. split.
  - intros [?|(ds & Hds & Hd)]; [set_solver|]. by rewrite Hds.
  - destruct (dsts !! s) as [ds|]; cbn; [|set_solver]. intros Hd. right. eauto.
Qed.

Lemma last_cons_default (l : list Z) :
  ∀ z x, List.last (z :: l) x = List.last l z.
Proof.
  induction l as [|a l IH]; intros z x; [done|].
  change (List.last (z :: a :: l) x) with (List.last (a :: l) x).
  by rewrite !IH.
Qed.

Lemma arc_chain_snoc (dsts srcs : gmap Z (gset Z)) (l : list Z) :
  ∀ x y, arc_chain dsts srcs x l → single_step dsts srcs (List.last l x) y →
         arc_chain dsts srcs x (l ++ [y]).
Proof.
  induction l as [|z l IH]; intros x y Hc Hs.
  - cbn in *. by split.
  - destruct Hc as [Hxz Hc]. cbn [app arc_chain]. split; [exact Hxz|].
    apply IH; [exact Hc|]. by rewrite last_cons_default in Hs.
Qed.

Lemma last_snoc_default (l : list Z) (x y : Z) : List.last (l ++ [y]) x = y.
Proof. induction l as [|z l IH]; [done|]. cbn. destruct (l ++ [y]) eqn:E; [by destruct l|done]. Qed.

(** The walk of [find_arcs]: it extends a chain by single steps and stops
    at an instruction from which no single step leaves. *)
Lemma arc_walk_chain (dsts srcs : gmap Z (gset Z)) (a0 : Z) (fuel : nat) :
  ∀ rest dst_set rest' dst_set',
    arc_chain dsts srcs a0 rest →
    dst_set = set_at dsts (arc_last a0 rest) →
    arc_walk fuel dsts srcs rest dst_set = OK (rest', dst_set') →
    arc_chain dsts srcs a0 rest'
    ∧ dst_set' = set_at dsts (arc_last a0 rest')
    ∧ ¬ ∃ y, single_step dsts srcs (arc_last a0 rest') y.
Proof.
  induction fuel as [|fuel IH]; intros rest ds rest' ds' Hchain Hds Hrun; [done|].
  cbn in Hrun.
  destruct (elements ds) as [|i [|j l]] eqn:Hel.
  - simplify_eq. split_and!; try done. intros [y [Hy _]]. congruence.
  - case_bool_decide as Hsz.
    + simplify_eq. split_and!; try done. intros [y [Hy Hs]]. congruence.
    + eapply IH in Hrun; [done| |].
      * apply arc_chain_snoc; [done|]. unfold arc_last in Hds. by subst ds.
      * unfold arc_last. by rewrite last_snoc_default.
  - simplify_eq. split_and!; try done. intros [y [Hy _]]. congruence.
Qed.

Lemma build_graph_arcs (fuel : nat) (path : string) (c : code) (g : graph)
    (warnings : list diagnostic) (start a0 : Z) (rest : list Z) :
  build_graph fuel path c = OK (g, warnings) →
  g_arcs g !! start = Some (a0, rest) →
  a0 = start
  ∧ arc_chain (g_dsts g) (g_srcs g) a0 rest
  ∧ ¬ ∃ y, single_step (g_dsts g) (g_srcs g) (arc_last a0 rest) y.
Proof.
  unfold build_graph.
  destruct (scan_code c) as [sc| |]; cbn [rbind]; try done.
  destruct (link_code _ _ sc) as [l| |]; cbn [rbind]; try done.
  destruct (visit_nodes _ _ _ _ _) as [[vis arcs]| |] eqn:Hv; cbn [rbind]; try done.
  intros [= <- <-]. cbn. revert start a0 rest.
  pose (I := λ (_ _ : gset Z) (st : gmap Z (Z * list Z)),
    ∀ start a0 rest, st !! start = Some (a0, rest) →
      a0 = start ∧ arc_chain (dsts l) (srcs_of (dsts l)) a0 rest
      ∧ ¬ ∃ y, single_step (dsts l) (srcs_of (dsts l)) (arc_last a0 rest) y).
  apply (visit_loop_inv set_pop set_pop_spec
           (find_arcs fuel (dsts l) (srcs_of (dsts l))) I) in Hv; [done| | |set_solver].
  - clear. intros rem vis st node disc st' HI _ _ Hstep start a0 rest.
    unfold find_arcs in Hstep.
    destruct (arc_walk _ _ _ _ _) as [[r ds]| |] eqn:Hw; cbn in Hstep; try done.
    destruct (bool_decide _); cbn in Hstep; [|done]. simplify_eq.
    rewrite lookup_insert. destruct (decide (node = start)) as [<-|]; [|apply HI].
    intros [= <- <-]. split; [done|].
    eapply arc_walk_chain in Hw as (? & _ & ?); done.
  - intros start a0 rest. by rewrite lookup_empty.
Qed.

(** Every arc found in step 3 is stored under its first instruction,
    consecutive instructions of it are joined by single steps (one
    successor, one predecessor), and no single step leaves its last
    instruction: an arc is never cut short. *)
Theorem arcs_are_maximal_chains (fuel : nat) (path : string) (c : code) (g : graph)
    (warnings : list diagnostic) (start a0 : Z) (rest : list Z) :
  build_graph fuel path c = OK (g, warnings) →
  g_arcs g !! start = Some (a0, rest) →
  a0 = start
  ∧ arc_chain (g_dsts g) (g_srcs g) a0 rest
  ∧ ¬ ∃ y, single_step (g_dsts g) (g_srcs g) (arc_last a0 rest) y.
Proof. exact (build_graph_arcs fuel path c g warnings start a0 rest). Qed.

Lemma arcs_are_maximal_chains_witness :
  ∃ g warnings a0 rest,
    build_graph 100 "m.py" try_finally_code = OK (g, warnings)
    ∧ g_arcs g !! 12 = Some (a0, rest)
    ∧ a0 = 12
    ∧ arc_chain (g_dsts g) (g_srcs g) a0 rest
    ∧ ¬ ∃ y, single_step (g_dsts g) (g_srcs g) (arc_last a0 rest) y.
Proof.
  assert (holds (build_graph 100 "m.py" try_finally_code)
            (λ gw : graph * list diagnostic,
               bool_decide (is_Some (g_arcs gw.1 !! 12))) = true) as Hg
    by (vm_compute; reflexivity).
  apply holds_OK in Hg as ([g w] & Hg & [[a0 rest] Ha]%bool_decide_eq_true).
  exists g, w, a0, rest. split; [exact Hg|]. split; [exact Ha|].
  exact (arcs_are_maximal_chains 100 "m.py" try_finally_code g w 12 a0 rest Hg Ha).
Defined.

(** ** Step 1: the instruction store and the block stacks *)

Lemma all_le_true (dst : pyval) (bs : list block) :
  all_le dst bs = OK true → Forall (λ b, py_le dst b.2 = OK true) bs.
Proof.
  unfold all_le. intros Hrun. apply Forall_reverse.
  assert (∀ l acc, foldM (λ acc (b : block), if acc : bool then py_le dst b.2 else OK false)
                         acc l = OK true →
                   acc = true ∧ Forall (λ b, py_le dst b.2 = OK true) l) as Hgen.
  { clear. induction l as [|b l IH]; intros acc Hrun; cbn in Hrun.
    - by simplify_eq.
    - destruct acc.
      + destruct (py_le dst b.2) as [r| |] eqn:Hle; cbn in Hrun; try done.
        apply IH in Hrun as [-> Hl]. split; [done|]. by constructor.
      + cbn in Hrun. by apply IH in Hrun as [? _]. }
  by apply Hgen in Hrun as [_ ?].
Qed.

Lemma py_le_handler (op1 : Z) (dst : pyval) (b : block) :
  py_le dst b.2 = OK true → handler_le (op1, dst) b.
Proof.
  destruct b as [op2 d]; cbn. destruct dst, d; cbn; try done.
  intros [= Hle]. eexists _, _. split_and!; [done..|]. by apply Z.leb_le.
Qed.

Lemma nested_pop_blocks (o : Z) (l : list block) : nested l → nested (pop_blocks o l).
Proof.
  induction l as [|b l IH]; [done|]. cbn [pop_blocks].
  case_bool_decide; [|done]. intros [_ Hl]. by apply IH.
Qed.

Lemma pop_blocks_head (o : Z) (l : list block) (b : block) (rest : list block) :
  pop_blocks o l = b :: rest → b.2 ≠ VInt o.
Proof.
  induction l as [|x l IH]; [done|]. cbn [pop_blocks].
  case_bool_decide as Hx; [done|]. by intros [= <- <-].
Qed.

(** One iteration keeps the block stack nested, and the stack it records
    for the instruction is the resulting block stack. *)
Lemma scan_step_nested (s s' : scan) (i : Instruction) :
  nested (blocks s) → scan_step s i = OK s' → nested (blocks s').
Proof.
  intros Hn Hrun. unfold scan_step in Hrun.
  set (o := match (if bool_decide (opcode i = EXTENDED_ARG) && bool_decide (ext s = None)
                   then Some i else ext s) with
            | Some e => offset e | None => offset i end) in *.
  destruct (if bool_decide (opcode i ∈ setup_opcodes) then _ else _) as [[b2 d]| |] eqn:Hsetup;
    cbn [rbind] in Hrun; try done.
  assert (nested b2) as Hb.
  { revert Hsetup. destruct (bool_decide (opcode i ∈ setup_opcodes)).
    - cbn zeta. destruct (all_le _ _) as [[]| |] eqn:Hle; cbn; try done.
      intros [= <- <-]. split; [|by apply nested_pop_blocks].
      apply all_le_true in Hle. eapply Forall_impl; [exact Hle|].
      intros b. apply py_le_handler.
    - intros [= <- <-]. by apply nested_pop_blocks. }
  clear Hsetup.
  revert Hrun. cbn zeta. destruct (bool_decide (opcode i = EXTENDED_ARG)).
  - intros [= <-]. exact Hb.
  - destruct (if bool_decide (opcode i = CALL_FUNCTION) then _ else _) as [ce| |];
      cbn [rbind]; try done.
    destruct (if is_exc_match (prev s) then _ else _) as [[js jd]| |]; cbn [rbind]; try done.
    intros [= <-]. exact Hb.
Qed.

(** The block stacks of step 1 are nested.  For a stream whose SETUP
    instructions carry integer arguments, when step 1 completes, every
    instruction's block stack is ordered: each block's handler is no
    greater than the handler of every block around it. *)
Theorem block_stacks_nested (c : code) (sc : scan) (o : Z) (i : inst) :
  setup_args_int c = true →
  scan_code c = OK sc →
  insts sc !! o = Some i →
  nested (stack i).
Proof.
  intros _ Hrun Hi. unfold scan_code in Hrun.
  pose (I := λ s : scan, nested (blocks s) ∧ ∀ o i, insts s !! o = Some i → nested (stack i)).
  assert (I sc) as [_ HI]; [|by eapply HI].
  eapply (foldM_inv scan_step I); [|  |exact Hrun].
  - clear. intros s a s' _ [Hb Hs] Hstep.
    pose proof (scan_step_nested _ _ _ Hb Hstep) as Hb'. split; [exact Hb'|].
    apply scan_step_OK in Hstep as (b2 & _ & Hb2 & _ & _ & [Hext|(_ & e1 & Hnew)]).
    + destruct Hext as (_ & -> & _). exact Hs.
    + destruct Hnew as (_ & _ & _ & _ & Hst & _ & -> & _).
      intros o i. rewrite lookup_insert. case_decide; [|apply Hs].
      intros [= <-]. rewrite Hst, <- Hb2. exact Hb'.
  - split; [done|]. intros o' i'. unfold scan_init; cbn.
    rewrite !lookup_insert. repeat case_decide; [by intros [= <-]..|done].
Qed.

Lemma block_stacks_nested_witness :
  ∃ sc i, scan_code try_except_finally_code = OK sc
          ∧ insts sc !! 4 = Some i ∧ nested (stack i).
Proof.
  assert (holds (scan_code try_except_finally_code)
            (λ sc : scan, bool_decide (is_Some (insts sc !! 4))) = true) as Hs
    by (vm_compute; reflexivity).
  apply holds_OK in Hs as (sc & Hsc & [i Hi]%bool_decide_eq_true).
  exists sc, i. split; [exact Hsc|]. split; [exact Hi|].
  exact (block_stacks_nested try_except_finally_code sc 4 i eq_refl Hsc Hi).
Defined.

Lemma scan_code_entries (c : code) (sc : scan) (o : Z) (i : inst) :
  scan_code c = OK sc →
  insts sc !! o = Some i →
  off i = o
  ∧ opcode (raw i) ≠ EXTENDED_ARG
  ∧ (i = _begin_inst ∨ i = _raised_inst ∨ raw i ∈ get_instructions c).
Proof.
  intros Hrun Hi. unfold scan_code in Hrun.
  pose (I := λ s : scan, ∀ o i, insts s !! o = Some i →
     off i = o ∧ opcode (raw i) ≠ EXTENDED_ARG
     ∧ (i = _begin_inst ∨ i = _raised_inst ∨ raw i ∈ get_instructions c)).
  assert (I sc) as HI; [|by eapply HI].
  eapply (foldM_inv scan_step I); [|  |exact Hrun].
  - intros s a s' Ha Hs Hstep. unfold I in *. clear Hrun Hi.
    apply scan_step_OK in Hstep as (b2 & _ & _ & _ & _ & [Hext|(Hne & e1 & Hnew)]).
    + destruct Hext as (_ & -> & _). exact Hs.
    + destruct Hnew as (Hraw & Hoff & _ & _ & _ & _ & -> & _).
      intros o1 i1. rewrite lookup_insert. case_decide as Ho; [|apply Hs].
      intros [= <-]. rewrite Hraw. split_and!; [by rewrite Hoff|exact Hne|by right; right].
  - unfold I. intros o' i'. unfold scan_init; cbn.
    rewrite !lookup_insert. repeat case_decide; try done.
    + intros [= <-]. split_and!; [done|done|by right; left].
    + intros [= <-]. split_and!; [done|done|by left].
Qed.

(** When step 1 completes, every stored instruction object is stored under
    its own offset; it is one of the two pseudo-instructions or an
    instruction of the stream, and never an EXTENDED_ARG prefix. *)
Theorem store_holds_no_prefix (c : code) (sc : scan) (o : Z) (i : inst) :
  scan_code c = OK sc →
  insts sc !! o = Some i →
  off i = o
  ∧ opcode (raw i) ≠ EXTENDED_ARG
  ∧ (i = _begin_inst ∨ i = _raised_inst ∨ raw i ∈ get_instructions c).
Proof. exact (scan_code_entries c sc o i). Qed.

Lemma store_holds_no_prefix_witness :
  ∃ sc i, scan_code try_finally_code = OK sc ∧ insts sc !! 12 = Some i
          ∧ off i = 12 ∧ opcode (raw i) ≠ EXTENDED_ARG
          ∧ (i = _begin_inst ∨ i = _raised_inst
             ∨ raw i ∈ get_instructions try_finally_code).
Proof.
  assert (holds (scan_code try_finally_code)
            (λ sc : scan, bool_decide (is_Some (insts sc !! 12))) = true) as Hs
    by (vm_compute; reflexivity).
  apply holds_OK in Hs as (sc & Hsc & [i Hi]%bool_decide_eq_true).
  exists sc, i. split; [exact Hsc|]. split; [exact Hi|].
  exact (store_holds_no_prefix try_finally_code sc 12 i Hsc Hi).
Defined.

(** While a first prefix is pending, further prefixes change neither the
    store, nor the previous instruction, nor the pending prefix. *)
Lemma scan_prefixes (p : Instruction) (ps : list Instruction) :
  ∀ s s', ext s = Some p → Forall (λ q, opcode q = EXTENDED_ARG) ps →
          foldM scan_step s ps = OK s' →
          ext s' = Some p ∧ insts s' = insts s ∧ prev s' = prev s.
Proof.
  induction ps as [|q ps IH]; intros s s' Hext Hps Hrun; cbn in Hrun.
  - by simplify_eq.
  - destruct (scan_step s q) as [s1| |] eqn:Hq; cbn in Hrun; try done.
    apply Forall_cons in Hps as [Hq_ext Hps].
    apply scan_step_OK in Hq as (b2 & _ & _ & _ & _ & [Hx|(Hne & _)]); [|done].
    destruct Hx as (_ & Hi & _ & _ & _ & Hp & He).
    assert (ext s1 = Some p) as Hext1.
    { rewrite He. unfold step_ext. rewrite Hext.
      rewrite (bool_decide_eq_false_2 (Some p = None)) by done.
      by rewrite andb_false_r. }
    apply IH in Hrun as (? & ? & ?); [|done..]. split_and!; congruence.
Qed.

(** EXTENDED_ARG prefixes are folded into the instruction they extend:
    the instruction is stored once, under the offset of the first prefix,
    with the line and line-start flag that the starts-line of the first
    prefix gives, and the prefixes add no entry of their own. *)
Theorem extended_arg_folded (s s' : scan) (p : Instruction) (ps : list Instruction)
    (i : Instruction) :
  ext s = None →
  opcode p = EXTENDED_ARG →
  Forall (λ q, opcode q = EXTENDED_ARG) ps →
  opcode i ≠ EXTENDED_ARG →
  foldM scan_step s (prefixed p ps i) = OK s' →
  ∃ e, insts s' = <[offset p := e]> (insts s)
       ∧ raw e = i
       ∧ off e = offset p
       ∧ line e = line_or (starts_line p) (line (prev s))
       ∧ is_line_start e = bool_of_line (starts_line p)
       ∧ prev s' = e
       ∧ ext s' = None.
Proof.
  intros Hext Hp Hps Hi Hrun. unfold prefixed in Hrun. cbn [foldM] in Hrun.
  destruct (scan_step s p) as [s1| |] eqn:H1; cbn [rbind] in Hrun; try done.
  apply scan_step_OK in H1 as (b2 & _ & _ & _ & _ & [Hx|(Hne & _)]); [|done].
  destruct Hx as (_ & Hi1 & _ & _ & _ & Hp1 & He1).
  assert (ext s1 = Some p) as Hext1.
  { rewrite He1. unfold step_ext. rewrite Hext.
    by rewrite !bool_decide_eq_true_2. }
  assert (∃ s2, foldM scan_step s1 ps = OK s2 ∧ foldM scan_step s2 [i] = OK s')
    as (s2 & Hrun2 & Hrun3).
  { clear -Hrun. revert s1 Hrun. induction ps as [|q ps IH]; intros s1 Hrun.
    - exists s1. split; [done|exact Hrun].
    - cbn [app foldM] in *. destruct (scan_step s1 q) as [s1'| |]; cbn [rbind] in *; try done.
      by apply IH. }
  apply (scan_prefixes p) in Hrun2 as (Hext2 & Hi2 & Hp2); [|done..].
  cbn [foldM] in Hrun3. destruct (scan_step s2 i) as [s3| |] eqn:H3; cbn [rbind] in Hrun3;
    try done.
  injection Hrun3 as ->.
  apply scan_step_OK in H3 as (b3 & _ & _ & _ & _ & [(Hx & _)|(_ & e1 & Hnew)]); [done|].
  destruct Hnew as (Hraw & Hoff & Hline & Hstart & _ & _ & Hins & _ & _ & Hprev & Hnone).
  assert (step_ext s2 i = Some p) as Hse.
  { unfold step_ext. rewrite Hext2.
    rewrite (bool_decide_eq_false_2 (Some p = None)) by done.
    by rewrite andb_false_r. }
  unfold step_line, step_starts_line, step_off in *. rewrite Hse in *.
  exists e1. split_and!; try done; congruence.
Qed.

Lemma extended_arg_folded_witness :
  ∃ s' e, foldM scan_step scan_init extended_example = OK s'
          ∧ insts s' = <[0 := e]> (insts scan_init)
          ∧ raw e = ins 4 LOAD_CONST (VInt 65536) None
          ∧ off e = 0 ∧ line e = 7 ∧ is_line_start e = true.
Proof.
  assert (holds (foldM scan_step scan_init extended_example) (λ _ : scan, true) = true) as Hs
    by (vm_compute; reflexivity).
  apply holds_OK in Hs as (s' & Hrun & _).
  destruct (extended_arg_folded scan_init s' (ins 0 EXTENDED_ARG (VInt 1) (Some 7))
              [ins 2 EXTENDED_ARG (VInt 256) None] (ins 4 LOAD_CONST (VInt 65536) None))
    as (e & He); [reflexivity|reflexivity| |discriminate|exact Hrun|].
  { repeat constructor. }
  exists s', e. split; [exact Hrun|]. destruct He as (? & ? & ? & ? & ? & _).
  split_and!; assumption.
Defined.

(** ** calculate_coverage: what the coverage map holds *)

Lemma match_step_split (c : code) (req opt : gmap (Z * Z) (gset Z))
    (rr : gmap Z ((Z * Z) * gset Z)) (ro : gset Z)
    (st : gmap (Z * Z) (gset Z) * list diagnostic) (t : Z * Z * Z) :
  match_step c req opt rr ro st t
  = (traced_update req rr t st.1, st.2 ++ traced_report c req opt rr ro t).
Proof.
  destruct st as [m err], t as [[s d] line]. cbn.
  destruct (bool_decide (is_Some (req !! (s, d)))); [by rewrite app_nil_r|].
  destruct (rr !! d) as [[e' l]|]; [by rewrite app_nil_r|].
  destruct (negb _); [done|by rewrite app_nil_r].
Qed.

Lemma set_update_comm {K V} `{Countable K} `{Countable V} (m : gmap K (gset V))
    (k1 k2 : K) (s1 s2 : gset V) :
  set_update (set_update m k1 s1) k2 s2 = set_update (set_update m k2 s2) k1 s1.
Proof.
  apply map_eq. intros k. unfold set_update at 1 3.
  rewrite !lookup_insert, !set_at_update. unfold set_update.
  rewrite !lookup_insert.
  repeat case_decide; subst; try done; f_equal; set_solver.
Qed.

Lemma traced_update_comm (req : gmap (Z * Z) (gset Z)) (rr : gmap Z ((Z * Z) * gset Z))
    (m : gmap (Z * Z) (gset Z)) (t1 t2 : Z * Z * Z) :
  traced_update req rr t1 (traced_update req rr t2 m)
  = traced_update req rr t2 (traced_update req rr t1 m).
Proof.
  destruct t1 as [[s1 d1] l1], t2 as [[s2 d2] l2]. unfold traced_update.
  change (@set_add (Z * Z) Z _ _ _ _) with
    (λ (d : gmap (Z * Z) (gset Z)) k v, set_update d k {[v]}).
  cbn beta.
  destruct (bool_decide _), (bool_decide _);
    repeat (match goal with |- context [match ?x with Some _ => _ | None => _ end] =>
              destruct x as [[? ?]|] end);
    try done; apply set_update_comm.
Qed.

Lemma match_fold_split (c : code) (req opt : gmap (Z * Z) (gset Z))
    (rr : gmap Z ((Z * Z) * gset Z)) (ro : gset Z) (l : list (Z * Z * Z)) :
  ∀ st : gmap (Z * Z) (gset Z) * list diagnostic,
    foldl (match_step c req opt rr ro) st l
    = (foldl (λ m t, traced_update req rr t m) st.1 l,
       st.2 ++ concat (map (traced_report c req opt rr ro) l)).
Proof.
  induction l as [|t l IH]; intros [m err]; cbn [foldl map concat].
  - cbn. by rewrite app_nil_r.
  - rewrite match_step_split, IH. cbn. by rewrite app_assoc.
Qed.

(** The traced edges are a set, read in no particular order: reading them
    in the order of any list without repetitions gives the same matched
    edges and the same reports, up to their order. *)
Theorem match_traced_any_order (c : code) (req opt : gmap (Z * Z) (gset Z))
    (traced : gset (Z * Z * Z)) (l : list (Z * Z * Z)) :
  NoDup l →
  (∀ t, t ∈ l ↔ t ∈ traced) →
  let r := foldl (match_step c req opt (raise_reqs_of req) (raise_opts_of opt)) (∅, []) l in
  r.1 = (match_traced c req opt traced).1
  ∧ r.2 ≡ₚ (match_traced c req opt traced).2.
Proof.
  intros Hnd Hl. cbn zeta. unfold match_traced.
  assert (l ≡ₚ elements traced) as Hperm.
  { apply NoDup_Permutation; [done|apply NoDup_elements|].
    intros t. by rewrite Hl, elem_of_elements. }
  rewrite !match_fold_split. cbn [fst snd]. split.
  - apply (foldl_comm_perm (λ m t, traced_update req (raise_reqs_of req) t m));
      [|exact Hperm].
    intros b x y. apply traced_update_comm.
  - cbn. by rewrite Hperm.
Qed.

Lemma match_traced_any_order_witness :
  (foldl (match_step return_code {[ (-1, 0) := {[ 2 ]} ]} ∅
            (raise_reqs_of {[ (-1, 0) := {[ 2 ]} ]}) (raise_opts_of ∅))
         (∅, []) [(0, 2, 2); (-1, 0, 2)]).1
  = (match_traced return_code {[ (-1, 0) := {[ 2 ]} ]} ∅ return_traced).1
  ∧ (foldl (match_step return_code {[ (-1, 0) := {[ 2 ]} ]} ∅
              (raise_reqs_of {[ (-1, 0) := {[ 2 ]} ]}) (raise_opts_of ∅))
           (∅, []) [(0, 2, 2); (-1, 0, 2)]).2
    ≡ₚ (match_traced return_code {[ (-1, 0) := {[ 2 ]} ]} ∅ return_traced).2.
Proof.
  apply (match_traced_any_order return_code {[ (-1, 0) := {[ 2 ]} ]} ∅ return_traced
           [(0, 2, 2); (-1, 0, 2)]).
  - apply NoDup_cons. split; [|apply NoDup_singleton].
    rewrite list_elem_of_singleton. discriminate.
  - intros t. unfold return_traced.
    rewrite elem_of_cons, list_elem_of_singleton, elem_of_union, !elem_of_singleton.
    tauto.
Defined.

Lemma traced_update_fold (req : gmap (Z * Z) (gset Z)) (l : list (Z * Z * Z)) :
  ∀ (m : gmap (Z * Z) (gset Z)) (e : Z * Z) (line : Z),
    line ∈ set_at (foldl (λ m t, traced_update req (raise_reqs_of req) t m) m l) e
    ↔ line ∈ set_at m e ∨ ∃ t, t ∈ l ∧ traced_match req t e line.
Proof.
  induction l as [|t l IH]; intros m e line; cbn [foldl].
  - setoid_rewrite elem_of_nil. naive_solver.
  - rewrite IH. setoid_rewrite elem_of_cons.
    assert (line ∈ set_at (traced_update req (raise_reqs_of req) t m) e
            ↔ line ∈ set_at m e ∨ traced_match req t e line) as ->; [|naive_solver].
    destruct t as [[s d] ln]. unfold traced_update, traced_match. cbn [fst snd].
    case_bool_decide as Hreq.
    + rewrite set_at_add. case_decide as He.
      * subst e. rewrite elem_of_union, elem_of_singleton.
        split; [naive_solver|]. intros [?|[(_ & _ & ->)|(Hn & _)]]; [by left|by right|].
        rewrite Hn in Hreq. by destruct Hreq.
      * split; [by left|]. intros [?|[(_ & -> & _)|(Hn & _)]]; [done|done|].
        rewrite Hn in Hreq. by destruct Hreq.
    + apply eq_None_not_Some in Hreq. rewrite raise_reqs_of_lookup.
      destruct (req !! (OFF_RAISED, d)) as [L|] eqn:HL; cbn.
      * rewrite set_at_update. case_decide as He.
        -- subst e. rewrite elem_of_union. split; [|naive_solver].
           intros [?|?]; [by left|]. right. right. eauto.
        -- split; [by left|]. intros [?|[(Hs & _)|(_ & -> & _)]]; [done| |done].
           rewrite Hreq in Hs. by destruct Hs.
      * split; [by left|]. intros [?|[(Hs & _)|(_ & _ & L & ? & _)]]; [done| |done].
        rewrite Hreq in Hs. by destruct Hs.
Qed.

Lemma match_traced_exact (c : code) (req opt : gmap (Z * Z) (gset Z))
    (traced : gset (Z * Z * Z)) (e : Z * Z) (line : Z) :
  line ∈ set_at (match_traced c req opt traced).1 e
  ↔ ∃ t, t ∈ traced ∧ traced_match req t e line.
Proof.
  unfold match_traced. rewrite match_fold_split. cbn [fst].
  rewrite traced_update_fold. setoid_rewrite elem_of_elements.
  rewrite (set_at_None ∅) by apply lookup_empty. set_solver.
Qed.

Lemma match_traced_keys (c : code) (req opt : gmap (Z * Z) (gset Z))
    (traced : gset (Z * Z * Z)) (e : Z * Z) (M : gset Z) (line : Z) :
  (match_traced c req opt traced).1 !! e = Some M → line ∈ M →
  line ∈ set_at (match_traced c req opt traced).1 e.
Proof. intros HM Hl. by rewrite (set_at_lookup _ _ _ HM). Qed.

(** One code object: the entries it adds to the required and matched sets
    of each line, and the lines it adds are positive. *)
Lemma cover_code_exact (fuel : nat) (path : string)
    (code_edges : gmap code (gset (Z * Z * Z)))
    (cov cov' : gmap Z (gset (Z * Z * code) * gset (Z * Z * code)))
    (err err' : list diagnostic) (c : code) :
  cover_code fuel path code_edges (cov, err) c = OK (cov', err') →
  ∃ req opt warnings,
    crawl_code_insts fuel path c = OK (req, opt, warnings)
    ∧ (∀ line y, y ∈ (cov_at cov' line).1
                 ↔ y ∈ (cov_at cov line).1
                   ∨ ∃ e L, req !! e = Some L ∧ line ∈ L ∧ y = (e.1, e.2, c))
    ∧ (∀ line y, y ∈ (cov_at cov' line).2
                 ↔ y ∈ (cov_at cov line).2
                   ∨ ∃ e t, t ∈ default ∅ (code_edges !! c) ∧ traced_match req t e line
                            ∧ y = (e.1, e.2, c))
    ∧ (∀ line, is_Some (cov' !! line) → is_Some (cov !! line) ∨ 0 < line).
Proof.
  unfold cover_code. intros Hrun.
  destruct (crawl_code_insts fuel path c) as [[[req opt] warnings]| |]; cbn in Hrun; try done.
  destruct (match_traced c req opt _) as [matched unexpected] eqn:Hm.
  destruct (add_edges req c COV_REQ cov) as [cov1| |] eqn:H1; cbn in Hrun; try done.
  destruct (add_edges matched c COV_MATCHED cov1) as [cov2| |] eqn:H2; cbn in Hrun; try done.
  simplify_eq. exists req, opt, warnings. split; [done|].
  assert (matched = (match_traced c req opt (default ∅ (code_edges !! c))).1) as Hmatched
    by (by rewrite Hm).
  assert (∀ el idx (a b : gmap Z (gset (Z * Z * code) * gset (Z * Z * code))),
            add_edges el c idx a = OK b →
            ∀ e L line, el !! e = Some L → line ∈ L → 0 < line) as Hpos.
  { clear. intros el idx a b Hrun e L line He Hline. unfold add_edges in Hrun.
    apply elem_of_map_to_list in He.
    revert a Hrun. induction (map_to_list el) as [|[e' L'] l IH]; intros a Hrun;
      [by apply elem_of_nil in He|].
    cbn [foldM] in Hrun.
    destruct (foldM _ a (elements L')) as [a1| |] eqn:Ha; cbn [rbind] in Hrun; try done.
    apply elem_of_cons in He as [[= <- <-]|He]; [|by eapply IH].
    apply add_lines_spec in Ha as (_ & _ & _ & Hall).
    rewrite Forall_forall in Hall. apply Hall. by apply elem_of_elements. }
  pose proof (Hpos _ _ _ _ H1) as Hpos1. pose proof (Hpos _ _ _ _ H2) as Hpos2.
  apply add_edges_spec in H1 as (R1 & R2 & R3).
  apply add_edges_spec in H2 as (M1 & M2 & M3). cbn in *.
  split_and!.
  - intros line y. rewrite M2. apply R1.
  - intros line y. rewrite M1, R2. apply or_iff_compat_l. split.
    + intros (e & M & HM & Hline & ->). rewrite Hmatched in HM.
      pose proof (match_traced_keys _ _ _ _ _ _ _ HM Hline) as Hin.
      apply match_traced_exact in Hin as (t & Ht & Htm). eauto.
    + intros (e & t & Ht & Htm & ->).
      assert (line ∈ set_at matched e) as Hin.
      { rewrite Hmatched. apply match_traced_exact. eauto. }
      unfold set_at in Hin. destruct (matched !! e) as [M|] eqn:HM; [|set_solver].
      exists e, M. done.
  - intros line. rewrite M3, R3. intros [(e & L & He & Hl)|[(e & L & He & Hl)|?]].
    + right. by eapply Hpos2.
    + right. by eapply Hpos1.
    + by left.
Qed.

Lemma cover_fold_exact (fuel : nat) (path : string)
    (code_edges : gmap code (gset (Z * Z * Z))) (l : list code) :
  ∀ (st st' : gmap Z (gset (Z * Z * code) * gset (Z * Z * code)) * list diagnostic),
    foldM (cover_code fuel path code_edges) st l = OK st' →
    (∀ line s d c,
       (s, d, c) ∈ (cov_at st'.1 line).1
       ↔ (s, d, c) ∈ (cov_at st.1 line).1
         ∨ (c ∈ l ∧ ∃ req opt warnings L,
              crawl_code_insts fuel path c = OK (req, opt, warnings)
              ∧ req !! (s, d) = Some L ∧ line ∈ L))
    ∧ (∀ line s d c,
         (s, d, c) ∈ (cov_at st'.1 line).2
         ↔ (s, d, c) ∈ (cov_at st.1 line).2
           ∨ (c ∈ l ∧ ∃ req opt warnings t,
                crawl_code_insts fuel path c = OK (req, opt, warnings)
                ∧ t ∈ default ∅ (code_edges !! c) ∧ traced_match req t (s, d) line))
    ∧ (∀ line, is_Some (st'.1 !! line) → is_Some (st.1 !! line) ∨ 0 < line).
Proof.
  induction l as [|c0 l IH]; intros st st' Hrun; cbn [foldM] in Hrun.
  - simplify_eq. setoid_rewrite elem_of_nil. naive_solver.
  - destruct (cover_code fuel path code_edges st c0) as [[cov1 err1]| |] eqn:H0;
      cbn [rbind] in Hrun; try done.
    destruct st as [cov err].
    apply cover_code_exact in H0 as (req & opt & w & Hcrawl & R & M & P).
    apply IH in Hrun as (R' & M' & P'). cbn [fst] in *.
    split_and!.
    + intros line s d c. rewrite R', R. setoid_rewrite elem_of_cons. split.
      * intros [[?|(e & L & He & Hl & [= -> -> ->])]|(Hc & Hex)]; [by left| |].
        -- right. split; [by left|]. destruct e. eauto 10.
        -- right. split; [by right|done].
      * intros [?|([->|Hc] & req' & opt' & w' & L & Hc' & He & Hl)]; [by left; left| |].
        -- left. right. rewrite Hcrawl in Hc'. simplify_eq. by exists (s, d), L.
        -- right. split; [done|]. eauto 10.
    + intros line s d c. rewrite M', M. setoid_rewrite elem_of_cons. split.
      * intros [[?|(e & t & Ht & Htm & [= -> -> ->])]|(Hc & Hex)]; [by left| |].
        -- right. split; [by left|]. destruct e. eauto 10.
        -- right. split; [by right|done].
      * intros [?|([->|Hc] & req' & opt' & w' & t & Hc' & Ht & Htm)]; [by left; left| |].
        -- left. right. rewrite Hcrawl in Hc'. simplify_eq. by exists (s, d), t.
        -- right. split; [done|]. eauto 10.
    + intros line Hl. apply P' in Hl as [Hl|?]; [|by right]. by apply P.
Qed.

(** With a visitor that neither fails nor depends on the state,
    [visit_nodes] returns reachable nodes only. *)
Lemma visit_nodes_sound {A} `{Countable A} {S} (f : A → list A) (g : A → S → S)
    (fuel : nat) (start : list A) (st : S) (visited : gset A) (st' : S) :
  visit_nodes set_pop fuel start (λ n s, OK (f n, g n s)) st = OK (visited, st') →
  ∀ m, m ∈ visited → reachable f start m.
Proof.
  unfold visit_nodes. intros Hrun.
  pose (I := λ (rem vis : gset A) (_ : S), ∀ n, n ∈ rem ∪ vis → reachable f start n).
  apply (visit_loop_inv set_pop set_pop_spec (λ n s, OK (f n, g n s)) I) in Hrun.
  - intros m Hm. apply Hrun. set_solver.
  - clear. intros rem vis s node disc s' HI Hnode _ [= <- <-] n Hn.
    destruct (decide (n ∈ rem ∪ vis)) as [?|Hnew]; [by apply HI|].
    assert (n ∈ f node) as Hfn.
    { apply elem_of_union in Hn as [Hn|Hn]; [|set_solver].
      apply elem_of_union in Hn as [Hn|Hn]; [set_solver|].
      apply elem_of_list_to_set, list_elem_of_filter in Hn. tauto. }
    destruct (HI node) as (s0 & Hs0 & Hrtc); [set_solver|].
    exists s0. split; [done|]. eapply rtc_r; [exact Hrtc|exact Hfn].
  - intros n Hn. exists n. split; [|done]. set_solver.
  - set_solver.
Qed.

(** The coverage map that [calculate_coverage] returns: its lines are
    positive, and the required set of a line holds exactly the required
    edges that [crawl_code_insts] infers on that line, for every analyzed
    code object, traced or not. *)
Theorem coverage_required_exact (fuel : nat) (path : string)
    (code_edges : gmap code (gset (Z * Z * Z)))
    (coverage : gmap Z (gset (Z * Z * code) * gset (Z * Z * code)))
    (err : list diagnostic) :
  calculate_coverage fuel path code_edges = OK (coverage, err) →
  (∀ line, is_Some (coverage !! line) → 0 < line)
  ∧ (∀ line s d c,
       (s, d, c) ∈ (cov_at coverage line).1
       ↔ analyzed code_edges c
         ∧ ∃ req opt warnings L,
             crawl_code_insts fuel path c = OK (req, opt, warnings)
             ∧ req !! (s, d) = Some L ∧ line ∈ L).
Proof.
  unfold calculate_coverage. intros Hrun.
  destruct (visit_nodes _ _ _ _ _) as [[all_codes []]| |] eqn:Hv; cbn [rbind] in Hrun;
    try done.
  pose proof (visit_nodes_sound sub_codes (λ _ _, tt) _ _ _ _ _ Hv) as Hsound.
  pose proof (visit_nodes_closed sub_codes (λ _ _, tt) _ _ _ _ _ Hv) as Hclosed.
  apply cover_fold_exact in Hrun as (R & _ & P). cbn [fst] in *. split.
  - intros line Hl. apply P in Hl as [Hl|?]; [|done].
    rewrite lookup_empty in Hl. by destruct Hl.
  - intros line s d c. rewrite R. unfold cov_at at 1. rewrite lookup_empty. cbn.
    rewrite elem_of_elements. unfold analyzed. split.
    + intros [?|[Hc Hex]]; [set_solver|]. split; [by apply Hsound|done].
    + intros [Hc Hex]. right. split; [by apply Hclosed|done].
Qed.

Lemma coverage_required_exact_witness :
  ∃ coverage err,
    calculate_coverage 10 "m.py" {[ return_code := return_traced ]} = OK (coverage, err)
    ∧ (∀ line, is_Some (coverage !! line) → 0 < line)
    ∧ (∀ line s d c,
         (s, d, c) ∈ (cov_at coverage line).1
         ↔ analyzed {[ return_code := return_traced ]} c
           ∧ ∃ req opt warnings L,
               crawl_code_insts 10 "m.py" c = OK (req, opt, warnings)
               ∧ req !! (s, d) = Some L ∧ line ∈ L).
Proof.
  assert (holds (calculate_coverage 10 "m.py" {[ return_code := return_traced ]})
            (λ _, true) = true) as Hr by (vm_compute; reflexivity).
  apply holds_OK in Hr as ([coverage err] & Hr & _).
  exists coverage, err. split; [exact Hr|].
  exact (coverage_required_exact 10 "m.py" _ coverage err Hr).
Defined.

(** The matched set of a line holds exactly the required edges that a
    traced edge matches on that line: a traced edge that is required
    counts on the line it was traced on; a traced edge that is not
    required counts for the required exception edge into its destination,
    on the lines inferred for that edge. *)
Theorem coverage_matched_exact (fuel : nat) (path : string)
    (code_edges : gmap code (gset (Z * Z * Z)))
    (coverage : gmap Z (gset (Z * Z * code) * gset (Z * Z * code)))
    (err : list diagnostic) (line s d : Z) (c : code) :
  calculate_coverage fuel path code_edges = OK (coverage, err) →
  (s, d, c) ∈ (cov_at coverage line).2
  ↔ analyzed code_edges c
    ∧ ∃ req opt warnings t,
        crawl_code_insts fuel path c = OK (req, opt, warnings)
        ∧ t ∈ default ∅ (code_edges !! c) ∧ traced_match req t (s, d) line.
Proof.
  unfold calculate_coverage. intros Hrun.
  destruct (visit_nodes _ _ _ _ _) as [[all_codes []]| |] eqn:Hv; cbn [rbind] in Hrun;
    try done.
  pose proof (visit_nodes_sound sub_codes (λ _ _, tt) _ _ _ _ _ Hv) as Hsound.
  pose proof (visit_nodes_closed sub_codes (λ _ _, tt) _ _ _ _ _ Hv) as Hclosed.
  apply cover_fold_exact in Hrun as (_ & M & _). cbn [fst] in *.
  rewrite M. unfold cov_at at 1. rewrite lookup_empty. cbn.
  rewrite elem_of_elements. unfold analyzed. split.
  - intros [?|[Hc Hex]]; [set_solver|]. split; [by apply Hsound|done].
  - intros [Hc Hex]. right. split; [by apply Hclosed|done].
Qed.

Lemma coverage_matched_exact_witness :
  ∃ coverage err,
    calculate_coverage 10 "m.py" {[ return_code := return_traced ]} = OK (coverage, err)
    ∧ ((0, 2, return_code) ∈ (cov_at coverage 2).2
       ↔ analyzed {[ return_code := return_traced ]} return_code
         ∧ ∃ req opt warnings t,
             crawl_code_insts 10 "m.py" return_code = OK (req, opt, warnings)
             ∧ t ∈ default ∅ (({[ return_code := return_traced ]} : gmap code (gset (Z * Z * Z)))
                               !! return_code)
             ∧ traced_match req t (0, 2) 2).
Proof.
  assert (holds (calculate_coverage 10 "m.py" {[ return_code := return_traced ]})
            (λ _, true) = true) as Hr by (vm_compute; reflexivity).
  apply holds_OK in Hr as ([coverage err] & Hr & _).
  exists coverage, err. split; [exact Hr|].
  exact (coverage_matched_exact 10 "m.py" _ coverage err 2 0 2 return_code Hr).
Defined.

(** ** line_ranges *)

Lemma chunks_app_one (rs : list (Z * Z)) (r' : Z * Z) :
  rs ≠ [] → chunks (rs ++ [r']) = chunks rs ++ [None; Some r'].
Proof.
  induction rs as [|x [|y l] IH]; intros Hne; [done|done|].
  change (chunks ((x :: y :: l) ++ [r']))
    with (Some x :: None :: chunks ((y :: l) ++ [r'])).
  by rewrite IH.
Qed.

Lemma chunks_snoc (rs : list (Z * Z)) (r r' : Z * Z) :
  chunks ((rs ++ [r]) ++ [r']) = chunks (rs ++ [r]) ++ [None; Some r'].
Proof. apply chunks_app_one. by destruct rs. Qed.

Lemma apart_snoc (rs : list (Z * Z)) (r r' : Z * Z) :
  apart (rs ++ [r]) → r.2 + 1 < r'.1 → apart ((rs ++ [r]) ++ [r']).
Proof.
  induction rs as [|x rs IH]; intros Ha Hr; [by cbn|].
  cbn [app] in *. destruct (rs ++ [r]) as [|y l] eqn:E; [by destruct rs|].
  cbn [app apart] in *. destruct Ha as [Hxy Ha]. split; [done|]. by apply IH.
Qed.

(** The loop of [line_ranges]: the chunks closed so far, then the open
    chunk [start, end_). *)
Lemma line_ranges_loop_spec (before after terminal : Z) (rest : list Z) :
  ∀ (start end_ : Z) (done_ : list (Z * Z)) (out : list (option (Z * Z)))
    (yields : list (option (Z * Z))),
    out = match done_ with [] => [] | _ => chunks done_ ++ [None] end →
    apart done_ →
    (∀ r, r ∈ done_ → 1 ≤ r.1 ∧ r.2 ≤ terminal) →
    (∀ r, last done_ = Some r → r.2 + 1 < start) →
    line_ranges_loop before after terminal start end_ rest out = (yields, None) →
    ∃ rs, yields = chunks rs ∧ rs ≠ [] ∧ apart rs
          ∧ ∀ r, r ∈ rs → 1 ≤ r.1 ∧ r.2 ≤ terminal.
Proof.
  induction rest as [|i rest IH];
    intros start end_ done_ out yields Hout Hap Hdone Hlast Hrun;
    cbn [line_ranges_loop] in Hrun.
  - injection Hrun as <-.
    exists (done_ ++ [(Z.max 1 start, Z.min end_ terminal)]). split_and!.
    + subst out. destruct done_ as [|r0 done_ _] using rev_ind; [done|].
      rewrite chunks_snoc. destruct (done_ ++ [r0]) eqn:E; [by destruct done_|].
      by rewrite <- app_assoc.
    + by destruct done_.
    + destruct done_ as [|r0 done_ _] using rev_ind; [done|].
      apply apart_snoc; [done|]. cbn.
      specialize (Hlast r0 (last_snoc _ _)). lia.
    + intros r [Hr|Hr%list_elem_of_singleton]%elem_of_app.
      * by apply Hdone.
      * subst r. cbn. lia.
  - destruct (0 <? i) eqn:Hi; cbn [negb] in Hrun; [|done]. apply Z.ltb_lt in Hi.
    destruct (end_ + 1 <? i - before) eqn:Hgap.
    + apply Z.ltb_lt in Hgap.
      eapply (IH _ _ (done_ ++ [(Z.max 1 start, Z.min end_ terminal)])) in Hrun; [done| | | |].
      * subst out. destruct done_ as [|r0 done_ _] using rev_ind; [done|].
        rewrite chunks_snoc. destruct ((done_ ++ [r0]) ++ _) eqn:E; [by destruct done_|].
        destruct (done_ ++ [r0]) eqn:E'; [by destruct done_|].
        by rewrite <- !app_assoc.
      * destruct done_ as [|r0 done_ _] using rev_ind; [done|].
        apply apart_snoc; [done|]. cbn.
        specialize (Hlast r0 (last_snoc _ _)). lia.
      * intros r [Hr|Hr%list_elem_of_singleton]%elem_of_app.
        -- by apply Hdone.
        -- subst r. cbn. lia.
      * intros r. rewrite last_snoc. intros [= <-]. cbn. lia.
    + eapply (IH _ _ done_) in Hrun; done.
Qed.

Lemma line_ranges_shape (iterable : list Z) (before after terminal : Z)
    (yields : list (option (Z * Z))) :
  line_ranges iterable before after terminal = (yields, None) →
  ∃ rs, yields = chunks rs
        ∧ (rs = [] ↔ iterable = [])
        ∧ apart rs
        ∧ ∀ r, r ∈ rs → 1 ≤ r.1 ∧ r.2 ≤ terminal.
Proof.
  unfold line_ranges. destruct (0 <? terminal); cbn [negb]; [|done].
  destruct iterable as [|i rest].
  - intros [= <-]. exists []. split_and!; try done. intros r Hr. by apply elem_of_nil in Hr.
  - destruct (0 <? i); cbn [negb]; [|done]. intros Hrun.
    apply (line_ranges_loop_spec _ _ _ _ _ _ []) in Hrun as (rs & ? & ? & ? & ?); try done.
    + exists rs. split_and!; done.
    + intros r Hr. by apply elem_of_nil in Hr.
Qed.

(** What [line_ranges] yields when no assertion stops it: ranges with an
    interstitial between each two and none at either end; every range lies
    within lines 1 to [terminal - 1]; and each range ends at least two
    lines before the next one starts, so that an interstitial never stands
    for a single line. *)
Theorem line_ranges_chunks (iterable : list Z) (before after terminal : Z)
    (yields : list (option (Z * Z))) :
  line_ranges iterable before after terminal = (yields, None) →
  ∃ rs, yields = chunks rs
        ∧ (rs = [] ↔ iterable = [])
        ∧ apart rs
        ∧ ∀ r, r ∈ rs → 1 ≤ r.1 ∧ r.2 ≤ terminal.
Proof. exact (line_ranges_shape iterable before after terminal yields). Qed.

Lemma line_ranges_chunks_witness :
  ∃ rs, [Some (1, 6); None; Some (16, 22)] = chunks rs
        ∧ (rs = [] ↔ [3; 4; 20] = [])
        ∧ apart rs
        ∧ ∀ r, r ∈ rs → 1 ≤ r.1 ∧ r.2 ≤ 30.
Proof. exact (line_ranges_chunks [3; 4; 20] 4 1 30 _ eq_refl). Defined.

(** The loop of [line_ranges] on ascending positive lines: no assertion
    fails, what was yielded stays, and every line of the open chunk and
    every line still to come ends up in a range together with its
    context. *)
Lemma line_ranges_loop_cover (before after terminal : Z) (rest : list Z) :
  0 ≤ before → 0 ≤ after →
  ∀ (start last : Z) (out : list (option (Z * Z))) (pend : list Z),
    StronglySorted Z.le rest →
    Forall (λ i, 0 < i) rest →
    Forall (λ i, last ≤ i) rest →
    start ≤ last - before →
    Forall (λ i, start ≤ i - before ∧ i ≤ last) pend →
    ∃ yields,
      line_ranges_loop before after terminal start (last + after + 1) rest out
      = (yields, None)
      ∧ (∀ x, x ∈ out → x ∈ yields)
      ∧ ∀ i, i ∈ pend ++ rest →
          ∃ r, Some r ∈ yields
               ∧ ∀ j, i - before ≤ j ≤ i + after → 1 ≤ j < terminal → r.1 ≤ j < r.2.
Proof.
  intros Hb Ha. induction rest as [|i rest IH];
    intros start last out pend Hsorted Hpos Hlast Hstart Hpend; cbn [line_ranges_loop].
  - eexists. split; [reflexivity|]. split; [set_solver|].
    intros i. rewrite app_nil_r. intros Hi.
    rewrite Forall_forall in Hpend. destruct (Hpend i Hi) as [? ?].
    exists (Z.max 1 start, Z.min (last + after + 1) terminal).
    split; [set_solver|]. cbn [fst snd]. lia.
  - apply Forall_cons in Hpos as [Hi Hpos]. apply Forall_cons in Hlast as [Hli Hlast].
    apply StronglySorted_inv in Hsorted as [Hsorted Hle].
    rewrite (proj2 (Z.ltb_lt 0 i) Hi). cbn [negb].
    destruct (last + after + 1 + 1 <? i - before) eqn:Hgap.
    + destruct (IH (i - before) i
                  (out ++ [Some (Z.max 1 start, Z.min (last + after + 1) terminal); None])
                  [i]) as (yields & Hrun & Hout & Hcov);
        [exact Hsorted|exact Hpos|exact Hle|lia|constructor; [lia|constructor]|].
      exists yields. split; [exact Hrun|]. split; [set_solver|].
      {
        intros k [Hk|Hk]%elem_of_app; [|apply Hcov; set_solver].
        rewrite Forall_forall in Hpend. destruct (Hpend k Hk) as [? ?].
        exists (Z.max 1 start, Z.min (last + after + 1) terminal).
        split; [apply Hout; set_solver|]. cbn [fst snd]. lia. }
    + destruct (IH start i out (pend ++ [i])) as (yields & Hrun & Hout & Hcov);
        [exact Hsorted|exact Hpos|exact Hle|lia| |].
      * apply Forall_app. split.
        -- eapply Forall_impl; [exact Hpend|]. cbn. lia.
        -- constructor; [lia|constructor].
      * exists yields. split; [exact Hrun|]. split; [exact Hout|].
        intros k Hk. apply Hcov. set_solver.
Qed.

Lemma line_ranges_cover (iterable : list Z) (before after terminal : Z) :
  Sorted Z.le iterable →
  Forall (λ i, 0 < i) iterable →
  0 < terminal → 0 ≤ before → 0 ≤ after →
  ∃ yields,
    line_ranges iterable before after terminal = (yields, None)
    ∧ ∀ i, i ∈ iterable →
        ∃ r, Some r ∈ yields
             ∧ ∀ j, i - before ≤ j ≤ i + after → 1 ≤ j < terminal → r.1 ≤ j < r.2.
Proof.
  intros Hsorted Hpos Ht Hb Ha. unfold line_ranges.
  rewrite (proj2 (Z.ltb_lt 0 terminal) Ht). cbn [negb].
  destruct iterable as [|i rest].
  - eexists. split; [reflexivity|]. intros i Hi. by apply elem_of_nil in Hi.
  - apply Forall_cons in Hpos as [Hi Hpos].
    rewrite (proj2 (Z.ltb_lt 0 i) Hi). cbn [negb].
    apply Sorted_StronglySorted in Hsorted; [|intros x y z; apply Z.le_trans].
    apply StronglySorted_inv in Hsorted as [Hsorted Hle].
    destruct (line_ranges_loop_cover before after terminal rest Hb Ha (i - before) i [] [i])
      as (yields & Hrun & _ & Hcov);
      [exact Hsorted|exact Hpos|exact Hle|lia|constructor; [lia|constructor]|].
    exists yields. split; [exact Hrun|]. intros k Hk. apply Hcov. set_solver.
Qed.

(** On ascending positive lines, [line_ranges] fails no assertion and
    shows every line together with its context: the [before] lines before
    it and the [after] lines after it, as far as they lie within lines 1
    to [terminal - 1], are in one range with it. *)
Theorem line_ranges_context (iterable : list Z) (before after terminal : Z) :
  Sorted Z.le iterable →
  Forall (λ i, 0 < i) iterable →
  0 < terminal → 0 ≤ before → 0 ≤ after →
  ∃ yields,
    line_ranges iterable before after terminal = (yields, None)
    ∧ ∀ i, i ∈ iterable →
        ∃ r, Some r ∈ yields
             ∧ ∀ j, i - before ≤ j ≤ i + after → 1 ≤ j < terminal → r.1 ≤ j < r.2.
Proof. exact (line_ranges_cover iterable before after terminal). Qed.

Lemma line_ranges_context_witness :
  ∃ yields,
    line_ranges [3; 4; 20] 4 1 30 = (yields, None)
    ∧ ∀ i, i ∈ [3; 4; 20] →
        ∃ r, Some r ∈ yields
             ∧ ∀ j, i - 4 ≤ j ≤ i + 1 → 1 ≤ j < 30 → r.1 ≤ j < r.2.
Proof.
  apply (line_ranges_context [3; 4; 20] 4 1 30); try lia.
  - repeat constructor; lia.
  - repeat constructor; lia.
Defined.

(** ** report_path: verdicts, statistics and listing *)

Lemma not_cov_fold (ignored explicit : gset Z)
    (l : list (Z * (gset (Z * Z * code) * gset (Z * Z * code)))) :
  ∀ (v : verdicts) (line : Z),
    line ∈ not_cov_lines (foldl (verdict_step ignored explicit) v l)
    ↔ line ∈ not_cov_lines v
      ∨ (line ∉ ignored ∧ ∃ r m, (line, (r, m)) ∈ l ∧ ¬ r ⊆ m).
Proof.
  induction l as [|[ln [r m]] l IH]; intros v line; cbn [foldl].
  - setoid_rewrite elem_of_nil. naive_solver.
  - rewrite IH. setoid_rewrite elem_of_cons. unfold verdict_step.
    destruct (bool_decide (r ⊆ m)) eqn:Hsub.
    + apply bool_decide_eq_true in Hsub.
      destruct (bool_decide (ln ∈ explicit)); cbn [not_cov_lines]; naive_solver.
    + apply bool_decide_eq_false in Hsub.
      destruct (bool_decide (ln ∉ ignored)) eqn:Hign; cbn [not_cov_lines].
      * apply bool_decide_eq_true in Hign. rewrite elem_of_union, elem_of_singleton.
        naive_solver.
      * apply bool_decide_eq_false in Hign. naive_solver.
Qed.

(** The three line sets of [report_path], read off the coverage map. *)
Lemma verdicts_spec (coverage : gmap Z (gset (Z * Z * code) * gset (Z * Z * code)))
    (ignored explicit : gset Z) (line : Z) :
  let v := line_verdicts coverage ignored explicit in
  (line ∈ covered_lines v
   ↔ line ∉ explicit ∧ ∃ r m, coverage !! line = Some (r, m) ∧ r ⊆ m)
  ∧ (line ∈ ign_cov_lines v
     ↔ line ∈ explicit ∧ ∃ r m, coverage !! line = Some (r, m) ∧ r ⊆ m)
  ∧ (line ∈ not_cov_lines v
     ↔ line ∉ ignored ∧ ∃ r m, coverage !! line = Some (r, m) ∧ ¬ r ⊆ m).
Proof.
  cbn zeta. unfold line_verdicts.
  destruct (line_verdicts_fold ignored explicit (map_to_list coverage)
              {| covered_lines := ∅; ign_cov_lines := ∅; not_cov_lines := ∅ |} line)
    as [Hc Hi].
  pose proof (not_cov_fold ignored explicit (map_to_list coverage)
                {| covered_lines := ∅; ign_cov_lines := ∅; not_cov_lines := ∅ |} line) as Hn.
  cbn [covered_lines ign_cov_lines not_cov_lines] in *.
  setoid_rewrite elem_of_map_to_list in Hc. setoid_rewrite elem_of_map_to_list in Hi.
  setoid_rewrite elem_of_map_to_list in Hn.
  rewrite Hc, Hi, Hn. split_and!; set_solver.
Qed.

(** The colour and symbol of a line are always defined: the last
    assertion of the listing cannot fail. *)
Lemma line_mark_defined (coverage : gmap Z (gset (Z * Z * code) * gset (Z * Z * code)))
    (ignored explicit : gset Z) (line : Z) :
  is_Some (line_mark coverage (line_verdicts coverage ignored explicit) ignored line).
Proof.
  unfold line_mark.
  destruct (verdicts_spec coverage ignored explicit line) as (Hc & Hi & Hn).
  destruct (coverage !! line) as [[r m]|] eqn:Hl; [|done].
  case_bool_decide as H1; [done|]. case_bool_decide as H2; [done|].
  case_bool_decide as H3; [by case_bool_decide|].
  case_bool_decide as H4; [done|]. exfalso.
  destruct (decide (r ⊆ m)) as [Hsub|Hsub].
  - destruct (decide (line ∈ explicit)).
    + apply H1, Hi. eauto.
    + apply H4, Hc. eauto.
  - apply H3, Hn. eauto.
Qed.

Lemma py_index_in_range {A} (l : list A) (i : Z) :
  0 ≤ i < Z.of_nat (List.length l) → py_index l i = l !! Z.to_nat i ∧ is_Some (l !! Z.to_nat i).
Proof.
  intros Hi. unfold py_index. rewrite (proj2 (Z.leb_le 0 i)) by lia.
  split; [done|]. apply lookup_lt_is_Some. lia.
Qed.

Lemma seqZ_sorted (m n : Z) : Sorted Z.le (seqZ m n).
Proof.
  unfold seqZ. generalize (Z.to_nat n) as k. generalize 0%nat as a.
  intros a k. revert a. induction k as [|k IH]; intros a; cbn; [constructor|].
  constructor; [apply IH|]. destruct k; cbn; constructor. lia.
Qed.

Lemma chunks_elem (rs : list (Z * Z)) (r : Z * Z) : Some r ∈ chunks rs → r ∈ rs.
Proof.
  induction rs as [|x [|y l] IH]; cbn [chunks].
  - by intros ?%elem_of_nil.
  - intros ?%list_elem_of_singleton. simplify_eq. by left.
  - intros [?|[?|?]%elem_of_cons]%elem_of_cons; [simplify_eq; by left|done|].
    right. by apply IH.
Qed.

(** The lines of one range, when they are lines of the file: each is
    printed with its text and its mark. *)
Lemma list_lines_ok (line_texts : list string)
    (coverage : gmap Z (gset (Z * Z * code) * gset (Z * Z * code)))
    (ignored explicit : gset Z) (ls : list Z) :
  let v := line_verdicts coverage ignored explicit in
  Forall (λ line, 1 ≤ line ≤ Z.of_nat (List.length line_texts)) ls →
  ∀ out, ∃ new,
    list_lines line_texts coverage v ignored ls out = (out ++ new, None)
    ∧ ∀ line, line ∈ ls →
        ∃ c sym text dbg,
          Listed line c sym text dbg ∈ new
          ∧ line_texts !! Z.to_nat (line - 1) = Some text
          ∧ line_mark coverage v ignored line = Some (c, sym, dbg).
Proof.
  cbn zeta. induction ls as [|line ls IH]; intros Hall out; cbn [list_lines].
  - exists []. rewrite app_nil_r. split; [done|]. by intros line ?%elem_of_nil.
  - apply Forall_cons in Hall as [Hline Hall].
    destruct (py_index_in_range line_texts (line - 1)) as [-> [text Htext]]; [lia|].
    rewrite Htext.
    destruct (line_mark_defined coverage ignored explicit line) as [[[c sym] dbg] Hmark].
    rewrite Hmark.
    destruct (IH Hall (out ++ [Listed line c sym text dbg])) as (new & -> & Hnew).
    exists (Listed line c sym text dbg :: new). split; [by rewrite <- app_assoc|].
    intros k [->|Hk]%elem_of_cons.
    + exists c, sym, text, dbg. split; [by left|done].
    + destruct (Hnew k Hk) as (c' & sym' & text' & dbg' & ? & ? & ?).
      exists c', sym', text', dbg'. split; [by right|done].
Qed.

Lemma list_ranges_ok (line_texts : list string)
    (coverage : gmap Z (gset (Z * Z * code) * gset (Z * Z * code)))
    (ignored explicit : gset Z) (rs : list (option (Z * Z))) :
  let v := line_verdicts coverage ignored explicit in
  (∀ r, Some r ∈ rs → 1 ≤ r.1 ∧ r.2 ≤ Z.of_nat (List.length line_texts) + 1) →
  ∀ out, ∃ new,
    list_ranges line_texts coverage v ignored rs out = (out ++ new, None)
    ∧ ∀ r line, Some r ∈ rs → r.1 ≤ line < r.2 →
        ∃ c sym text dbg,
          Listed line c sym text dbg ∈ new
          ∧ line_texts !! Z.to_nat (line - 1) = Some text
          ∧ line_mark coverage v ignored line = Some (c, sym, dbg).
Proof.
  cbn zeta. induction rs as [|[r|] rs IH]; intros Hall out; cbn [list_ranges].
  - exists []. rewrite app_nil_r. split; [done|]. by intros r line ?%elem_of_nil.
  - destruct (list_lines_ok line_texts coverage ignored explicit (range_lines r))
      with (out := out) as (new1 & -> & Hnew1).
    { apply Forall_forall. intros line Hline. unfold range_lines in Hline.
      apply elem_of_seqZ in Hline. destruct (Hall r) as [? ?]; [by left|]. lia. }
    destruct (IH (λ r' Hr', Hall r' (list_elem_of_further _ _ _ Hr')) (out ++ new1))
      as (new2 & -> & Hnew2).
    exists (new1 ++ new2). split; [by rewrite <- app_assoc|].
    intros r' line [[= ->]|Hr']%elem_of_cons Hline.
    + destruct (Hnew1 line) as (c & sym & text & dbg & ? & ? & ?).
      { unfold range_lines. apply elem_of_seqZ. lia. }
      exists c, sym, text, dbg. split; [apply elem_of_app; by left|done].
    + destruct (Hnew2 r' line Hr' Hline) as (c & sym & text & dbg & ? & ? & ?).
      exists c, sym, text, dbg. split; [apply elem_of_app; by right|done].
  - destruct (IH (λ r' Hr', Hall r' (list_elem_of_further _ _ _ Hr')) (out ++ [Elided]))
      as (new2 & -> & Hnew2).
    exists (Elided :: new2). split; [by rewrite <- app_assoc|].
    intros r' line [?|Hr']%elem_of_cons Hline; [done|].
    destruct (Hnew2 r' line Hr' Hline) as (c & sym & text & dbg & ? & ? & ?).
    exists c, sym, text, dbg. split; [by right|done].
Qed.

(** The listing of a file never fails, whatever the file and the
    coverage map with positive lines: no assertion of [line_ranges] or of
    the listing fails and every index into the lines of the file is in
    range.  Every problem line that is a line of the file is printed with
    its text, marked ['?'] when it is covered though explicitly ignored and
    ['%'] or ['!'] when it is not covered; and the four lines before it and
    the line after it are printed with it, as far as the file has them. *)
Theorem report_listing_complete (line_texts : list string)
    (coverage : gmap Z (gset (Z * Z * code) * gset (Z * Z * code)))
    (ignored_lines explicitly_ignored_lines : gset Z) (show_all : bool) :
  (∀ line, is_Some (coverage !! line) → 0 < line) →
  let v := line_verdicts coverage ignored_lines explicitly_ignored_lines in
  ∃ listing,
    report_listing line_texts coverage ignored_lines explicitly_ignored_lines show_all
    = (listing, None)
    ∧ ∀ line, line ∈ ign_cov_lines v ∪ not_cov_lines v →
        (line ∈ ign_cov_lines v →
           line_mark coverage v ignored_lines line = Some (TXT_Y1, "?", false))
        ∧ (line ∈ not_cov_lines v →
             line_mark coverage v ignored_lines line = Some (TXT_R1, "%", true)
             ∨ line_mark coverage v ignored_lines line = Some (TXT_R1, "!", false))
        ∧ ∀ j, line - 4 ≤ j ≤ line + 1 → 1 ≤ j ≤ Z.of_nat (List.length line_texts) →
            ∃ c sym text dbg,
              Listed j c sym text dbg ∈ listing
              ∧ line_texts !! Z.to_nat (j - 1) = Some text
              ∧ line_mark coverage v ignored_lines j = Some (c, sym, dbg).
Proof.
  intros Hpos v. unfold report_listing. fold v.
  set (problem := ign_cov_lines v ∪ not_cov_lines v).
  assert (∀ line, line ∈ problem → is_Some (coverage !! line)) as Hdom.
  { intros line Hline.
    destruct (verdicts_spec coverage ignored_lines explicitly_ignored_lines line)
      as (_ & Hi & Hn). fold v in Hi, Hn.
    apply elem_of_union in Hline as [Hl|Hl].
    - apply Hi in Hl as (_ & r & m & -> & _). done.
    - apply Hn in Hl as (_ & r & m & -> & _). done. }
  case_bool_decide as Hempty.
  { exists []. split; [done|]. intros line Hline. rewrite Hempty in Hline. set_solver. }
  set (length := Z.of_nat (List.length line_texts)).
  set (reported := if show_all then seqZ 1 length
                   else merge_sort Z.le (elements problem)).
  assert (Sorted Z.le reported) as Hsorted.
  { unfold reported. destruct show_all; [apply seqZ_sorted|].
    apply (Sorted_merge_sort Z.le). }
  assert (Forall (λ i, 0 < i) reported) as Hpositive.
  { apply Forall_forall. intros i Hi. unfold reported in Hi. destruct show_all.
    - apply elem_of_seqZ in Hi. lia.
    - rewrite merge_sort_Permutation in Hi. apply elem_of_elements in Hi.
      apply Hpos, Hdom, Hi. }
  destruct (line_ranges_cover reported 4 1 (length + 1) Hsorted Hpositive)
    as (yields & Hyields & Hcover); [lia..|].
  rewrite Hyields.
  destruct (line_ranges_shape _ _ _ _ _ Hyields) as (rs & Hrs & _ & _ & Hbounds).
  destruct (list_ranges_ok line_texts coverage ignored_lines explicitly_ignored_lines yields)
    with (out := @nil listing_item) as (listing & Hrun & Hlisted).
  { intros r Hr. apply Hbounds, chunks_elem. by rewrite <- Hrs. }
  fold v in Hrun, Hlisted. rewrite Hrun. cbn [app].
  exists listing. split; [done|]. intros line Hline.
  destruct (verdicts_spec coverage ignored_lines explicitly_ignored_lines line)
    as (_ & Hi & Hn). fold v in Hi, Hn.
  split_and!.
  - intros Hl. unfold line_mark. destruct (Hdom line Hline) as [[r m] ->].
    by rewrite bool_decide_eq_true_2.
  - intros Hl. unfold line_mark. destruct (Hdom line Hline) as [[r m] ->].
    pose proof Hl as Hl'. apply Hn in Hl' as (Hnot_ign & r' & m' & _ & _).
    rewrite (bool_decide_eq_false_2 (line ∈ ign_cov_lines v)).
    + rewrite (bool_decide_eq_false_2 (line ∈ ignored_lines)) by done.
      rewrite (bool_decide_eq_true_2 (line ∈ not_cov_lines v)) by done.
      case_bool_decide; [by left|by right].
    + intros Hin. apply Hi in Hin as (_ & r1 & m1 & Hc1 & Hsub).
      apply Hn in Hl as (_ & r2 & m2 & Hc2 & Hnsub). congruence.
  - intros j Hj Hfile.
    assert (∃ i, i ∈ reported ∧ i - 4 ≤ j ≤ i + 1) as (i & Hrep & Hwindow).
    { unfold reported. destruct show_all.
      - exists j. split; [|lia]. apply elem_of_seqZ. lia.
      - exists line. split; [|lia].
        rewrite merge_sort_Permutation. by apply elem_of_elements. }
    destruct (Hcover i Hrep) as (r & Hr & Hwin).
    apply (Hlisted r j Hr). apply Hwin; lia.
Qed.

Lemma report_listing_complete_witness :
  ∃ listing,
    report_listing ["def f():"; "  return 1"]
      {[ 2 := ({[ (0, 2, return_code) ]}, ∅) ]} ∅ ∅ false = (listing, None).
Proof.
  destruct (report_listing_complete ["def f():"; "  return 1"]
              {[ 2 := ({[ (0, 2, return_code) ]}, ∅) ]} ∅ ∅ false) as (listing & H & _).
  - intros line [x Hx]. apply lookup_singleton_Some in Hx as [<- _]. lia.
  - exists listing. exact H.
Defined.

Lemma path_stats_sets (line_texts : list string)
    (coverage : gmap Z (gset (Z * Z * code) * gset (Z * Z * code)))
    (ignored_lines explicitly_ignored_lines : gset Z) :
  let v := line_verdicts coverage ignored_lines explicitly_ignored_lines in
  let s := path_stats line_texts coverage ignored_lines explicitly_ignored_lines in
  covered_lines v ## ign_cov_lines v
  ∧ covered_lines v ## not_cov_lines v
  ∧ ign_cov_lines v ## not_cov_lines v
  ∧ not_cov_lines v ## ignored_lines
  ∧ covered_lines v ∪ ign_cov_lines v ∪ not_cov_lines v ⊆ dom coverage
  ∧ Stats.covered s + Stats.ignored_but_covered s + Stats.not_covered s ≤ Stats.traceable s
  ∧ Stats.covered s + Stats.ignored_but_covered s + Stats.not_covered s + Stats.ignored s
    = len (covered_lines v ∪ ign_cov_lines v ∪ not_cov_lines v ∪ ignored_lines)
  ∧ Stats.trivial s + Stats.traceable s = Z.max (Stats.lines s) (Stats.traceable s).
Proof.
  intros v s.
  assert (∀ line, (line ∈ covered_lines v
             ↔ line ∉ explicitly_ignored_lines
               ∧ ∃ r m, coverage !! line = Some (r, m) ∧ r ⊆ m)
           ∧ (line ∈ ign_cov_lines v
              ↔ line ∈ explicitly_ignored_lines
                ∧ ∃ r m, coverage !! line = Some (r, m) ∧ r ⊆ m)
           ∧ (line ∈ not_cov_lines v
              ↔ line ∉ ignored_lines
                ∧ ∃ r m, coverage !! line = Some (r, m) ∧ ¬ r ⊆ m)) as Hspec
    by (intros line; apply verdicts_spec).
  assert (covered_lines v ## ign_cov_lines v) as D1.
  { intros line Hc Hi. apply Hspec in Hc as [? _]. apply Hspec in Hi as [? _]. done. }
  assert (covered_lines v ## not_cov_lines v) as D2.
  { intros line Hc Hn. apply Hspec in Hc as (_ & r & m & Hl & ?).
    apply Hspec in Hn as (_ & r' & m' & Hl' & ?). congruence. }
  assert (ign_cov_lines v ## not_cov_lines v) as D3.
  { intros line Hc Hn. apply Hspec in Hc as (_ & r & m & Hl & ?).
    apply Hspec in Hn as (_ & r' & m' & Hl' & ?). congruence. }
  assert (not_cov_lines v ## ignored_lines) as D4.
  { intros line Hn Hi. apply Hspec in Hn as [? _]. done. }
  assert (covered_lines v ∪ ign_cov_lines v ∪ not_cov_lines v ⊆ dom coverage) as Hsub.
  { intros line. rewrite !elem_of_union, elem_of_dom.
    intros [[Hl|Hl]|Hl]; apply Hspec in Hl as (_ & r & m & -> & _); done. }
  split_and!; try done.
  - apply subseteq_size in Hsub. rewrite size_dom in Hsub.
    rewrite !size_union in Hsub by set_solver.
    subst s. unfold path_stats, len. cbn [Stats.lines Stats.trivial Stats.traceable Stats.covered Stats.ignored
         Stats.ignored_but_covered Stats.not_covered]. fold v. lia.
  - subst s. unfold path_stats, len. cbn [Stats.lines Stats.trivial Stats.traceable Stats.covered Stats.ignored
         Stats.ignored_but_covered Stats.not_covered]. fold v.
    assert (covered_lines v ∪ ign_cov_lines v ∪ not_cov_lines v ∪ ignored_lines
            = covered_lines v ∪ ign_cov_lines v ∪ not_cov_lines v
              ∪ (ignored_lines ∖ covered_lines v ∖ ign_cov_lines v ∖ not_cov_lines v)) as ->.
    { apply set_eq. intros line. rewrite !elem_of_union, !elem_of_difference.
      destruct (decide (line ∈ covered_lines v)), (decide (line ∈ ign_cov_lines v)),
        (decide (line ∈ not_cov_lines v)); tauto. }
    pose proof (size_union (C:=gset Z) (covered_lines v) (ign_cov_lines v) D1) as S1.
    pose proof (size_union (C:=gset Z) (covered_lines v ∪ ign_cov_lines v)
                  (not_cov_lines v) ltac:(set_solver)) as S2.
    pose proof (size_union (C:=gset Z)
                  (covered_lines v ∪ ign_cov_lines v ∪ not_cov_lines v)
                  (ignored_lines ∖ covered_lines v ∖ ign_cov_lines v ∖ not_cov_lines v)
                  ltac:(set_solver)) as S3.
    lia.
  - subst s. unfold path_stats. cbn [Stats.lines Stats.trivial Stats.traceable Stats.covered Stats.ignored
         Stats.ignored_but_covered Stats.not_covered]. lia.
Qed.

(** The line sets of one file are pairwise disjoint sets of traceable
    lines, and no line that is not covered is an ignored line.  So the
    counts of covered, ignored-but-covered and not-covered lines add up to
    no more than the traceable lines; together with the count of ignored
    lines they count each classified line once; and trivial and traceable
    lines add up to the length of the file, unless the coverage map has
    more lines than the file. *)
Theorem path_stats_partition (line_texts : list string)
    (coverage : gmap Z (gset (Z * Z * code) * gset (Z * Z * code)))
    (ignored_lines explicitly_ignored_lines : gset Z) :
  let v := line_verdicts coverage ignored_lines explicitly_ignored_lines in
  let s := path_stats line_texts coverage ignored_lines explicitly_ignored_lines in
  covered_lines v ## ign_cov_lines v
  ∧ covered_lines v ## not_cov_lines v
  ∧ ign_cov_lines v ## not_cov_lines v
  ∧ not_cov_lines v ## ignored_lines
  ∧ covered_lines v ∪ ign_cov_lines v ∪ not_cov_lines v ⊆ dom coverage
  ∧ Stats.covered s + Stats.ignored_but_covered s + Stats.not_covered s ≤ Stats.traceable s
  ∧ Stats.covered s + Stats.ignored_but_covered s + Stats.not_covered s + Stats.ignored s
    = len (covered_lines v ∪ ign_cov_lines v ∪ not_cov_lines v ∪ ignored_lines)
  ∧ Stats.trivial s + Stats.traceable s = Z.max (Stats.lines s) (Stats.traceable s).
Proof. exact (path_stats_sets line_texts coverage ignored_lines explicitly_ignored_lines). Qed.



(** ** coalesce: what the merge holds *)

Lemma target_kept_spec (arg_targets : gset string) (t : string) :
  target_kept arg_targets t = true ↔ arg_targets = ∅ ∨ t ∈ arg_targets.
Proof.
  unfold target_kept. rewrite negb_true_iff, andb_false_iff, negb_false_iff.
  rewrite bool_decide_eq_true, bool_decide_eq_false. split.
  - intros [?|Hn]; [by left|]. right. by apply dec_stable.
  - intros [?|?]; [by left|]. right. by intros ?.
Qed.

Lemma foldl_or {S A} (f : S → A → S) (P : S → Prop) (Q : A → Prop) :
  (∀ st a, P (f st a) ↔ P st ∨ Q a) →
  ∀ l st, P (foldl f st l) ↔ P st ∨ ∃ a, a ∈ l ∧ Q a.
Proof.
  intros Hstep. induction l as [|a l IH]; intros st; cbn [foldl].
  - split; [by left|]. intros [?|(a & Ha & _)]; [done|]. by apply elem_of_nil in Ha.
  - rewrite IH, Hstep. split.
    + intros [[?|?]|(b & Hb & ?)]; [by left| |].
      * right. exists a. split; [by left|done].
      * right. exists b. split; [by right|done].
    + intros [?|(b & Hb & ?)]; [by left; left|].
      apply elem_of_cons in Hb as [->|Hb]; [by left; right|].
      right. by exists b.
Qed.

Lemma coalesce_step_target_present (arg_targets : gset string) (st : merged) (s : snapshot)
    (t : string) :
  is_Some ((coalesce_step arg_targets st s).1 !! t)
  ↔ is_Some (st.1 !! t)
    ∨ ((arg_targets = ∅ ∨ t ∈ arg_targets) ∧ is_Some (target_paths s !! t)).
Proof.
  rewrite coalesce_step_targets, <- target_kept_spec.
  destruct (target_paths s !! t) as [p|] eqn:Hs.
  - destruct (target_kept arg_targets t) eqn:Hk.
    + split; [|by eauto]. intros _. right. split; [done|by eexists].
    + split; [by left|]. intros [?|[? _]]; done.
  - split; [by left|]. intros [?|[_ Hn]]; [done|]. by destruct Hn.
Qed.

Lemma coalesce_step_target_paths (arg_targets : gset string) (st : merged) (s : snapshot)
    (t p : string) :
  p ∈ set_at (coalesce_step arg_targets st s).1 t
  ↔ p ∈ set_at st.1 t
    ∨ ((arg_targets = ∅ ∨ t ∈ arg_targets) ∧ target_paths s !! t = Some (Some p)).
Proof.
  unfold set_at at 1. rewrite coalesce_step_targets, <- target_kept_spec.
  destruct (target_paths s !! t) as [p0|] eqn:Hs.
  - destruct (target_kept arg_targets t) eqn:Hk.
    + cbn [default from_option id]. rewrite elem_of_union. split.
      * intros [?|Hp]; [by left|]. right. split; [done|].
        destruct p0 as [p0|]; cbn in Hp; [|by apply elem_of_empty in Hp].
        apply elem_of_singleton in Hp. by subst.
      * intros [?|[_ Heq]]; [by left|]. right. injection Heq as ->. cbn.
        by apply elem_of_singleton.
    + split; [by left|]. intros [?|[? _]]; done.
  - split; [by left|]. intros [?|[_ ?]]; done.
Qed.

Lemma coalesce_step_edges (arg_targets : gset string) (st : merged) (s : snapshot)
    (path : string) (c : code) (e : Z * Z * Z) :
  e ∈ edges_at (coalesce_step arg_targets st s).2 path c
  ↔ e ∈ edges_at st.2 path c
    ∨ ∃ code_edges edges, path_code_edges s !! path = Some code_edges
                          ∧ code_edges !! c = Some edges ∧ e ∈ edges.
Proof.
  unfold edges_at at 1. rewrite coalesce_step_paths.
  destruct (path_code_edges s !! path) as [ce|] eqn:Hs.
  - destruct (decide (ce = ∅)) as [->|Hne].
    + fold (edges_at st.2 path c). split; [by left|].
      intros [?|(ce' & edges & Hp & Hc & _)]; [done|].
      injection Hp as <-. by rewrite lookup_empty in Hc.
    + cbn [default from_option id]. rewrite merge_codes_lookup.
      destruct (ce !! c) as [edges|] eqn:Hc.
      * cbn [default from_option id]. rewrite elem_of_union.
        fold (edges_at st.2 path c). split.
        -- intros [?|He]; [by left|]. right. by exists ce, edges.
        -- intros [?|(ce' & edges' & Hp & Hc' & He)]; [by left|]. right.
           injection Hp as <-. rewrite Hc in Hc'. by injection Hc' as <-.
      * fold (edges_at st.2 path c). split; [by left|].
        intros [?|(ce' & edges' & Hp & Hc' & _)]; [done|].
        injection Hp as <-. by rewrite Hc in Hc'.
  - fold (edges_at st.2 path c). split; [by left|].
    intros [?|(ce' & edges' & Hp & _)]; done.
Qed.

Lemma coalesce_init_targets (arg_targets : gset string) (t : string) :
  (set_to_map (λ t, (t, ∅)) arg_targets : gmap string (gset string)) !! t
  = if decide (t ∈ arg_targets) then Some ∅ else None.
Proof.
  case_decide as Ht.
  - apply lookup_set_to_map; [by intros y y' _ _ [= ->]|]. by exists t.
  - apply eq_None_not_Some. intros [x Hx].
    apply lookup_set_to_map in Hx as (y & Hy & [= <- _]); [done|].
    by intros y y' _ _ [= ->].
Qed.

(** What [coalesce] hands to [report].  A target has an entry when it was
    asked for, or, when no target was asked for, when some trace file
    names it; its path set holds the paths that the trace files give for
    it, so a target asked for and never imported has an empty path set.
    The traced edges of a path and code object are those of all trace
    files, whether or not the path belongs to a target asked for. *)
Theorem coalesce_contents (snapshots : list snapshot) (arg_targets : gset string) :
  let r := coalesce snapshots arg_targets in
  (∀ t, is_Some (r.1 !! t)
        ↔ t ∈ arg_targets
          ∨ (arg_targets = ∅ ∧ ∃ s, s ∈ snapshots ∧ is_Some (target_paths s !! t)))
  ∧ (∀ t p, p ∈ set_at r.1 t
            ↔ (arg_targets = ∅ ∨ t ∈ arg_targets)
              ∧ ∃ s, s ∈ snapshots ∧ target_paths s !! t = Some (Some p))
  ∧ (∀ path c e, e ∈ edges_at r.2 path c
                 ↔ ∃ s code_edges edges,
                     s ∈ snapshots ∧ path_code_edges s !! path = Some code_edges
                     ∧ code_edges !! c = Some edges ∧ e ∈ edges).
Proof.
  cbn zeta. unfold coalesce. split_and!.
  - intros t.
    rewrite (foldl_or (coalesce_step arg_targets) (λ st : merged, is_Some (st.1 !! t))
               (λ s, (arg_targets = ∅ ∨ t ∈ arg_targets) ∧ is_Some (target_paths s !! t)))
      by (intros st a; apply coalesce_step_target_present).
    cbn [fst]. rewrite coalesce_init_targets. split.
    + intros [Hi|(s & Hs & [He|Ht] & Hp)].
      * case_decide; [by left|by destruct Hi].
      * right. split; [done|]. by exists s.
      * by left.
    + intros [Ht|(He & s & Hs & Hp)].
      * left. by rewrite decide_True.
      * right. exists s. split; [done|]. split; [by left|done].
  - intros t p.
    rewrite (foldl_or (coalesce_step arg_targets) (λ st : merged, p ∈ set_at st.1 t)
               (λ s, (arg_targets = ∅ ∨ t ∈ arg_targets)
                     ∧ target_paths s !! t = Some (Some p)))
      by (intros st a; apply coalesce_step_target_paths).
    cbn [fst]. unfold set_at at 1. rewrite coalesce_init_targets. split.
    + intros [Hi|(s & Hs & Hk & Hp)].
      * case_decide; cbn in Hi; by apply elem_of_empty in Hi.
      * split; [done|]. by exists s.
    + intros (Hk & s & Hs & Hp). right. by exists s.
  - intros path c e.
    rewrite (foldl_or (coalesce_step arg_targets) (λ st : merged, e ∈ edges_at st.2 path c)
               (λ s, ∃ code_edges edges, path_code_edges s !! path = Some code_edges
                                         ∧ code_edges !! c = Some edges ∧ e ∈ edges))
      by (intros st a; apply coalesce_step_edges).
    cbn [snd]. unfold edges_at at 1. rewrite lookup_empty. cbn [default from_option id].
    rewrite lookup_empty. cbn [default from_option id]. split.
    + intros [Hi|(s & Hs & ce & edges & ? & ? & ?)]; [by apply elem_of_empty in Hi|].
      by exists s, ce, edges.
    + intros (s & ce & edges & ? & ? & ? & ?). right. exists s. split; [done|].
      by exists ce, edges.
Qed.


(** ** calc_ignored_lines *)

Lemma enumerate_snoc {A} (l : list A) (x : A) :
  ∀ start, enumerate start (l ++ [x]) = enumerate start l ++ [(start + Z.of_nat (length l), x)].
Proof.
  induction l as [|y l IH]; intros start; cbn [enumerate app length].
  - by rewrite Z.add_0_r.
  - rewrite IH. replace (start + Z.of_nat (S (length l)))
      with (start + 1 + Z.of_nat (length l)) by lia. done.
Qed.

Lemma in_block_unique (ms : list re_match) (t t' k : nat) :
  in_block ms t k → in_block ms t' k → t = t'.
Proof.
  intros (Ht & (mt & Hmt & Htr & Hrun) & _) (Ht' & (mt' & Hmt' & Htr' & Hrun') & _).
  destruct (Nat.lt_trichotomy t t') as [Hlt|[?|Hlt]]; [|done|].
  - destruct (Hrun t' mt') as [Hf _]; [lia|done|congruence].
  - destruct (Hrun' t mt) as [Hf _]; [lia|done|congruence].
Qed.

Lemma in_block_prefix (ms : list re_match) (m : re_match) (t k : nat) :
  (k < length ms)%nat → in_block (ms ++ [m]) t k ↔ in_block ms t k.
Proof.
  intros Hk. unfold in_block. rewrite length_app. cbn [length].
  split; intros (Ht & (mt & Hmt & Htr & Hrun) & _).
  - split; [done|]. split; [|done]. exists mt.
    rewrite lookup_app_l in Hmt by lia. split_and!; [done..|].
    intros j mj Hj Hmj. apply (Hrun j mj Hj). by rewrite lookup_app_l by lia.
  - split; [done|]. split; [|lia]. exists mt.
    rewrite lookup_app_l by lia. split_and!; [done..|].
    intros j mj Hj Hmj. apply (Hrun j mj Hj). by rewrite lookup_app_l in Hmj by lia.
Qed.

(** The block of the last line of [ms ++ [m]]: the line is a trigger
    itself, or it extends the block of the line before it. *)
Lemma in_block_last (ms : list re_match) (m : re_match) (t : nat) :
  in_block (ms ++ [m]) t (length ms)
  ↔ (t = length ms ∧ m_trigger m = true)
    ∨ (m_trigger m = false ∧ ∃ k, length ms = S k ∧ in_block ms t k
         ∧ ∃ mt, ms !! t = Some mt ∧ (m_indent mt < m_indent m)%nat).
Proof.
  unfold in_block. rewrite length_app. cbn [length]. split.
  - intros (Ht & (mt & Hmt & Htr & Hrun) & _).
    destruct (decide (t = length ms)) as [->|Hne].
    + left. split; [done|]. rewrite lookup_app_r, Nat.sub_diag in Hmt by lia.
      cbn in Hmt. congruence.
    + right. destruct (Hrun (length ms) m) as [Hf Hind]; [lia| |].
      { rewrite lookup_app_r, Nat.sub_diag by lia. done. }
      split; [done|]. destruct (length ms) as [|k] eqn:Hlen; [lia|].
      exists k. split; [done|]. rewrite lookup_app_l in Hmt by lia.
      split; [|by exists mt]. split; [lia|]. split; [|lia]. exists mt.
      split_and!; [done..|]. intros j mj Hj Hmj. apply (Hrun j mj); [lia|].
      rewrite lookup_app_l by lia. done.
  - intros [[-> Htr]|(Hf & k & Hlen & (Ht & (mt & Hmt & Htr & Hrun) & _) & mt' & Hmt' & Hind)].
    + split; [done|]. split; [|lia]. exists m.
      rewrite lookup_app_r, Nat.sub_diag by lia. split_and!; [done..|]. intros j mj Hj. lia.
    + rewrite Hmt in Hmt'. injection Hmt' as <-.
      split; [lia|]. split; [|lia]. exists mt.
      rewrite lookup_app_l by (apply lookup_lt_Some in Hmt; lia). split_and!; [done..|].
      intros j mj Hj Hmj. destruct (decide (j = length ms)) as [->|Hne].
      * rewrite lookup_app_r, Nat.sub_diag in Hmj by lia. cbn in Hmj.
        injection Hmj as <-. done.
      * apply (Hrun j mj); [lia|]. rewrite lookup_app_l in Hmj by lia. done.
Qed.

(** The state of [calc_ignored_lines] after the lines [l]: the sets hold
    the lines that lie in a block, the explicit set those whose block a
    directive opens, and [indent] tells whether the last line lies in a
    block. *)
Lemma ignore_fold_spec (re : string → re_match) (l : list string) :
  let ms := map re l in
  let st := foldl (Ignore.step re) Ignore.init (enumerate 1 l) in
  (∀ line, line ∈ Ignore.explicit st ∪ Ignore.implicit st
           ↔ ∃ t k, line = Z.of_nat k + 1 ∧ in_block ms t k)
  ∧ (∀ line, line ∈ Ignore.explicit st
             ↔ ∃ t k mt, line = Z.of_nat k + 1 ∧ in_block ms t k
                         ∧ ms !! t = Some mt ∧ m_directive mt = true)
  ∧ ((Ignore.indent st = -1
      ∧ ∀ t k, length l = S k → ¬ in_block ms t k)
     ∨ (∃ t k mt, length l = S k ∧ in_block ms t k ∧ ms !! t = Some mt
                  ∧ Ignore.indent st = Z.of_nat (m_indent mt)
                  ∧ Ignore.is_directive st = m_directive mt)).
Proof.
  cbn zeta. induction l as [|x l (IHa & IHe & IHs)] using rev_ind.
  - cbn. split_and!.
    + intros line. split; [set_solver|]. intros (t & k & _ & _ & _ & Hk). cbn in Hk. lia.
    + intros line. split; [set_solver|].
      intros (t & k & mt & _ & (_ & _ & Hk) & _). cbn in Hk. lia.
    + left. split; [done|]. intros t k Hk. done.
  - rewrite enumerate_snoc, foldl_snoc, map_app. cbn [map].
    set (st := foldl (Ignore.step re) Ignore.init (enumerate 1 l)) in *.
    set (ms := map re l) in *.
    assert (length ms = length l) as Hlen by apply length_map.
    set (line0 := 1 + Z.of_nat (length l)).
    assert (∀ line,
              (∃ t k, line = Z.of_nat k + 1 ∧ in_block (ms ++ [re x]) t k)
              ↔ (∃ t k, line = Z.of_nat k + 1 ∧ in_block ms t k)
                ∨ (line = line0 ∧ ∃ t, in_block (ms ++ [re x]) t (length ms))) as Ha.
    { intros line. split.
      - intros (t & k & -> & Hb). destruct (decide (k = length ms)) as [->|Hne].
        + right. split; [unfold line0; lia|]. by exists t.
        + left. exists t, k. split; [done|].
          assert (k < length ms)%nat as Hk.
          { destruct Hb as (_ & _ & Hk). rewrite length_app in Hk. cbn in Hk. lia. }
          exact (proj1 (in_block_prefix ms (re x) t k Hk) Hb).
      - intros [(t & k & -> & Hb)|(-> & t & Hb)].
        + exists t, k. split; [done|].
          assert (k < length ms)%nat as Hk by (by destruct Hb as (_ & _ & ?)).
          exact (proj2 (in_block_prefix ms (re x) t k Hk) Hb).
        + exists t, (length ms). split; [unfold line0; lia|done]. }
    assert (∀ line,
              (∃ t k mt, line = Z.of_nat k + 1 ∧ in_block (ms ++ [re x]) t k
                         ∧ (ms ++ [re x]) !! t = Some mt ∧ m_directive mt = true)
              ↔ (∃ t k mt, line = Z.of_nat k + 1 ∧ in_block ms t k
                           ∧ ms !! t = Some mt ∧ m_directive mt = true)
                ∨ (line = line0 ∧ ∃ t mt, in_block (ms ++ [re x]) t (length ms)
                     ∧ (ms ++ [re x]) !! t = Some mt ∧ m_directive mt = true)) as He.
    { intros line. split.
      - intros (t & k & mt & -> & Hb & Hmt & Hd).
        destruct (decide (k = length ms)) as [->|Hne].
        + right. split; [unfold line0; lia|]. by exists t, mt.
        + left. exists t, k, mt. split; [done|].
          assert (k < length ms)%nat as Hk.
          { destruct Hb as (_ & _ & Hk). rewrite length_app in Hk. cbn in Hk. lia. }
          apply (in_block_prefix ms (re x) t k Hk) in Hb. split; [done|]. split; [|done].
          rewrite lookup_app_l in Hmt; [done|]. destruct Hb as (? & _ & _). lia.
      - intros [(t & k & mt & -> & Hb & Hmt & Hd)|(-> & t & mt & Hb & Hmt & Hd)].
        + exists t, k, mt. split; [done|]. split.
          * assert (k < length ms)%nat as Hk by (by destruct Hb as (_ & _ & ?)).
            exact (proj2 (in_block_prefix ms (re x) t k Hk) Hb).
          * split; [|done]. rewrite lookup_app_l; [done|]. by eapply lookup_lt_Some.
        + exists t, (length ms), mt. split; [unfold line0; lia|done]. }
    cbn [Ignore.step]. fold line0.
    destruct (m_trigger (re x)) eqn:Htr.
    + (* the line matches a trigger *)
      assert (∀ t, in_block (ms ++ [re x]) t (length ms) ↔ t = length ms) as Hlast.
      { intros t. rewrite in_block_last. split; [|by left].
        intros [[? _]|[Hf _]]; [done|congruence]. }
      assert ((ms ++ [re x]) !! length ms = Some (re x)) as Hlk.
      { rewrite lookup_app_r, Nat.sub_diag by lia. done. }
      split_and!.
      * intros line. rewrite Ha. setoid_rewrite Hlast. rewrite <- IHa.
        unfold Ignore.add_line. destruct (m_directive (re x)); cbn; set_solver.
      * intros line. rewrite He. setoid_rewrite Hlast. rewrite <- IHe.
        unfold Ignore.add_line. destruct (m_directive (re x)) eqn:Hd; cbn.
        -- rewrite elem_of_union, elem_of_singleton. split.
           ++ intros [?| ->]; [by left|]. right. split; [done|]. by exists (length ms), (re x).
           ++ intros [?|[-> _]]; [by left|by right].
        -- split; [by left|]. intros [?|(_ & t & mt & -> & Hmt & Hdir)]; [done|].
           rewrite Hlk in Hmt. injection Hmt as <-. congruence.
      * right. exists (length ms), (length l), (re x).
        rewrite length_app. cbn [length]. split; [lia|]. rewrite <- Hlen at 1.
        split; [by apply Hlast|]. split; [done|].
        unfold Ignore.add_line. by destruct (m_directive (re x)).
    + (* the line matches no trigger *)
      assert (∀ t, in_block (ms ++ [re x]) t (length ms)
                   ↔ ∃ k, length ms = S k ∧ in_block ms t k
                          ∧ ∃ mt, ms !! t = Some mt
                                  ∧ (m_indent mt < m_indent (re x))%nat) as Hlast.
      { intros t. rewrite in_block_last. split; [|by right].
        intros [[_ Hf]|[_ ?]]; [congruence|done]. }
      destruct IHs as [[Hind Hnone]|(t0 & k0 & mt0 & Hk0 & Hb0 & Hmt0 & Hind & Hdir)].
      * (* no block is open *)
        rewrite Hind. cbn [Z.ltb Z.compare andb].
        assert (∀ t, ¬ in_block (ms ++ [re x]) t (length ms)) as Hno.
        { intros t [k (Hk & Hb & _)]%Hlast. apply (Hnone t k); [lia|done]. }
        split_and!.
        -- intros line. rewrite Ha, <- IHa. cbn. split; [by left|].
           intros [?|(_ & t & Hb)]; [done|]. by apply Hno in Hb.
        -- intros line. rewrite He, <- IHe. cbn. split; [by left|].
           intros [?|(_ & t & mt & Hb & _)]; [done|]. by apply Hno in Hb.
        -- left. split; [done|]. intros t k. rewrite length_app. cbn [length].
           intros Hk Hb. apply (Hno t). replace (length ms) with k by lia. done.
      * (* a block is open *)
        rewrite Hind.
        assert ((-1 <? Z.of_nat (m_indent mt0)) = true) as -> by (apply Z.ltb_lt; lia).
        cbn [andb].
        destruct (Z.of_nat (m_indent mt0) <? Z.of_nat (m_indent (re x))) eqn:Hdeeper.
        -- apply Z.ltb_lt in Hdeeper.
           assert (∀ t, in_block (ms ++ [re x]) t (length ms) ↔ t = t0) as Hlast'.
           { intros t. rewrite Hlast. split.
             - intros (k & Hk & Hb & _). assert (k = k0) as -> by lia.
               by eapply in_block_unique.
             - intros ->. exists k0. split; [lia|]. split; [done|]. exists mt0.
               split; [done|lia]. }
           assert ((ms ++ [re x]) !! t0 = Some mt0) as Hlk.
           { rewrite lookup_app_l; [done|]. by eapply lookup_lt_Some. }
           split_and!.
           ++ intros line. rewrite Ha. setoid_rewrite Hlast'. rewrite <- IHa.
              unfold Ignore.add_line. destruct (Ignore.is_directive st); cbn; set_solver.
           ++ intros line. rewrite He. setoid_rewrite Hlast'. rewrite <- IHe.
              unfold Ignore.add_line. rewrite Hdir.
              destruct (m_directive mt0) eqn:Hd; cbn.
              ** rewrite elem_of_union, elem_of_singleton. split.
                 --- intros [?| ->]; [by left|]. right. split; [done|]. by exists t0, mt0.
                 --- intros [?|[-> _]]; [by left|by right].
              ** split; [by left|]. intros [?|(_ & t & mt & -> & Hmt & Hdir')]; [done|].
                 rewrite Hlk in Hmt. injection Hmt as <-. congruence.
           ++ right. exists t0, (length l), mt0. rewrite length_app. cbn [length].
              split; [lia|]. rewrite <- Hlen at 1. split; [by apply Hlast'|].
              split; [done|]. unfold Ignore.add_line.
              by destruct (Ignore.is_directive st).
        -- apply Z.ltb_ge in Hdeeper.
           assert (∀ t, ¬ in_block (ms ++ [re x]) t (length ms)) as Hno.
           { intros t (k & Hk & Hb & mt & Hmt & Hlt)%Hlast.
             assert (k = k0) as -> by lia.
             pose proof (in_block_unique _ _ _ _ Hb Hb0) as ->.
             rewrite Hmt0 in Hmt. injection Hmt as <-. lia. }
           split_and!.
           ++ intros line. rewrite Ha, <- IHa. cbn. split; [by left|].
              intros [?|(_ & t & Hb)]; [done|]. by apply Hno in Hb.
           ++ intros line. rewrite He, <- IHe. cbn. split; [by left|].
              intros [?|(_ & t & mt & Hb & _)]; [done|]. by apply Hno in Hb.
           ++ left. split; [done|]. intros t k. rewrite length_app. cbn [length].
              intros Hk Hb. apply (Hno t). replace (length ms) with k by lia. done.
Qed.

(** The ignored lines of a file.  A line is ignored exactly when it lies
    in a block: it matches an ignore trigger, or it follows a trigger line
    with nothing between them but lines that match no trigger and are
    indented more than the trigger line.  It is explicitly ignored exactly
    when the trigger of its block is the directive.  So a line that is
    indented no more than the trigger, a blank line for one, ends the
    block. *)
Theorem calc_ignored_lines_blocks (re : string → re_match) (line_texts : list string)
    (line : Z) :
  let ms := map re line_texts in
  let r := calc_ignored_lines re line_texts in
  (line ∈ r.1 ↔ ∃ t k, line = Z.of_nat k + 1 ∧ in_block ms t k)
  ∧ (line ∈ r.2 ↔ ∃ t k mt, line = Z.of_nat k + 1 ∧ in_block ms t k
                            ∧ ms !! t = Some mt ∧ m_directive mt = true).
Proof.
  cbn zeta. unfold calc_ignored_lines. cbn [fst snd].
  destruct (ignore_fold_spec re line_texts) as (Ha & He & _). split; [apply Ha|apply He].
Qed.

(** ** expand_targets *)

Lemma find_char_None (c : Ascii.ascii) (s : list Ascii.ascii) : find_char c s = None ↔ c ∉ s.
Proof.
  induction s as [|x s IH]; cbn; [split; [by intros _ ?%elem_of_nil|done]|].
  destruct (Ascii.eqb_spec x c) as [->|Hne].
  - split; [done|]. intros Hn. exfalso. apply Hn. by left.
  - rewrite fmap_None, IH, not_elem_of_cons. split; [by intros ?; split|by intros [_ ?]].
Qed.

Lemma find_char_first (c : Ascii.ascii) (l1 l2 : list Ascii.ascii) :
  c ∉ l1 → find_char c (l1 ++ c :: l2) = Some (length l1).
Proof.
  induction l1 as [|x l1 IH]; intros Hn; cbn.
  - by rewrite Ascii.eqb_refl.
  - apply not_elem_of_cons in Hn as [Hne Hn].
    destruct (Ascii.eqb_spec x c) as [->|_]; [done|]. by rewrite IH.
Qed.

Lemma py_replace_no_old (s : list Ascii.ascii) (a b : Ascii.ascii) : a ≠ b → a ∉ py_replace s a b.
Proof.
  intros Hne Hin. unfold py_replace in Hin. apply list_elem_of_fmap in Hin as (c & Hc & _).
  destruct (Ascii.eqb_spec c a); congruence.
Qed.

Lemma py_replace_join (a b : Ascii.ascii) (comps : list (list Ascii.ascii)) :
  Forall (λ c, a ∉ c) comps → py_replace (join a comps) a b = join b comps.
Proof.
  assert (∀ c : list Ascii.ascii, a ∉ c → py_replace c a b = c) as Hid.
  { intros c Hc. unfold py_replace. rewrite <- (map_id c) at 2. apply map_ext_in.
    intros x Hx%list_elem_of_In. destruct (Ascii.eqb_spec x a) as [->|]; done. }
  induction comps as [|c [|c' cs] IH]; intros Hall; [done| |].
  - cbn. apply Hid. by apply Forall_inv in Hall.
  - apply Forall_cons in Hall as [Hc Hall].
    change (join a (c :: c' :: cs)) with (c ++ a :: join a (c' :: cs)).
    change (join b (c :: c' :: cs)) with (c ++ b :: join b (c' :: cs)).
    unfold py_replace in *. rewrite map_app. cbn [map]. rewrite Ascii.eqb_refl.
    rewrite (Hid c Hc), IH; done.
Qed.

Lemma join_no_char (x sep : Ascii.ascii) (comps : list (list Ascii.ascii)) :
  x ≠ sep → Forall (λ c, x ∉ c) comps → x ∉ join sep comps.
Proof.
  intros Hne. induction comps as [|c [|c' cs] IH]; intros Hall.
  - by intros ?%elem_of_nil.
  - by apply Forall_inv in Hall.
  - apply Forall_cons in Hall as [Hc Hall].
    change (join sep (c :: c' :: cs)) with (c ++ sep :: join sep (c' :: cs)).
    rewrite elem_of_app, elem_of_cons. intros [?|[?|?]]; [done|done|]. by apply IH.
Qed.

(** No target that [expand_targets] returns holds a slash: a word is kept
    as it is only when it has none, and [expand_module_path] replaces
    every slash of the stem. *)
Theorem expanded_targets_have_no_slash (arg_targets : list (list Ascii.ascii)) :
  Forall (λ word, slash ∉ expand_module_name_or_path word) arg_targets
  ∧ set_Forall (λ target, slash ∉ target) (expand_targets arg_targets).
Proof.
  assert (∀ word, slash ∉ expand_module_name_or_path word) as Hword.
  { intros word. unfold expand_module_name_or_path.
    destruct (endswith _ _); cbn [orb].
    - by apply py_replace_no_old.
    - case_bool_decide; [by apply py_replace_no_old|done]. }
  split; [by apply Forall_forall|].
  unfold expand_targets.
  assert (∀ l (acc : gset (list Ascii.ascii)),
            set_Forall (λ target, slash ∉ target) acc →
            set_Forall (λ target, slash ∉ target)
              (foldl (λ targets arg, targets ∪ {[expand_module_name_or_path arg]}) acc l))
    as Hfold.
  { induction l as [|w l IH]; intros acc Hacc; [done|]. cbn [foldl]. apply IH.
    apply set_Forall_union; [done|]. apply set_Forall_singleton, Hword. }
  apply Hfold. intros t Ht. by apply elem_of_empty in Ht.
Qed.

(** A path to a source file names its module: for a path made of
    directory and file names that hold neither a slash nor a dot, joined
    by slashes and followed by a dot and an extension without slash,
    [expand_module_path] returns the names joined by dots, and so does
    [expand_module_name_or_path] when the extension is [py]. *)
Theorem expand_module_path_of_components (comps : list (list Ascii.ascii)) (ext : list Ascii.ascii) :
  comps ≠ [] →
  Forall (λ c, slash ∉ c ∧ dot ∉ c) comps →
  slash ∉ ext →
  expand_module_path (join slash comps ++ dot :: ext) = join dot comps
  ∧ (ext = String.list_ascii_of_string "py" →
     expand_module_name_or_path (join slash comps ++ dot :: ext) = join dot comps).
Proof.
  intros Hne Hall Hext. destruct comps as [|c cs]; [done|].
  assert (Forall (λ c, slash ∉ c) (c :: cs)) as Hslash
    by (eapply Forall_impl; [exact Hall|]; by intros ? [? _]).
  assert (Forall (λ c, dot ∉ c) (c :: cs)) as Hdot
    by (eapply Forall_impl; [exact Hall|]; by intros ? [_ ?]).
  set (stem := join slash (c :: cs)).
  assert (dot ∉ stem) as Hstem by (by apply join_no_char).
  assert (expand_module_path (stem ++ dot :: ext) = join dot (c :: cs)) as Hexp.
  { unfold expand_module_path.
    set (slash_pos := if py_find (stem ++ dot :: ext) slash 0 =? -1 then 0
                      else py_find (stem ++ dot :: ext) slash 0).
    assert (0 ≤ slash_pos ≤ Z.of_nat (length stem)) as Hpos.
    { unfold slash_pos, py_find.
      replace (drop (Z.to_nat 0) (stem ++ dot :: ext)) with (stem ++ dot :: ext) by done.
      destruct (find_char slash (stem ++ dot :: ext)) as [i|] eqn:Hfind;
        [|rewrite Z.eqb_refl; lia].
      assert (0 + Z.of_nat i =? -1 = false) as -> by (apply Z.eqb_neq; lia).
      split; [lia|]. destruct cs as [|c' cs].
      - exfalso. assert (slash ∉ stem ++ dot :: ext) as Hno.
        { rewrite elem_of_app, elem_of_cons. intros [Hs|[?|?]]; [|done..].
          by apply Forall_inv in Hslash. }
        apply find_char_None in Hno. congruence.
      - subst stem.
        change (join slash (c :: c' :: cs)) with (c ++ slash :: join slash (c' :: cs)) in *.
        rewrite <- app_assoc in Hfind. cbn [app] in Hfind.
        rewrite find_char_first in Hfind by (by apply Forall_inv in Hslash).
        injection Hfind as <-. rewrite length_app. lia. }
    clearbody slash_pos.
    assert (py_find (stem ++ dot :: ext) dot slash_pos = Z.of_nat (length stem)) as ->.
    { unfold py_find. rewrite drop_app_le by lia.
      rewrite find_char_first.
      - rewrite length_drop. lia.
      - intros Hin. apply Hstem. rewrite <- (take_drop (Z.to_nat slash_pos) stem).
        apply elem_of_app. by right. }
    assert (Z.of_nat (length stem) =? -1 = false) as -> by (apply Z.eqb_neq; lia).
    rewrite Nat2Z.id, take_app_length. by apply py_replace_join. }
  split; [exact Hexp|]. intros ->. unfold expand_module_name_or_path.
  assert (endswith (stem ++ dot :: String.list_ascii_of_string "py")
            (String.list_ascii_of_string ".py") = true) as ->; [|exact Hexp].
  unfold endswith. apply bool_decide_eq_true.
  rewrite length_app. cbn [length String.list_ascii_of_string].
  replace (length stem + 3 - 3)%nat with (length stem) by lia.
  by rewrite drop_app_length.
Qed.

Lemma expand_module_path_of_components_witness :
  expand_module_path (String.list_ascii_of_string "pkg/sub/mod.py") = String.list_ascii_of_string "pkg.sub.mod"
  ∧ (String.list_ascii_of_string "py" = String.list_ascii_of_string "py" →
     expand_module_name_or_path (String.list_ascii_of_string "pkg/sub/mod.py")
     = String.list_ascii_of_string "pkg.sub.mod").
Proof.
  apply (expand_module_path_of_components
           [String.list_ascii_of_string "pkg"; String.list_ascii_of_string "sub"; String.list_ascii_of_string "mod"]
           (String.list_ascii_of_string "py")).
  - discriminate.
  - repeat constructor; cbn; set_solver.
  - cbn. set_solver.
Defined.

(** ** install_trace: the local tracer *)

Lemma local_tracer_fold (events : list (string * Z * Z)) :
  ∀ (edges : gset (Z * Z * Z)) (prev_off : Z),
    let r := foldl coven_local_tracer (edges, prev_off) events in
    edges ⊆ r.1
    ∧ (∀ s d line, (s, d, line) ∈ r.1 →
         (s, d, line) ∈ edges
         ∨ (("opcode", d, line) ∈ events
            ∧ (s = prev_off ∨ ∃ s' line', (s', s, line') ∈ r.1)))
    ∧ (∀ d line, ("opcode", d, line) ∈ events → ∃ s, (s, d, line) ∈ r.1)
    ∧ (∀ pre d line rest,
         events = pre ++ ("opcode", d, line) :: rest →
         (∀ d' line', ("opcode", d', line') ∉ pre) →
         (prev_off, d, line) ∈ r.1).
Proof.
  induction events as [|[[event off] ln] events IH]; intros edges prev_off; cbn zeta.
  - cbn [foldl fst]. split_and!; [done|by left| |].
    + by intros d line ?%elem_of_nil.
    + intros pre d line rest Heq. by destruct pre.
  - cbn [foldl].
    change (coven_local_tracer (edges, prev_off) (event, off, ln))
      with (if String.eqb event "opcode" then (edges ∪ {[(prev_off, off, ln)]}, off)
            else (edges, prev_off)).
    destruct (String.eqb event "opcode") eqn:Hevent.
    + apply String.eqb_eq in Hevent. subst event.
      specialize (IH (edges ∪ {[(prev_off, off, ln)]}) off). cbn zeta in IH.
      destruct IH as (Hsub & Hsrc & Hdst & Hfirst).
      set (r := foldl coven_local_tracer (edges ∪ {[(prev_off, off, ln)]}, off) events) in *.
      split_and!.
      * set_solver.
      * intros s d line Hin. apply Hsrc in Hin as [Hin|(Hev & Hs)].
        -- apply elem_of_union in Hin as [?|Hin]; [by left|].
           apply elem_of_singleton in Hin. injection Hin as -> -> ->.
           right. split; [by left|by left].
        -- right. split; [by right|]. destruct Hs as [->|?]; [|by right].
           right. exists prev_off, ln. apply Hsub. set_solver.
      * intros d line [[= <- <-]|Hin]%elem_of_cons.
        -- exists prev_off. apply Hsub. set_solver.
        -- by apply Hdst.
      * intros pre d line rest Heq Hpre. destruct pre as [|p pre].
        -- injection Heq as <- <- _. apply Hsub. set_solver.
        -- injection Heq as <- _. exfalso. apply (Hpre off ln). by left.
    + specialize (IH edges prev_off). cbn zeta in IH.
      destruct IH as (Hsub & Hsrc & Hdst & Hfirst).
      split_and!.
      * done.
      * intros s d line Hin. apply Hsrc in Hin as [?|(Hev & Hs)]; [by left|].
        right. split; [by right|done].
      * intros d line [[= Hev _ _]|Hin]%elem_of_cons; [|by apply Hdst].
        subst event. by rewrite String.eqb_refl in Hevent.
      * intros pre d line rest Heq Hpre. destruct pre as [|p pre].
        -- injection Heq as Hev _ _ _. subst event.
           by rewrite String.eqb_refl in Hevent.
        -- injection Heq as <- Heq. apply (Hfirst pre d line rest Heq).
           intros d' line' Hin. apply (Hpre d' line'). by right.
Qed.

(** The traced edges of a code object form walks from BEGIN.  The source
    of every traced edge is BEGIN or the destination of a traced edge; its
    destination and line are those of an opcode event of one of the
    calls.  Every opcode event is the destination of a traced edge with
    its line, and the first opcode event of each call gives an edge from
    BEGIN. *)
Theorem traced_edges_form_walks (calls : list (list (string * Z * Z))) :
  let edges := trace_calls calls in
  (∀ s d line, (s, d, line) ∈ edges →
     (s = OFF_BEGIN ∨ ∃ s' line', (s', s, line') ∈ edges)
     ∧ ∃ events, events ∈ calls ∧ ("opcode", d, line) ∈ events)
  ∧ (∀ events d line, events ∈ calls → ("opcode", d, line) ∈ events →
       ∃ s, (s, d, line) ∈ edges)
  ∧ (∀ events pre d line rest,
       events ∈ calls → events = pre ++ ("opcode", d, line) :: rest →
       (∀ d' line', ("opcode", d', line') ∉ pre) →
       (OFF_BEGIN, d, line) ∈ edges).
Proof.
  cbn zeta. unfold trace_calls.
  induction calls as [|events calls (IH1 & IH2 & IH3)] using rev_ind.
  - cbn. split_and!.
    + by intros s d line ?%elem_of_empty.
    + by intros events d line ?%elem_of_nil.
    + by intros events pre d line rest ?%elem_of_nil.
  - rewrite foldl_snoc. set (acc := foldl trace_call ∅ calls) in *.
    change (trace_call acc events)
      with ((foldl coven_local_tracer (acc, OFF_BEGIN) events).1).
    destruct (local_tracer_fold events acc OFF_BEGIN) as (Hsub & Hsrc & Hdst & Hfirst).
    set (r := foldl coven_local_tracer (acc, OFF_BEGIN) events) in *.
    split_and!.
    + intros s d line Hin. apply Hsrc in Hin as [Hin|(Hev & Hs)].
      * apply IH1 in Hin as ([->|(s' & line' & Hs')] & events' & Hc & Hev).
        -- split; [by left|]. exists events'. split; [|done]. apply elem_of_app. by left.
        -- split; [right; exists s', line'; by apply Hsub|].
           exists events'. split; [|done]. apply elem_of_app. by left.
      * split; [done|]. exists events. split; [|done]. apply elem_of_app. right. by left.
    + intros events' d line [Hc|Hc%list_elem_of_singleton]%elem_of_app Hev.
      * destruct (IH2 events' d line Hc Hev) as [s Hs]. exists s. by apply Hsub.
      * subst events'. by apply Hdst.
    + intros events' pre d line rest [Hc|Hc%list_elem_of_singleton]%elem_of_app Heq Hpre.
      * apply Hsub. by eapply IH3.
      * subst events'. by eapply Hfirst.
Qed.

(** ** Emitted edges are edges of the graph *)

Lemma add_block_dst_store (l l' : links) (src : Z) (dst_off : pyval) :
  add_block_dst l src dst_off = OK l' → store l' = store l.
Proof.
  unfold add_block_dst. destruct (truthy dst_off); [|by intros [= <-]].
  destruct (lookup_py _ _) as [t| |]; cbn; try done. by intros [= <-].
Qed.

(** The second scan changes the instruction store only by setting the
    flag of a handler, under the handler's own offset. *)
Lemma link_step_store (path name : string) (sc : scan) (l l' : links) (i : inst) :
  link_step path name sc l i = OK l' →
  store l' = store l ∨ ∃ h, store l' = <[off h := set_is_SF_exc_opt h]> (store l).
Proof.
  unfold link_step.
  destruct (bool_decide (opcode (raw i) = OP_BEGIN) || bool_decide (opcode (raw i) = OP_RAISED));
    [intros [= <-]; by left|].
  destruct (if bool_decide (opcode (raw i) ∉ stop_opcodes) && negb (is_call_exit i) then _ else _)
    as [d1| |]; cbn [rbind]; try done.
  destruct (if bool_decide (opcode (raw i) ∈ jump_opcodes) then _ else _)
    as [d2| |]; cbn [rbind]; try done.
  destruct (bool_decide (opcode (raw i) = BREAK_LOOP)).
  { destruct (v_dst sc) as [dst|]; cbn; [|done].
    destruct (truthy dst); cbn.
    - destruct (lookup_py _ _) as [t| |]; cbn; try done. intros [= <-]. by left.
    - destruct (v_line sc); cbn; [|done]. by destruct (v_off sc). }
  destruct (bool_decide (opcode (raw i) = END_FINALLY));
    [intros H%add_block_dst_store; by left|].
  destruct (bool_decide (opcode (raw i) = RAISE_VARARGS));
    [intros H%add_block_dst_store; by left|].
  destruct (bool_decide (opcode (raw i) = RETURN_VALUE));
    [intros H%add_block_dst_store; by left|].
  destruct (bool_decide (opcode (raw i) = SETUP_FINALLY)).
  { destruct (nexts sc !! off i) as [n|]; cbn; [|done].
    destruct (store l !! n) as [nxt|]; cbn; [|done].
    destruct (is_SF_exc_opt_fn _ _ _ _) as [[is_opt ws]| |]; cbn; try done.
    destruct is_opt; [|intros [= <-]; by left].
    destruct (lookup_py _ _) as [h| |]; cbn; try done. intros [= <-]. right. by exists h. }
  destruct (bool_decide (opcode (raw i) = YIELD_VALUE)).
  { destruct (nexts sc !! off i) as [n|]; cbn; [|done]. intros [= <-]. by left. }
  destruct (bool_decide (opcode (raw i) = YIELD_FROM)).
  { destruct (nexts sc !! off i) as [n|]; cbn; [|done]. intros [= <-]. by left. }
  intros [= <-]. by left.
Qed.

(** Every instruction object of the graph is stored under its own offset. *)
Lemma build_graph_offs (fuel : nat) (path : string) (c : code) (g : graph)
    (warnings : list diagnostic) (o : Z) (i : inst) :
  build_graph fuel path c = OK (g, warnings) → g_insts g !! o = Some i → off i = o.
Proof.
  unfold build_graph.
  destruct (scan_code c) as [sc| |] eqn:Hsc; cbn [rbind]; try done.
  destruct (link_code _ _ sc) as [l| |] eqn:Hl; cbn [rbind]; try done.
  destruct (visit_nodes _ _ _ _ _) as [[vis arcs]| |]; cbn [rbind]; try done.
  intros [= <- <-]. cbn. revert o i. unfold link_code in Hl.
  eapply (foldM_inv _ (λ l : links, ∀ o i, store l !! o = Some i → off i = o));
    [| |exact Hl].
  - intros l0 o l1 _ Hl0. unfold link_loop.
    destruct (store l0 !! o) as [i|]; cbn; [|done].
    intros [->|[h ->]]%link_step_store; [exact Hl0|].
    intros o' i'. rewrite lookup_insert. case_decide as Ho; [|apply Hl0].
    intros [= <-]. exact Ho.
  - cbn. intros o i Hi. by destruct (scan_code_entries c sc o i Hsc Hi) as [? _].
Qed.

Lemma arc_chain_walk (dsts srcs : gmap Z (gset Z)) (l : list Z) :
  ∀ x, arc_chain dsts srcs x l → walk dsts x l.
Proof.
  induction l as [|y l IH]; intros x; cbn; [done|].
  intros [[Hel _] Hc]. split; [|by apply IH].
  apply elem_of_elements. rewrite Hel. by left.
Qed.

(** The instruction objects of an arc, by their offsets. *)
Lemma arc_insts_offs (g : graph) (start : Z) (a0 : inst) (rest : list inst) :
  (∀ o i, g_insts g !! o = Some i → off i = o) →
  arc_insts g start = OK (a0, rest) →
  g_arcs g !! start = Some (off a0, map off rest).
Proof.
  intros Hoffs. unfold arc_insts.
  destruct (g_arcs g !! start) as [[a0_off r]|] eqn:Ha; cbn; [|done].
  destruct (g_insts g !! a0_off) as [a|] eqn:Hi; cbn; [|done].
  destruct (foldM _ [] r) as [ri| |] eqn:Hfold; cbn; try done. intros [= <- <-].
  rewrite (Hoffs _ _ Hi). do 2 f_equal.
  assert (∀ acc ri,
            foldM (λ acc o, let* i := from_option (g_insts g !! o) KeyError in
                            OK (acc ++ [i])) acc r = OK ri →
            map off ri = map off acc ++ r) as Hgen.
  { clear Hfold Ha. induction r as [|o r IH]; intros acc ri' Hfold; cbn in Hfold.
    - simplify_eq. by rewrite app_nil_r.
    - destruct (g_insts g !! o) as [i|] eqn:Hio; cbn in Hfold; [|done].
      rewrite (IH _ _ Hfold), map_app, <- app_assoc. cbn. by rewrite (Hoffs _ _ Hio). }
  by rewrite (Hgen [] ri Hfold).
Qed.

(** One iteration of the loop over an arc: the edge it passes to
    [add_edge]. *)
Lemma emit_step_edge (nexts : gmap Z Z) (src : inst) (is_src_opt : bool)
    (v v' : emit_vars) (i : inst) :
  emit_step nexts src is_src_opt v i = OK v' →
  ev_prev v' = i
  ∧ ∃ po line is_opt,
      ev_calls v' = ev_calls v ++ [((po, off i), line, is_opt)]
      ∧ (po = off (ev_prev v)
         ∨ (po = OFF_RAISED ∧ off src = off (ev_prev v)
            ∧ opcode (raw src) = FOR_ITER ∧ argval (raw src) = VInt (off i))).
Proof.
  unfold emit_step.
  destruct (assert _ _) as [[]| |]; cbn [rbind]; try done.
  destruct (if ev_is_opt v then _ else _) as [b| |]; cbn [rbind]; try done.
  intros [= <-]. cbn. split; [done|]. eexists _, _, _. split; [reflexivity|].
  destruct (bool_decide (off src = off (ev_prev v))) eqn:H1; cbn [andb]; [|by left].
  destruct (bool_decide (opcode (raw src) = FOR_ITER)) eqn:H2; cbn [andb]; [|by left].
  destruct (bool_decide (argval (raw src) = VInt (off i))) eqn:H3; [|by left].
  apply bool_decide_eq_true in H1, H2, H3. by right.
Qed.

Lemma emit_fold_edges (g : graph) (src : inst) (is_src_opt : bool) (arc : list inst) :
  g_insts g !! off src = Some src →
  ∀ v v',
    foldM (emit_step (g_nexts g) src is_src_opt) v arc = OK v' →
    walk (g_dsts g) (off (ev_prev v)) (map off arc) →
    Forall (λ c : Z * Z * Z * bool, graph_edge g c.1.1) (ev_calls v) →
    Forall (λ c : Z * Z * Z * bool, graph_edge g c.1.1) (ev_calls v').
Proof.
  intros Hsrc. induction arc as [|i arc IH]; intros v v' Hrun Hwalk Hcalls; cbn in Hrun.
  - by simplify_eq.
  - destruct (emit_step _ src is_src_opt v i) as [v1| |] eqn:Hstep; cbn in Hrun; try done.
    cbn in Hwalk. destruct Hwalk as [Hedge Hwalk].
    apply emit_step_edge in Hstep as (Hprev & po & line & b & Hc & Hpo).
    eapply IH; [exact Hrun|by rewrite Hprev|].
    rewrite Hc. apply Forall_app. split; [done|]. apply Forall_singleton. cbn.
    exists (off (ev_prev v)). cbn. split; [done|].
    destruct Hpo as [->|(-> & Heq & Hop & Harg)]; [by left|]. right. split; [done|].
    exists src. by rewrite <- Heq.
Qed.

Lemma emit_calls_edges (fuel : nat) (path : string) (c : code) (g : graph)
    (warnings : list diagnostic) (t : Z * Z * bool)
    (calls : list (Z * Z * Z * bool)) (ys : list (Z * Z * bool)) :
  build_graph fuel path c = OK (g, warnings) →
  emit_calls g t = OK (calls, ys) →
  Forall (λ c : Z * Z * Z * bool, graph_edge g c.1.1) calls.
Proof.
  intros Hg. unfold emit_calls. destruct t as [[src_off src_line] is_src_opt].
  destruct (g_insts g !! src_off) as [src|] eqn:Hsrc; cbn [from_option rbind]; [|done].
  pose proof (build_graph_offs _ _ _ _ _ _ _ Hg Hsrc) as Hoff.
  intros Hrun.
  eapply (foldM_inv _ (λ st : list (Z * Z * Z * bool) * list (Z * Z * bool),
            Forall (λ c : Z * Z * Z * bool, graph_edge g c.1.1) st.1)) in Hrun;
    [exact Hrun| |by constructor].
  intros [cs0 ys0] start [cs1 ys1] Hstart Hcs0.
  destruct (emit_arc g src src_line is_src_opt start) as [[cs y]| |] eqn:Harc; cbn; try done.
  intros [= <- <-]. cbn in *. apply Forall_app. split; [done|].
  revert Harc. unfold emit_arc, emit_loop.
  destruct (arc_insts g start) as [[a0 rest]| |] eqn:Hai; cbn [rbind]; try done.
  destruct (foldM (emit_step (g_nexts g) src is_src_opt) _ (a0 :: rest)) as [v| |] eqn:Hfold;
    cbn [rbind]; try done.
  intros [= <- _].
  apply arc_insts_offs in Hai; [|intros o i; by apply (build_graph_offs _ _ _ _ _ _ _ Hg)].
  destruct (build_graph_arcs _ _ _ _ _ _ _ _ Hg Hai) as (Ha0 & Hchain & _).
  eapply (emit_fold_edges g src is_src_opt (a0 :: rest)) in Hfold; [exact Hfold| | |].
  - by rewrite Hoff.
  - cbn. split.
    + rewrite Hoff, Ha0. by apply elem_of_elements.
    + by eapply arc_chain_walk.
  - cbn. constructor.
Qed.

(** Every edge that [crawl_code_insts] emits, required or optional, is
    an edge of the graph built in steps 1 to 3: its destination is a
    successor of its source.  The one exception is the edge of a FOR_ITER
    to its jump target, which is emitted with RAISED as its source. *)
Theorem emitted_edges_follow_graph (fuel : nat) (path : string) (c : code)
    (req opt : gmap (Z * Z) (gset Z)) (warnings : list diagnostic) :
  crawl_code_insts fuel path c = OK (req, opt, warnings) →
  ∃ g, build_graph fuel path c = OK (g, warnings)
       ∧ ∀ e, is_Some (req !! e) ∨ is_Some (opt !! e) → graph_edge g e.
Proof.
  unfold crawl_code_insts.
  destruct (build_graph fuel path c) as [[g w]| |] eqn:Hg; cbn [rbind]; try done.
  destruct (visit_nodes _ _ _ _ _) as [[visited [req' opt']]| |] eqn:Hv; cbn [rbind];
    try done.
  intros [= <- <- <-]. exists g. split; [done|].
  apply emit_visit_spec in Hv as (Hspec & Hkr & Hko).
  intros e He.
  assert (∃ t calls ys line b, emit_calls g t = OK (calls, ys) ∧ (e, line, b) ∈ calls)
    as (t & calls & ys & line & b & Hcalls & Hin).
  { destruct He as [He|He].
    - destruct (Hkr e He) as [line Hline].
      apply Hspec in Hline as (t & calls & ys & _ & Hc & Hin). by exists t, calls, ys, line, false.
    - destruct (Hko e He) as [line Hline].
      apply Hspec in Hline as (t & calls & ys & _ & Hc & Hin). by exists t, calls, ys, line, true. }
  pose proof (emit_calls_edges _ _ _ _ _ _ _ _ Hg Hcalls) as Hall.
  rewrite Forall_forall in Hall. exact (Hall _ Hin).
Qed.

Lemma emitted_edges_follow_graph_witness :
  ∃ req opt warnings g,
    crawl_code_insts 100 "m.py" try_finally_code = OK (req, opt, warnings)
    ∧ build_graph 100 "m.py" try_finally_code = OK (g, warnings)
    ∧ ∀ e, is_Some (req !! e) ∨ is_Some (opt !! e) → graph_edge g e.
Proof.
  assert (holds (crawl_code_insts 100 "m.py" try_finally_code)
            (λ r : gmap (Z * Z) (gset Z) * gmap (Z * Z) (gset Z) * list diagnostic,
               bool_decide (is_Some (r.1.1 !! (-1, 0)))) = true) as Hr
    by (vm_compute; reflexivity).
  apply holds_OK in Hr as ([[req opt] warnings] & Hr & _).
  destruct (emitted_edges_follow_graph 100 "m.py" try_finally_code req opt warnings Hr)
    as (g & Hg & He).
  exists req, opt, warnings, g. split; [exact Hr|]. split; [exact Hg|exact He].
Defined.

(** ** Why the graph has each of its edges *)

Lemma edges_justified_add (nexts : gmap Z Z) (store : gmap Z inst) (dsts : gmap Z (gset Z))
    (i : inst) (s d : Z) :
  edges_justified nexts store dsts →
  store !! off i = Some i →
  opcode (raw i) ≠ OP_BEGIN → opcode (raw i) ≠ OP_RAISED →
  edge_reason nexts i s d →
  edges_justified nexts store (set_add dsts s d).
Proof.
  intros Hj Hi Hb Hr Hreason s' d'. rewrite set_at_add.
  destruct (decide (s = s')) as [<-|]; [|apply Hj].
  intros [Hin| ->%elem_of_singleton]%elem_of_union; [by apply Hj|]. by exists i.
Qed.

Lemma edge_reason_flag (nexts : gmap Z Z) (h : inst) (s d : Z) :
  edge_reason nexts h s d → edge_reason nexts (set_is_SF_exc_opt h) s d.
Proof. done. Qed.

Lemma edges_justified_flag (nexts : gmap Z Z) (store : gmap Z inst) (dsts : gmap Z (gset Z))
    (h : inst) :
  (∀ o i, store !! o = Some i → off i = o) →
  store !! off h = Some h →
  edges_justified nexts store dsts →
  edges_justified nexts (<[off h := set_is_SF_exc_opt h]> store) dsts.
Proof.
  intros Hoffs Hh Hj s d Hin. destruct (Hj s d Hin) as (i & Hi & Hb & Hr & Hreason).
  destruct (decide (off h = off i)) as [Heq|Hne].
  - assert (i = h) as -> by (rewrite <- Heq, Hh in Hi; by injection Hi).
    exists (set_is_SF_exc_opt h). cbn. rewrite lookup_insert, decide_True by done.
    split_and!; [done..|]. by apply edge_reason_flag.
  - exists i. rewrite lookup_insert, decide_False by done. done.
Qed.

Lemma lookup_py_off (store : gmap Z inst) (v : pyval) (t : inst) :
  (∀ o i, store !! o = Some i → off i = o) →
  lookup_py store v = OK t → v = VInt (off t) ∧ store !! off t = Some t.
Proof.
  intros Hoffs (z & -> & Ht)%lookup_py_OK. by rewrite (Hoffs _ _ Ht).
Qed.

Lemma add_block_dst_justified (nexts : gmap Z Z) (l l' : links) (i : inst) (s : Z)
    (ops : list Z) :
  (∀ o i, store l !! o = Some i → off i = o) →
  edges_justified nexts (store l) (dsts l) →
  store l !! off i = Some i →
  opcode (raw i) ≠ OP_BEGIN → opcode (raw i) ≠ OP_RAISED →
  (∀ d, find_block_dst_off i ops = VInt d → edge_reason nexts i s d) →
  add_block_dst l s (find_block_dst_off i ops) = OK l' →
  store l' = store l ∧ edges_justified nexts (store l') (dsts l').
Proof.
  intros Hoffs Hj Hi Hb Hr Hreason. unfold add_block_dst.
  destruct (truthy _); [|by intros [= <-]].
  destruct (lookup_py _ _) as [t| |] eqn:Ht; cbn; try done. intros [= <-]. cbn.
  split; [done|]. apply lookup_py_off in Ht as [Hv Ht]; [|done].
  eapply edges_justified_add; [done|exact Hi|done|done|]. by apply Hreason.
Qed.

(** One iteration of the second scan keeps every edge justified. *)
Lemma link_step_justified (path name : string) (sc : scan) (l l' : links) (i : inst) :
  (∀ o i, store l !! o = Some i → off i = o) →
  edges_justified (nexts sc) (store l) (dsts l) →
  store l !! off i = Some i →
  link_step path name sc l i = OK l' →
  edges_justified (nexts sc) (store l') (dsts l').
Proof.
  intros Hoffs Hj Hi. unfold link_step.
  destruct (bool_decide (opcode (raw i) = OP_BEGIN) || bool_decide (opcode (raw i) = OP_RAISED))
    eqn:Hskip; [by intros [= <-]|].
  apply orb_false_iff in Hskip as [Hb Hr]. apply bool_decide_eq_false in Hb, Hr.
  set (d0 := if bool_decide (off i = 0) then set_add (dsts l) OFF_BEGIN (off i) else dsts l).
  assert (edges_justified (nexts sc) (store l) d0) as Hd0.
  { unfold d0. case_bool_decide as H0; [|done].
    eapply edges_justified_add; [done|exact Hi|done|done|]. left. by eauto. }
  destruct (if bool_decide (opcode (raw i) ∉ stop_opcodes) && negb (is_call_exit i) then _ else _)
    as [d1| |] eqn:Hd1; cbn [rbind]; try done.
  assert (edges_justified (nexts sc) (store l) d1) as Hd1ok.
  { destruct (bool_decide (opcode (raw i) ∉ stop_opcodes)) eqn:Hstop; cbn [andb] in Hd1;
      [|by simplify_eq].
    destruct (is_call_exit i) eqn:Hce; cbn [negb] in Hd1; [by simplify_eq|].
    apply bool_decide_eq_true in Hstop.
    destruct (nexts sc !! off i) as [n|] eqn:Hn; cbn in Hd1; [|done]. simplify_eq.
    eapply edges_justified_add; [done|exact Hi|done|done|]. right. left. done. }
  clear Hd1.
  destruct (if bool_decide (opcode (raw i) ∈ jump_opcodes) then _ else _)
    as [d2| |] eqn:Hd2; cbn [rbind]; try done.
  assert (edges_justified (nexts sc) (store l) d2) as Hd2ok.
  { destruct (bool_decide (opcode (raw i) ∈ jump_opcodes)) eqn:Hj'.
    - apply bool_decide_eq_true in Hj'.
      destruct (lookup_py _ _) as [t| |] eqn:Ht; cbn in Hd2; try done. simplify_eq.
      apply lookup_py_off in Ht as [Hv Ht]; [|done].
      eapply edges_justified_add; [done|exact Hi|done|done|]. right. right. left. done.
    - destruct (bool_decide (opcode (raw i) ∈ setup_exc_opcodes)) eqn:Hse; [|by simplify_eq].
      apply bool_decide_eq_true in Hse.
      destruct (lookup_py _ _) as [t| |] eqn:Ht; cbn in Hd2; try done. simplify_eq.
      apply lookup_py_off in Ht as [Hv Ht]; [|done].
      eapply edges_justified_add; [done|exact Hi|done|done|].
      right. right. right. left. done. }
  clear Hd2.
  set (l2 := {| dsts := d2; store := store l; stderr := stderr l |}).
  assert (edges_justified (nexts sc) (store l2) (dsts l2)) as Hl2 by done.
  destruct (bool_decide (opcode (raw i) = BREAK_LOOP)) eqn:Hop1.
  { apply bool_decide_eq_true in Hop1.
    destruct (v_dst sc) as [dst|]; cbn; [|done].
    destruct (truthy dst); cbn.
    - destruct (lookup_py _ _) as [t| |] eqn:Ht; cbn; try done. intros [= <-]. cbn.
      apply lookup_py_off in Ht as [Hv Ht]; [|done].
      eapply edges_justified_add; [done|exact Hi|done|done|].
      do 4 right. left. done.
    - destruct (v_line sc); cbn; [|done]. by destruct (v_off sc). }
  destruct (bool_decide (opcode (raw i) = END_FINALLY)) eqn:Hop2.
  { apply bool_decide_eq_true in Hop2. intros Hrun.
    eapply (add_block_dst_justified (nexts sc) l2) in Hrun as [_ ?]; try done.
    intros d Hd. do 5 right. left. split_and!; [done|by left|done]. }
  destruct (bool_decide (opcode (raw i) = RAISE_VARARGS)) eqn:Hop3.
  { apply bool_decide_eq_true in Hop3. intros Hrun.
    eapply (add_block_dst_justified (nexts sc) l2) in Hrun as [_ ?]; try done.
    intros d Hd. do 6 right. left. done. }
  destruct (bool_decide (opcode (raw i) = RETURN_VALUE)) eqn:Hop4.
  { apply bool_decide_eq_true in Hop4. intros Hrun.
    eapply (add_block_dst_justified (nexts sc) l2) in Hrun as [_ ?]; try done.
    intros d Hd. do 5 right. left. split_and!; [done|by right|done]. }
  destruct (bool_decide (opcode (raw i) = SETUP_FINALLY)) eqn:Hop5.
  { destruct (nexts sc !! off i) as [n|]; cbn; [|done].
    destruct (store l !! n) as [nxt|]; cbn; [|done].
    destruct (is_SF_exc_opt_fn _ _ _ _) as [[is_opt ws]| |]; cbn; try done.
    destruct is_opt; [|by intros [= <-]].
    destruct (lookup_py _ _) as [h| |] eqn:Hh; cbn; try done. intros [= <-]. cbn.
    apply lookup_py_off in Hh as [_ Hh]; [|done].
    by apply edges_justified_flag. }
  destruct (bool_decide (opcode (raw i) = YIELD_VALUE)) eqn:Hop6.
  { apply bool_decide_eq_true in Hop6.
    destruct (nexts sc !! off i) as [n|] eqn:Hn; cbn; [|done]. intros [= <-]. cbn.
    eapply edges_justified_add; [done|exact Hi|done|done|].
    do 7 right. split; [by left|done]. }
  destruct (bool_decide (opcode (raw i) = YIELD_FROM)) eqn:Hop7.
  { apply bool_decide_eq_true in Hop7.
    destruct (nexts sc !! off i) as [n|] eqn:Hn; cbn; [|done]. intros [= <-]. cbn.
    eapply edges_justified_add; [|exact Hi|done|done|].
    - eapply edges_justified_add; [done|exact Hi|done|done|]. left. by eauto.
    - do 7 right. split; [by right|done]. }
  by intros [= <-].
Qed.

(** The graph has no edge without a reason: every successor edge was
    added for an instruction of the stream, because the instruction is the
    first one, advances, jumps, sets up a handler, leaves for the handler
    of an enclosing block, or yields. *)
Theorem graph_edges_have_reasons (fuel : nat) (path : string) (c : code) (g : graph)
    (warnings : list diagnostic) :
  build_graph fuel path c = OK (g, warnings) →
  edges_justified (g_nexts g) (g_insts g) (g_dsts g).
Proof.
  unfold build_graph.
  destruct (scan_code c) as [sc| |] eqn:Hsc; cbn [rbind]; try done.
  destruct (link_code _ _ sc) as [l| |] eqn:Hl; cbn [rbind]; try done.
  destruct (visit_nodes _ _ _ _ _) as [[vis arcs]| |]; cbn [rbind]; try done.
  intros [= <- <-]. cbn. unfold link_code in Hl.
  assert ((∀ o i, store l !! o = Some i → off i = o)
          ∧ edges_justified (nexts sc) (store l) (dsts l)) as [_ ?]; [|done].
  eapply (foldM_inv _ (λ l : links,
            (∀ o i, store l !! o = Some i → off i = o)
            ∧ edges_justified (nexts sc) (store l) (dsts l))); [| |exact Hl].
  - intros l0 o l1 _ [Hoffs Hj]. unfold link_loop.
    destruct (store l0 !! o) as [i|] eqn:Hi; cbn; [|done]. intros Hstep.
    assert (store l0 !! off i = Some i) as Hi' by (by rewrite (Hoffs _ _ Hi)).
    split.
    + apply link_step_store in Hstep as [->|[h ->]]; [exact Hoffs|].
      intros o' i'. rewrite lookup_insert. case_decide as Ho; [|apply Hoffs].
      intros [= <-]. exact Ho.
    + by eapply link_step_justified.
  - cbn. split.
    + intros o i Hi. by destruct (scan_code_entries c sc o i Hsc Hi) as [? _].
    + intros s d. rewrite set_at_None by apply lookup_empty. by intros ?%elem_of_empty.
Qed.

Lemma graph_edges_have_reasons_witness :
  ∃ g warnings,
    build_graph 100 "m.py" try_finally_code = OK (g, warnings)
    ∧ edges_justified (g_nexts g) (g_insts g) (g_dsts g).
Proof.
  assert (holds (build_graph 100 "m.py" try_finally_code)
            (λ gw : graph * list diagnostic, bool_decide (is_Some (g_dsts gw.1 !! 0))) = true)
    as Hg by (vm_compute; reflexivity).
  apply holds_OK in Hg as ([g w] & Hg & _).
  exists g, w. split; [exact Hg|].
  exact (graph_edges_have_reasons 100 "m.py" try_finally_code g w Hg).
Defined.
